(** * IPFS document loaders and FAISS transfer utilities: a shallow embedding

  The development follows three Python modules:
  - [langchain/document_loaders/ipfs_file.py]      (module [ipfs_file])
  - [langchain/document_loaders/ipfs_directory.py] (module [ipfs_directory])
  - [langchain/utilities/ipfs.py]                  (module [ipfs])

  Python code that talks to the network is embedded in a state-and-exception
  monad over a [world]: the world holds the behaviour of the remote side
  (what the n-th HTTP request is answered with), the number of requests made
  so far and the chronological trace of observable events (HTTP posts,
  sleeps, log records).  Third-party libraries (python-magic, PyPDF2, pandas,
  json, faiss, pickle, the embedding constructor) are an interface, the class
  [Libs]; the code is verified for every implementation of it. *)

From Stdlib Require Import ZArith String Ascii List Lia Bool.
From Stdlib Require Import Strings.Byte.
From stdpp Require Import base option gmap strings list pretty.

Local Open Scope string_scope.
Local Open Scope Z_scope.

(** ** Python runtime *)

Module Py.

(** Exceptions deriving from [Exception] that the three modules raise or
    let through.  Interpreter signals outside that hierarchy
    (KeyboardInterrupt, SystemExit) are not modelled. *)
Inductive exn : Type :=
| Exception (msg : string)
| ValueError (msg : string)
| ImportError (msg : string)
| ConnectionError (msg : string)      (* requests.exceptions.ConnectionError *)
| AssertionError
| UnboundLocalError (var : string)
| KeyError (key : string)
| JSONDecodeError (msg : string)
| LibraryError (cls msg : string).    (* any other exception of a library *)

(** [isinstance(e, requests.exceptions.ConnectionError)] *)
Definition is_ConnectionError (e : exn) : bool :=
  match e with ConnectionError _ => true | _ => false end.

(** [isinstance(e, Exception)]: every modelled exception. *)
Definition is_Exception (e : exn) : bool := true.

(** [str(e)], as interpolated by an f-string. *)
Definition exn_str (e : exn) : string :=
  match e with
  | Exception m | ValueError m | ImportError m | ConnectionError m
  | JSONDecodeError m | LibraryError _ m => m
  | AssertionError => ""
  | UnboundLocalError v =>
      "cannot access local variable '" ++ v
        ++ "' where it is not associated with a value"
  | KeyError k => "'" ++ k ++ "'"
  end.

(** [sub in s] on strings: [sub] occurs in [s] as a contiguous block. *)
Fixpoint str_in (sub s : string) : bool :=
  String.prefix sub s
  || match s with
     | EmptyString => false
     | String _ s' => str_in sub s'
     end.

(** A Python [str] is a sequence of Unicode code points; a [string] holds
    its UTF-8 encoding.  A byte of the form 10xxxxxx continues the code
    point begun before it. *)
Definition is_continuation (b : ascii) : bool :=
  let n := nat_of_ascii b in
  (128 <=? n)%nat && (n <? 192)%nat.

(** The code points of a string in order, each as its bytes. *)
Fixpoint chars (s : string) : list string :=
  match s with
  | EmptyString => []
  | String b s' =>
      match chars s' with
      | String b' c :: cs =>
          if is_continuation b' then String b (String b' c) :: cs
          else String b EmptyString :: String b' c :: cs
      | cs => String b EmptyString :: cs
      end
  end.

(** The string made of the given code points. *)
Fixpoint unchars (cs : list string) : string :=
  match cs with
  | [] => EmptyString
  | c :: cs' => c ++ unchars cs'
  end.

(** The UTF-8 encoding of a code point. *)
Definition utf8 (c : Z) : string :=
  let byte n := ascii_of_N (Z.to_N n) in
  let continuation n := byte (Z.lor 0x80 (Z.land n 0x3F)) in
  if c <? 0x80 then
    String (byte c) EmptyString
  else if c <? 0x800 then
    String (byte (Z.lor 0xC0 (Z.shiftr c 6)))
      (String (continuation c) EmptyString)
  else if c <? 0x10000 then
    String (byte (Z.lor 0xE0 (Z.shiftr c 12)))
      (String (continuation (Z.shiftr c 6))
         (String (continuation c) EmptyString))
  else
    String (byte (Z.lor 0xF0 (Z.shiftr c 18)))
      (String (continuation (Z.shiftr c 12))
         (String (continuation (Z.shiftr c 6))
            (String (continuation c) EmptyString))).

(** The code points that [str.isspace] holds of, which are the ones
    [str.strip] removes: the ASCII controls 9 to 13 and 28 to 31, the
    space, and the separators of Unicode. *)
Definition white_space : list Z :=
  [0x09; 0x0A; 0x0B; 0x0C; 0x0D; 0x1C; 0x1D; 0x1E; 0x1F; 0x20; 0x85; 0xA0;
   0x1680; 0x2000; 0x2001; 0x2002; 0x2003; 0x2004; 0x2005; 0x2006; 0x2007;
   0x2008; 0x2009; 0x200A; 0x2028; 0x2029; 0x202F; 0x205F; 0x3000].

Definition is_space (c : string) : bool :=
  existsb (String.eqb c) (map utf8 white_space).

Fixpoint lstrip_chars (cs : list string) : list string :=
  match cs with
  | c :: cs' => if is_space c then lstrip_chars cs' else cs
  | [] => []
  end.

Definition rstrip_chars (cs : list string) : list string :=
  rev (lstrip_chars (rev cs)).

Definition lstrip (s : string) : string := unchars (lstrip_chars (chars s)).

Definition rstrip (s : string) : string := unchars (rstrip_chars (chars s)).

(** [s.strip()]: white space is removed from both ends. *)
Definition strip (s : string) : string :=
  unchars (rstrip_chars (lstrip_chars (chars s))).

(** Truth value of an optional string ([None] and [""] are false). *)
Definition truthy (o : option string) : bool :=
  match o with
  | Some (String _ _) => true
  | _ => false
  end.

Definition bytes : Type := list byte.

(** Values stored in a metadata dictionary. *)
Inductive value : Type :=
| VStr (s : string)
| VInt (n : Z).

(** What a call ends in: a value, a raised exception, or (for the fuelled
    recursion only) no answer within the fuel given, which bounds the depth
    of the recursion as the interpreter's recursion limit does. *)
Inductive result (A : Type) : Type :=
| Val (a : A)
| Raise (e : exn)
| OutOfFuel.
Arguments Val {A} a.
Arguments Raise {A} e.
Arguments OutOfFuel {A}.

End Py.
Export Py.

(** ** The [requests] library and the world it talks to *)

Module requests.

(** A link of a DAG node in dag-json: [{"Hash": {"/": cid}, "Name": name}].
    [Hash = None]: no "Hash" key; [Hash = Some None]: no "/" inside it;
    [Name = None]: no "Name" key. *)
Record link : Type := Link {
  Hash : option (option string);
  Name : option string
}.

(** The JSON object of a [dag/get] answer; [Links = None]: no "Links" key. *)
Record dag_json : Type := DagJson { Links : option (list link) }.

Record Response : Type := mkResponse {
  status_code : Z;
  content : bytes;
  json_body : option dag_json       (* [None]: the body is not JSON *)
}.

(** [Response.ok]: [raise_for_status] raises for 400 <= status < 600. *)
Definition ok (r : Response) : bool :=
  negb ((400 <=? status_code r) && (status_code r <? 600)).

(** The arguments of [requests.post(url, auth=...)];
    [auth = Some (key, secret)] is [HTTPBasicAuth(key, secret)]. *)
Record request : Type := Request {
  url : string;
  auth : option (option string * option string)
}.

Inductive outcome : Type :=
| Answers (r : Response)
| Fails (e : exn).

Inductive event : Type :=
| EPost (rq : request)
| ESleep (seconds : Z)
| ELog (level msg : string).

Record world : Type := World {
  server : nat -> request -> outcome;   (* answer to the n-th request *)
  clock : nat;                          (* requests made so far *)
  trace : list event                    (* what happened, oldest first *)
}.

(** The world after [k] more requests and the events [evs]. *)
Definition advance (k : nat) (evs : list event) (w : world) : world :=
  {| server := server w; clock := (clock w + k)%nat; trace := (trace w ++ evs)%list |}.

End requests.
Export requests.

(** ** The monad of effectful Python code *)

Definition M (A : Type) : Type := world -> result A * world.

Definition ret {A} (a : A) : M A := fun w => (Val a, w).

Definition raise {A} (e : exn) : M A := fun w => (Raise e, w).

Definition out_of_fuel {A} : M A := fun w => (OutOfFuel, w).

Definition bind {A B} (m : M A) (k : A -> M B) : M B :=
  fun w =>
    match m w with
    | (Val a, w') => k a w'
    | (Raise e, w') => (Raise e, w')
    | (OutOfFuel, w') => (OutOfFuel, w')
    end.

#[global] Instance M_ret : MRet M := @ret.
#[global] Instance M_bind : MBind M := fun A B k m => bind m k.

(** Sequencing of computations that return a value or an exception. *)
#[global] Instance exn_bind : MBind (sum exn) :=
  fun A B k r => match r with inr a => k a | inl e => inl e end.

(** A library call that returns or raises without touching the network. *)
Definition lift {A} (r : exn + A) : M A :=
  match r with
  | inr a => ret a
  | inl e => raise e
  end.

(** [try: body / except <catches> as e: handler e] *)
Definition try_except {A} (body : M A) (catches : exn -> bool)
    (handler : exn -> M A) : M A :=
  fun w =>
    match body w with
    | (Raise e, w') => if catches e then handler e w' else (Raise e, w')
    | r => r
    end.

(** [for i in range(n): body], where the body may [return] from the enclosing
    function ([Some a]) or fall through to the next round ([None]). *)
Fixpoint for_range {A} (n : nat) (body : M (option A)) : M (option A) :=
  match n with
  | O => ret None
  | S n' =>
      r ← body;
      match r with
      | Some a => ret (Some a)
      | None => for_range n' body
      end
  end.

(** [for x in xs: body x], threading the variables the body assigns. *)
Fixpoint for_each {X S} (xs : list X) (body : X -> S -> M S) (s : S) : M S :=
  match xs with
  | [] => ret s
  | x :: xs' => s' ← body x s; for_each xs' body s'
  end.

Definition requests_post (rq : request) : M Response :=
  fun w =>
    let w' := advance 1 [EPost rq] w in
    match server w (clock w) rq with
    | Answers r => (Val r, w')
    | Fails e => (Raise e, w')
    end.

(** [time.sleep] refuses a negative length. *)
Definition time_sleep (seconds : Z) : M unit :=
  fun w =>
    if seconds <? 0 then (Raise (ValueError "sleep length must be non-negative"), w)
    else (Val tt, advance 0 [ESleep seconds] w).

Definition logger_log (level msg : string) : M unit :=
  fun w => (Val tt, advance 0 [ELog level msg] w).

(** [response.json()] *)
Definition response_json (response : Response) : M dag_json :=
  match json_body response with
  | Some data => ret data
  | None => raise (JSONDecodeError "Expecting value")
  end.

(** [str(n)] for the status code of an f-string. *)
Definition str_of_Z (n : Z) : string := pretty n.

Definition nl : string := String (ascii_of_nat 10) EmptyString.

(** ** langchain.docstore.document *)

Record Document : Type := mkDocument {
  page_content : string;
  metadata : gmap string value
}.

(** [doc.metadata[k] = v] *)
Definition set_metadata (k : string) (v : value) (doc : Document) : Document :=
  {| page_content := page_content doc; metadata := <[k := v]> (metadata doc) |}.

(** ** Third-party libraries

    Each operation returns its value or the exception it raises
    (an [ImportError] when the package is absent included). *)

(** A cell of a pandas row: a Python [str], or any other object together
  with its rendering by [str()]. *)
Inductive cell : Type :=
| CellStr (s : string)
| CellOther (rendered : string).

(** A data frame as [iterrows] and [row.items] present it. *)
Definition DataFrame : Type := list (value * list (string * cell)).

Class Libs : Type := {
  (** [magic.Magic(mime=True).from_buffer] *)
  magic_from_buffer : bytes -> exn + string;
  (** [PyPDF2.PdfReader(f).pages], each through [extract_text] *)
  PyPDF2_page_texts : bytes -> exn + list string;
  (** [bytes.decode("utf-8")] *)
  decode_utf8 : bytes -> exn + string;
  (** [pandas.read_csv] *)
  pd_read_csv : bytes -> exn + DataFrame;
  (** [json.dumps(json.load(f))] *)
  json_load_dumps : bytes -> exn + string;
  (** faiss indexes, with [faiss.read_index] on the bytes written to a file *)
  faiss_index : Type;
  faiss_read_index : bytes -> exn + faiss_index;
  (** unpickled objects; [pickle.loads] of a dictionary with string keys *)
  docstore : Type;
  pickle_loads : bytes -> exn + gmap string docstore;
  (** [OpenAIEmbeddings()] *)
  embeddings : Type;
  OpenAIEmbeddings : exn + embeddings
}.

(** ** langchain/document_loaders/ipfs_file.py *)

Module ipfs_file.
Section WithLibs.
Context `{Libs}.

Definition identify_file_type_from_bytes (byte_data : bytes) : exn + string :=
  magic_from_buffer byte_data.

(** What a reader hands back: a [str] or a [list] of documents. *)
Inductive reader_output : Type :=
| Text (text : string)
| Docs (docs : list Document).

Definition pdf_reader (response : Response) : exn + reader_output :=
  pages ← PyPDF2_page_texts (content response);
  inr (Text (fold_left (fun text page => text ++ (page ++ nl ++ nl)) pages "")).

Definition txt_reader (response : Response) : exn + reader_output :=
  text ← decode_utf8 (content response);
  inr (Text text).

Definition csv_cell (k : string) (v : cell) : string :=
  match v with
  | CellStr s =>
      if negb (String.eqb (strip s) "")
      then strip k ++ ": " ++ strip s ++ nl
      else k ++ ": " ++ s ++ nl
  | CellOther rendered => k ++ ": " ++ rendered ++ nl
  end.

Definition lazy_csv_loader (df : DataFrame) : list Document :=
  map (fun '(index, row) =>
         {| page_content :=
              fold_left (fun content '(k, v) => content ++ csv_cell k v) row "";
            metadata := {[ "index" := index; "file_type" := VStr "text/csv" ]} |})
      df.

Definition csv_reader (response : Response) : exn + reader_output :=
  df ← pd_read_csv (content response);
  inr (Docs (lazy_csv_loader df)).

Definition json_reader (response : Response) : exn + reader_output :=
  data ← json_load_dumps (content response);
  inr (Text data).

(** The function objects [select_reader] chooses between. *)
Inductive Callable : Type :=
| the_pdf_reader
| the_csv_reader
| the_json_reader
| the_txt_reader.

Definition call (reader : Callable) : Response -> exn + reader_output :=
  match reader with
  | the_pdf_reader => pdf_reader
  | the_csv_reader => csv_reader
  | the_json_reader => json_reader
  | the_txt_reader => txt_reader
  end.

Definition select_reader (file_type : string) : exn + Callable :=
  if str_in "pdf" file_type then inr the_pdf_reader
  else if str_in "csv" file_type then inr the_csv_reader
  else if str_in "json" file_type then inr the_json_reader
  else if str_in "text" file_type then inr the_txt_reader
  else inl (Exception ("Unsupported file type: " ++ file_type)).

(** Class attributes of [IPFSFileDataLoader]. *)
Definition base_url : string := "http://127.0.0.1:5001".
Definition infura_base_url : string := "https://ipfs.infura.io:5001".
Definition base_api_path : string := "api/v0".
Definition read_suffix : string := "cat".
Definition version_suffix : string := "version".

(** An instance.  [max_retries] and [retry_delay] are read through [self];
    the class sets them to 5 and 1. *)
Record IPFSFileDataLoader : Type := {
  use_infura : bool;
  infura_api_key : option string;
  infura_api_secret : option string;
  debug : bool;
  max_retries : Z;
  retry_delay : Z
}.

(** [auth=auth if self.use_infura else None] *)
Definition auth_of (self : IPFSFileDataLoader) :=
  if use_infura self
  then Some (infura_api_key self, infura_api_secret self)
  else None.

Definition version_url (self : IPFSFileDataLoader) : string :=
  if use_infura self
  then infura_base_url ++ "/" ++ base_api_path ++ "/" ++ version_suffix
  else base_url ++ "/" ++ base_api_path ++ "/" ++ version_suffix.

Definition check_daemon_running (self : IPFSFileDataLoader) : M unit :=
  let full_url := version_url self in
  r ← for_range (Z.to_nat (max_retries self))
        (try_except
           (response ← requests_post {| url := full_url; auth := auth_of self |};
            if ok response then
              _ ← (if debug self
                   then logger_log "DEBUG" ("IPFS daemon is running at " ++ full_url)
                   else ret tt);
              ret (Some tt)
            else raise (Exception "IPFS daemon not running or not accessible"))
           is_ConnectionError
           (fun _ => _ ← time_sleep (retry_delay self); ret None));
  match r with
  | Some _ => ret tt
  | None => raise (Exception "IPFS daemon not running or not accessible")
  end.

Definition __init__ (use_infura : bool)
    (infura_api_key infura_api_secret : option string) (debug : bool)
    : M IPFSFileDataLoader :=
  let self := {| use_infura := use_infura;
                 infura_api_key := infura_api_key;
                 infura_api_secret := infura_api_secret;
                 debug := debug;
                 max_retries := 5;
                 retry_delay := 1 |} in
  if use_infura && (negb (truthy infura_api_key) || negb (truthy infura_api_secret))
  then raise (ValueError "Infura API key and secret are required when using Infura")
  else _ ← check_daemon_running self; ret self.

(** [Union[Document, list[Document]]] *)
Inductive loaded : Type :=
| One (doc : Document)
| Many (docs : list Document).

Definition cat_url (self : IPFSFileDataLoader) (ipfs_hash : string) : string :=
  (if use_infura self
   then infura_base_url ++ "/" ++ base_api_path ++ "/" ++ read_suffix
   else base_url ++ "/" ++ base_api_path ++ "/" ++ read_suffix)
  ++ "?arg=" ++ ipfs_hash.

Definition load (self : IPFSFileDataLoader) (ipfs_hash : string) : M loaded :=
  let full_url := cat_url self ipfs_hash in
  r ← for_range (Z.to_nat (max_retries self))
        (try_except
           (response ← requests_post {| url := full_url; auth := auth_of self |};
            if ok response then
              file_type ← lift (identify_file_type_from_bytes (content response));
              reader ← lift (select_reader file_type);
              text ← lift (call reader response);
              match text with
              | Text text =>
                  ret (Some (One {| page_content := text;
                                    metadata := {[ "ipfs_hash" := VStr ipfs_hash;
                                                   "file_type" := VStr file_type ]} |}))
              | Docs docs =>
                  ret (Some (Many (map (set_metadata "ipfs_hash" (VStr ipfs_hash)) docs)))
              end
            else
              _ ← logger_log "ERROR"
                    ("Failed to load file from IPFS with hash " ++ ipfs_hash);
              ret None)
           is_ConnectionError
           (fun _ => _ ← time_sleep (retry_delay self); ret None));
  match r with
  | Some doc => ret doc
  | None => raise (Exception ("Failed to connect to IPFS daemon for hash " ++ ipfs_hash))
  end.

End WithLibs.
End ipfs_file.

(** ** langchain/document_loaders/ipfs_directory.py *)

Module ipfs_directory.
Section WithLibs.
Context `{Libs}.

(** Class attributes of [IPFSDirectoryDataLoader]. *)
Definition base_url : string := "http://127.0.0.1:5001".
Definition infura_base_url : string := "https://ipfs.infura.io:5001".
Definition base_api_path : string := "api/v0".
Definition version_suffix : string := "version".
Definition dag_get_suffix : string := "dag/get".

Record IPFSDirectoryDataLoader : Type := {
  use_infura : bool;
  infura_api_key : option string;
  infura_api_secret : option string;
  debug : bool;
  max_retries : Z;
  retry_delay : Z
}.

Definition auth_of (self : IPFSDirectoryDataLoader) :=
  if use_infura self
  then Some (infura_api_key self, infura_api_secret self)
  else None.

Definition version_url (self : IPFSDirectoryDataLoader) : string :=
  if use_infura self
  then infura_base_url ++ "/" ++ base_api_path ++ "/" ++ version_suffix
  else base_url ++ "/" ++ base_api_path ++ "/" ++ version_suffix.

Definition check_daemon_running (self : IPFSDirectoryDataLoader) : M unit :=
  let full_url := version_url self in
  r ← for_range (Z.to_nat (max_retries self))
        (try_except
           (response ← requests_post {| url := full_url; auth := auth_of self |};
            if status_code response =? 200 then
              _ ← (if debug self
                   then logger_log "DEBUG" ("IPFS daemon is running at " ++ full_url)
                   else ret tt);
              ret (Some tt)
            else raise (Exception "IPFS daemon not running or not accessible"))
           is_ConnectionError
           (fun _ => _ ← time_sleep (retry_delay self); ret None));
  match r with
  | Some _ => ret tt
  | None => raise (Exception "IPFS daemon not running or not accessible")
  end.

Definition __init__ (use_infura : bool)
    (infura_api_key infura_api_secret : option string) (debug : bool)
    : M IPFSDirectoryDataLoader :=
  let self := {| use_infura := use_infura;
                 infura_api_key := infura_api_key;
                 infura_api_secret := infura_api_secret;
                 debug := debug;
                 max_retries := 5;
                 retry_delay := 1 |} in
  if use_infura && (negb (truthy infura_api_key) || negb (truthy infura_api_secret))
  then raise (ValueError "Infura API key and secret are required when using Infura")
  else _ ← check_daemon_running self; ret self.

Definition dag_get_url (self : IPFSDirectoryDataLoader) (ipfs_hash : string) : string :=
  (if use_infura self
   then infura_base_url ++ "/" ++ base_api_path ++ "/" ++ dag_get_suffix
   else base_url ++ "/" ++ base_api_path ++ "/" ++ dag_get_suffix)
  ++ "?arg=" ++ ipfs_hash.

Definition get_dag_get (self : IPFSDirectoryDataLoader) (ipfs_hash : string)
    : M Response :=
  let full_url := dag_get_url self ipfs_hash in
  r ← for_range (Z.to_nat (max_retries self))
        (try_except
           (response ← requests_post {| url := full_url; auth := auth_of self |};
            if status_code response =? 200 then ret (Some response)
            else raise (Exception ("Failed to get DAG for " ++ ipfs_hash
                                     ++ " with status code "
                                     ++ str_of_Z (status_code response))))
           is_ConnectionError
           (fun _ => _ ← time_sleep (retry_delay self); ret None));
  match r with
  | Some response => ret response
  | None => raise (Exception ("Could not get DAG for " ++ ipfs_hash))
  end.

Definition has_file_extension (name : string) : bool := str_in "." name.

(** [link.get("Hash", {}).get("/")] *)
Definition link_hash_of (link : link) : option string :=
  default None (Hash link).

(** [link.get("Name", "")] *)
Definition link_name_of (link : link) : string :=
  default "" (Name link).

(** The inner function of [recursive_dag_get].  The list [all_files] of the
    enclosing call, which the Python code appends to in place, is passed in
    and handed back.  A call needs one unit of [fuel] per level of nesting;
    the interpreter's own recursion limit is not modelled. *)
Fixpoint recursive_dag_get_helper (self : IPFSDirectoryDataLoader) (fuel : nat)
    (hash : string) (all_files : list (string * string))
    : M (list (string * string)) :=
  match fuel with
  | O => out_of_fuel
  | S fuel' =>
      response ← get_dag_get self hash;
      dag_data ← (if status_code response =? 200 then response_json response
                  else raise (Exception ("Failed to get DAG for " ++ hash
                                           ++ " with status code "
                                           ++ str_of_Z (status_code response))));
      let links := default [] (Links dag_data) in
      for_each links
        (fun link all_files =>
           let link_hash := link_hash_of link in
           let link_name := link_name_of link in
           all_files ← (if truthy link_hash
                        then recursive_dag_get_helper self fuel'
                               (default "" link_hash) all_files
                        else ret all_files);
           if truthy link_hash && truthy (Some link_name)
              && has_file_extension link_name
           then ret (all_files ++ [(default "" link_hash, link_name)])%list
           else ret all_files)
        all_files
  end.

Definition recursive_dag_get (self : IPFSDirectoryDataLoader) (fuel : nat)
    (ipfs_hash : string) : M (list (string * string)) :=
  recursive_dag_get_helper self fuel ipfs_hash [].

(** [doc.metadata["source"] = name], on a document or on each of a list. *)
Definition tag_source (name : string) (doc : ipfs_file.loaded) : ipfs_file.loaded :=
  match doc with
  | ipfs_file.One d => ipfs_file.One (set_metadata "source" (VStr name) d)
  | ipfs_file.Many ds => ipfs_file.Many (map (set_metadata "source" (VStr name)) ds)
  end.

Definition load (self : IPFSDirectoryDataLoader) (fuel : nat) (ipfs_hash : string)
    : M (list ipfs_file.loaded) :=
  all_files ← recursive_dag_get self fuel ipfs_hash;
  fileloader ← ipfs_file.__init__ false None None false;
  for_each all_files
    (fun '(hash, name) results =>
       try_except
         (doc ← ipfs_file.load fileloader hash;
          ret (results ++ [tag_source name doc])%list)
         is_Exception
         (fun e =>
            _ ← logger_log "ERROR" ("Failed to load file " ++ name ++ " with hash "
                                      ++ hash ++ ": " ++ exn_str e);
            _ ← logger_log "ERROR" ("Skipping file " ++ name ++ " with hash " ++ hash);
            ret results))
    [].

End WithLibs.
End ipfs_directory.

(** ** langchain/utilities/ipfs.py

    Construction and restore of [IPFSFAISSUtils]; the upload
    [send_vectorstore_to_ipfs] is not part of this development.  Temporary
    files are written and read back at once, so the bytes are passed on. *)

Module ipfs.
Section WithLibs.
Context `{Libs}.

(** Class attributes of [IPFSFAISSUtils]. *)
Definition base_url : string := "http://127.0.0.1:5001".
Definition infura_base_url : string := "https://ipfs.infura.io:5001".
Definition base_api_path : string := "api/v0".
Definition read_suffix : string := "cat".
Definition dag_get_suffix : string := "dag/get".
Definition version_suffix : string := "version".

Record IPFSFAISSUtils : Type := {
  use_infura : bool;
  infura_api_key : option string;
  infura_api_secret : option string;
  debug : bool;
  max_retries : Z;
  retry_delay : Z
}.

(** [langchain.vectorstores.faiss.FAISS], as its constructor receives it. *)
Record FAISS : Type := {
  embedding_function : embeddings;
  index : faiss_index;
  index_to_docstore_id : docstore;
  docstore_of : docstore
}.

Definition auth_of (self : IPFSFAISSUtils) :=
  if use_infura self
  then Some (infura_api_key self, infura_api_secret self)
  else None.

Definition version_url (self : IPFSFAISSUtils) : string :=
  if use_infura self
  then infura_base_url ++ "/" ++ base_api_path ++ "/" ++ version_suffix
  else base_url ++ "/" ++ base_api_path ++ "/" ++ version_suffix.

Definition check_daemon_running (self : IPFSFAISSUtils) : M unit :=
  let full_url := version_url self in
  r ← for_range (Z.to_nat (max_retries self))
        (try_except
           (response ← requests_post {| url := full_url; auth := auth_of self |};
            if ok response then
              _ ← (if debug self
                   then logger_log "DEBUG" ("IPFS daemon is running at " ++ full_url)
                   else ret tt);
              ret (Some tt)
            else raise (Exception "IPFS daemon not running or not accessible"))
           is_ConnectionError
           (fun _ => _ ← time_sleep (retry_delay self); ret None));
  match r with
  | Some _ => ret tt
  | None => raise (Exception "IPFS daemon not running or not accessible")
  end.

Definition __init__ (use_infura : bool)
    (infura_api_key infura_api_secret : option string) (debug : bool)
    : M IPFSFAISSUtils :=
  let self := {| use_infura := use_infura;
                 infura_api_key := infura_api_key;
                 infura_api_secret := infura_api_secret;
                 debug := debug;
                 max_retries := 5;
                 retry_delay := 1 |} in
  if use_infura && (negb (truthy infura_api_key) || negb (truthy infura_api_secret))
  then raise (ValueError "Infura API key and secret are required when using Infura")
  else _ ← check_daemon_running self; ret self.

Definition api_url (self : IPFSFAISSUtils) (suffix arg : string) : string :=
  if use_infura self
  then infura_base_url ++ "/" ++ base_api_path ++ "/" ++ suffix ++ "?arg=" ++ arg
  else base_url ++ "/" ++ base_api_path ++ "/" ++ suffix ++ "?arg=" ++ arg.

(** [d[key]] on an optional field. *)
Definition getitem {A} (key : string) (field : option A) : exn + A :=
  match field with
  | Some a => inr a
  | None => inl (KeyError key)
  end.

(** The local variables the loop over the links may bind;
    [None]: not assigned yet. *)
Record hashes : Type := Hashes {
  index_hash : option string;
  docstore_hash : option string
}.

(** One round of [for link in links]. *)
Definition bind_link_hashes (link : link) (vars : hashes) : exn + hashes :=
  name ← getitem "Name" (Name link);
  vars ← (if str_in "index" name then
            h ← getitem "Hash" (Hash link);
            h ← getitem "/" h;
            inr {| index_hash := Some h; docstore_hash := docstore_hash vars |}
          else inr vars);
  name ← getitem "Name" (Name link);
  if str_in "docstore" name then
    h ← getitem "Hash" (Hash link);
    h ← getitem "/" h;
    inr {| index_hash := index_hash vars; docstore_hash := Some h |}
  else inr vars.

(** Reading a local variable. *)
Definition read_local (var : string) (v : option string) : M string :=
  match v with
  | Some h => ret h
  | None => raise (UnboundLocalError var)
  end.

Definition get_vectorstore_from_ipfs (self : IPFSFAISSUtils) (cid : string)
    : M FAISS :=
  let url := api_url self dag_get_suffix cid in
  let auth := auth_of self in
  response ← requests_post {| url := url; auth := auth |};
  data ← response_json response;
  links ← lift (getitem "Links" (Links data));
  _ ← (if (length links =? 2)%nat then ret tt else raise AssertionError);
  vars ← for_each links (fun link vars => lift (bind_link_hashes link vars))
           {| index_hash := None; docstore_hash := None |};
  index_hash ← read_local "index_hash" (index_hash vars);
  let index_url := api_url self read_suffix index_hash in
  docstore_hash ← read_local "docstore_hash" (docstore_hash vars);
  let docstore_url := api_url self read_suffix docstore_hash in
  index_response ← requests_post {| url := index_url; auth := auth |};
  docstore_response ← requests_post {| url := docstore_url; auth := auth |};
  embeddings ← lift OpenAIEmbeddings;
  index ← lift (faiss_read_index (content index_response));
  docstore_data ← lift (pickle_loads (content docstore_response));
  index_to_docstore_id ←
    lift (getitem "index_to_docstore_id" (docstore_data !! "index_to_docstore_id"));
  docstore ← lift (getitem "docstore" (docstore_data !! "docstore"));
  ret {| embedding_function := embeddings;
         index := index;
         index_to_docstore_id := index_to_docstore_id;
         docstore_of := docstore |}.

End WithLibs.
End ipfs.

(** * Specification vocabulary

    The notions the properties are stated with, and the example data they
    are tried on. *)

(** [sub] occurs in [s]: the meaning of Python's [sub in s]. *)
Definition occurs (sub s : string) : Prop :=
  exists before after : string, s = before ++ sub ++ after.

(** One round of a retry loop: post the request, treat the answer, and on a
    connection error sleep and fall through to the next round. *)
Definition attempt {A} (rq : request) (delay : Z) (treat : Response -> M (option A))
    : M (option A) :=
  try_except (requests_post rq ≫= treat) is_ConnectionError
    (fun _ => time_sleep delay ≫= fun _ => ret None).

(** A connection-level failure of the request. *)
Definition connection_failure (o : outcome) : Prop :=
  exists e, o = Fails e /\ is_ConnectionError e = true.

(** The events of [k] rounds that all end in a connection failure. *)
Definition failed_rounds (rq : request) (delay : Z) (k : nat) : list event :=
  concat (repeat [EPost rq; ESleep delay] k).

(** The world after [k] rounds whose events depend on the answer given
    to the request [rq] of that round. *)
Definition rounds (events : outcome -> list event) (rq : request)
    (k : nat) (w : world) : world :=
  advance k (flat_map (fun i => events (server w i rq)) (seq (clock w) k)) w.

(** The world in which round [k] treats its answer: [k] failed rounds and
    one more post lie behind. *)
Definition answered_world (rq : request) (delay : Z) (k : nat) (w : world) : world :=
  advance (k + 1) (failed_rounds rq delay k ++ [EPost rq]) w.

(** The requests the operations post. *)
Definition dag_request (self : ipfs_directory.IPFSDirectoryDataLoader)
    (ipfs_hash : string) : request :=
  {| url := ipfs_directory.dag_get_url self ipfs_hash;
     auth := ipfs_directory.auth_of self |}.

Definition cat_request (self : ipfs_file.IPFSFileDataLoader)
    (ipfs_hash : string) : request :=
  {| url := ipfs_file.cat_url self ipfs_hash; auth := ipfs_file.auth_of self |}.

Definition directory_version_request (self : ipfs_directory.IPFSDirectoryDataLoader)
    : request :=
  {| url := ipfs_directory.version_url self; auth := ipfs_directory.auth_of self |}.

Definition file_version_request (self : ipfs_file.IPFSFileDataLoader) : request :=
  {| url := ipfs_file.version_url self; auth := ipfs_file.auth_of self |}.

Definition utils_version_request (self : ipfs.IPFSFAISSUtils) : request :=
  {| url := ipfs.version_url self; auth := ipfs.auth_of self |}.

(** ** Example data

    A stand-in for the libraries, sniffing the type from the first byte, and
    loaders as the constructors build them in local mode. *)
Definition example_libs : Libs := {|
  magic_from_buffer := fun data =>
    match data with
    | [] => inr "application/x-empty"
    | b :: _ =>
        if Byte.eqb b "%"%byte then inr "application/pdf"
        else if Byte.eqb b "{"%byte then inr "application/json"
        else if Byte.eqb b x89 then inr "image/png"
        else inr "text/plain"
    end;
  PyPDF2_page_texts := fun _ => inr ["page one"];
  decode_utf8 := fun data => inr (string_of_list_byte data);
  pd_read_csv := fun _ => inr [];
  json_load_dumps := fun data => inr (string_of_list_byte data);
  faiss_index := bytes;
  faiss_read_index := fun data => inr data;
  docstore := unit;
  pickle_loads := fun _ => inr ({[ "index_to_docstore_id" := tt; "docstore" := tt ]});
  embeddings := unit;
  OpenAIEmbeddings := inr tt
|}.

(** The instances the constructors build. *)
Definition new_directory_loader (use_infura : bool) (key secret : option string)
    (debug : bool) : ipfs_directory.IPFSDirectoryDataLoader :=
  {| ipfs_directory.use_infura := use_infura;
     ipfs_directory.infura_api_key := key;
     ipfs_directory.infura_api_secret := secret;
     ipfs_directory.debug := debug;
     ipfs_directory.max_retries := 5;
     ipfs_directory.retry_delay := 1 |}.

Definition new_file_loader (use_infura : bool) (key secret : option string)
    (debug : bool) : ipfs_file.IPFSFileDataLoader :=
  {| ipfs_file.use_infura := use_infura;
     ipfs_file.infura_api_key := key;
     ipfs_file.infura_api_secret := secret;
     ipfs_file.debug := debug;
     ipfs_file.max_retries := 5;
     ipfs_file.retry_delay := 1 |}.

Definition new_utils (use_infura : bool) (key secret : option string)
    (debug : bool) : ipfs.IPFSFAISSUtils :=
  {| ipfs.use_infura := use_infura;
     ipfs.infura_api_key := key;
     ipfs.infura_api_secret := secret;
     ipfs.debug := debug;
     ipfs.max_retries := 5;
     ipfs.retry_delay := 1 |}.

Definition local_directory_loader : ipfs_directory.IPFSDirectoryDataLoader :=
  new_directory_loader false None None false.

Definition local_file_loader : ipfs_file.IPFSFileDataLoader :=
  new_file_loader false None None false.

Definition local_utils : ipfs.IPFSFAISSUtils :=
  new_utils false None None false.

(** A fresh world facing the remote side [srv]. *)
Definition fresh (srv : nat -> request -> outcome) : world :=
  {| server := srv; clock := 0; trace := [] |}.

(** No daemon is listening: every request is refused. *)
Definition unreachable : nat -> request -> outcome :=
  fun _ _ => Fails (ConnectionError "Connection refused").

(** The daemon answers every request with status 500. *)
Definition failing_daemon : nat -> request -> outcome :=
  fun _ _ => Answers {| status_code := 500; content := []; json_body := None |}.

(** The first [k] posts of [rq] from [w] on fail at connection level and the
    next one is answered with [r]. *)
Definition fails_then_answers (w : world) (rq : request) (k : nat) (r : Response)
    : Prop :=
  (forall i, (clock w <= i < clock w + k)%nat -> connection_failure (server w i rq))
  /\ server w (clock w + k)%nat rq = Answers r.

(** An operation that gives up on its first post. *)
Definition raises_at_once {A} (op : M A) (w : world) : Prop :=
  exists e w', op w = (Raise e, w') /\ clock w' = S (clock w).

(** A post of the file fetch that yields no file: refused, or answered with
    an error status. *)
Definition unsuccessful (o : outcome) : Prop :=
  connection_failure o \/ exists r, o = Answers r /\ ok r = false.

(** What one such round of the file fetch leaves in the trace. *)
Definition load_round_events (self : ipfs_file.IPFSFileDataLoader)
    (ipfs_hash : string) (o : outcome) : list event :=
  EPost (cat_request self ipfs_hash)
  :: match o with
     | Fails _ => [ESleep (ipfs_file.retry_delay self)]
     | Answers _ =>
         [ELog "ERROR" ("Failed to load file from IPFS with hash " ++ ipfs_hash)]
     end.

(** Number of HTTP posts among some events. *)
Definition count_posts (evs : list event) : nat :=
  length (List.filter (fun ev => match ev with EPost _ => true | _ => false end) evs).

(** Two refused connections, then a daemon that answers status 500. *)
Definition refused_twice_then_500 : nat -> request -> outcome :=
  fun i rq => if (i <? 2)%nat then unreachable i rq else failing_daemon i rq.

(** A credential that was not given, or given empty. *)
Definition missing (credential : option string) : Prop :=
  credential = None \/ credential = Some "".

Definition config_error : exn :=
  ValueError "Infura API key and secret are required when using Infura".

(** The trace of a daemon check that is answered at once. *)
Definition check_events (rq : request) (debug : bool) : list event :=
  EPost rq
  :: (if debug then [ELog "DEBUG" ("IPFS daemon is running at " ++ url rq)] else []).

(** The daemon answers every request with status 200 and an empty body. *)
Definition healthy_daemon : nat -> request -> outcome :=
  fun _ _ => Answers {| status_code := 200; content := []; json_body := None |}.

(** ** Vector store restore *)

Definition dag_root_request (self : ipfs.IPFSFAISSUtils) (cid : string)
    : request :=
  {| url := ipfs.api_url self ipfs.dag_get_suffix cid; auth := ipfs.auth_of self |}.

(** The next post of [rq] is answered with a DAG node whose links are [links]. *)
Definition resolves_to (w : world) (rq : request) (links : list link) : Prop :=
  exists r data,
    server w (clock w) rq = Answers r
    /\ json_body r = Some data
    /\ Links data = Some links.

(** Some link of [links] has a name in which [sub] occurs. *)
Definition some_name_contains (sub : string) (links : list link) : Prop :=
  exists l name, In l links /\ Name l = Some name /\ occurs sub name.

(** A link with a name and a content identifier. *)
Definition well_formed (l : link) : Prop :=
  exists name cid, Name l = Some name /\ Hash l = Some (Some cid).

(** A daemon that answers every request with the DAG node [links]. *)
Definition dag_daemon (links : list link) : nat -> request -> outcome :=
  fun _ _ => Answers {| status_code := 200; content := [];
                        json_body := Some {| Links := Some links |} |}.

(** ** Remote directory structures

    A remote structure maps the hash of each node to the links of the node. *)

(** The hash a link points to, and whether the traversal follows the link
    (the hash is present and not empty). *)
Definition target (l : link) : string :=
  default "" (ipfs_directory.link_hash_of l).

Definition followed (l : link) : bool := truthy (ipfs_directory.link_hash_of l).

(** The links of a node, none if the hash is unknown. *)
Definition links_of (store : gmap string (list link)) (h : string) : list link :=
  default [] (store !! h).

(** The daemon behind [w] answers [dag/get] for every node of [store],
    whenever asked, with status 200 and the links of the node. *)
Definition serves (w : world) (self : ipfs_directory.IPFSDirectoryDataLoader)
    (store : gmap string (list link)) : Prop :=
  forall i h links,
    store !! h = Some links ->
    exists r data,
      server w i (dag_request self h) = Answers r
      /\ status_code r = 200
      /\ json_body r = Some data
      /\ default [] (Links data) = links.

(** Every link that is followed leads to a node of the structure. *)
Definition closed (store : gmap string (list link)) : Prop :=
  forall h links l,
    store !! h = Some links -> In l links -> followed l = true ->
    is_Some (store !! target l).

(** The structure is acyclic: [rank] strictly decreases along every link
    that is followed. *)
Definition ranked (store : gmap string (list link)) (rank : string -> nat) : Prop :=
  forall h links l,
    store !! h = Some links -> In l links -> followed l = true ->
    (rank (target l) < rank h)%nat.

(** [dst] is reached from [src] along links that are followed. *)
Inductive reachable (store : gmap string (list link)) (src : string)
    : string -> Prop :=
| reachable_here : reachable store src src
| reachable_step (h : string) (l : link) :
    reachable store src h -> In l (links_of store h) -> followed l = true ->
    reachable store src (target l).

(** Number of chains of exactly [k] followed links from [src] to [dst]. *)
Fixpoint chains (store : gmap string (list link)) (k : nat) (src dst : string)
    : nat :=
  match k with
  | O => if String.eqb src dst then 1 else 0
  | S k' =>
      list_sum (map (fun l => if followed l then chains store k' (target l) dst
                              else 0%nat)
                  (links_of store src))
  end.

(** Number of chains of at most [n] followed links from [src] to [dst]. *)
Definition chains_upto (store : gmap string (list link)) (n : nat)
    (src dst : string) : nat :=
  list_sum (map (fun k => chains store k src dst) (seq 0 (S n))).

(** Number of links of the whole structure that point to [h]. *)
Definition in_links (store : gmap string (list link)) (h : string) : nat :=
  list_sum (map (fun '(_, links) =>
                   length (List.filter (fun l => followed l && String.eqb (target l) h)
                             links))
              (map_to_list store)).

(** The hashes the traversal asks for, in order, and the files it collects,
    when it starts at [h] with [fuel] levels to go. *)
Fixpoint visits (store : gmap string (list link)) (fuel : nat) (h : string)
    : list string :=
  match fuel with
  | O => []
  | S fuel' =>
      h :: flat_map (fun l => if followed l then visits store fuel' (target l) else [])
             (links_of store h)
  end.

Definition collected (l : link) : bool :=
  followed l && truthy (Some (ipfs_directory.link_name_of l))
  && ipfs_directory.has_file_extension (ipfs_directory.link_name_of l).

Fixpoint files (store : gmap string (list link)) (fuel : nat) (h : string)
    : list (string * string) :=
  match fuel with
  | O => []
  | S fuel' =>
      flat_map (fun l =>
                  ((if followed l then files store fuel' (target l) else [])
                   ++ (if collected l
                       then [(target l, ipfs_directory.link_name_of l)] else []))%list)
        (links_of store h)
  end.

Definition dag_posts (self : ipfs_directory.IPFSDirectoryDataLoader)
    (hashes : list string) : list event :=
  map (fun h => EPost (dag_request self h)) hashes.

(** ** An example daemon

    A local daemon that serves the nodes of [store] on [dag/get], the
    contents [blobs] on [cat], and answers anything else with status 200. *)

Fixpoint strip_prefix (prefix s : string) : option string :=
  match prefix with
  | EmptyString => Some s
  | String a prefix' =>
      match s with
      | String b s' => if Ascii.eqb a b then strip_prefix prefix' s' else None
      | EmptyString => None
      end
  end.

Definition plain (status : Z) (body : bytes) : outcome :=
  Answers {| status_code := status; content := body; json_body := None |}.

Definition ipfs_daemon (store : gmap string (list link)) (blobs : gmap string bytes)
    : nat -> request -> outcome :=
  fun _ rq =>
    match strip_prefix "http://127.0.0.1:5001/api/v0/dag/get?arg=" (url rq) with
    | Some h =>
        match store !! h with
        | Some links =>
            Answers {| status_code := 200; content := [];
                       json_body := Some {| Links := Some links |} |}
        | None => plain 500 []
        end
    | None =>
        match strip_prefix "http://127.0.0.1:5001/api/v0/cat?arg=" (url rq) with
        | Some h =>
            match blobs !! h with
            | Some body => plain 200 body
            | None => plain 500 []
            end
        | None => plain 200 []
        end
    end.

Definition named_link (cid name : string) : link :=
  {| Hash := Some (Some cid); Name := Some name |}.

(** A root with the same directory linked under two names; the directory
    holds a text file and a picture. *)
Definition example_store : gmap string (list link) :=
  <["QmRoot" := [named_link "QmDir" "docs"; named_link "QmDir" "copy"] ]>
  (<["QmDir" := [named_link "QmNotes" "notes.txt"; named_link "QmPhoto" "photo.png"] ]>
  (<["QmNotes" := []]>
  (<["QmPhoto" := []]> ∅))).

Definition example_blobs : gmap string bytes :=
  <["QmNotes" := list_byte_of_string "hello"]>
  (<["QmPhoto" := [x89; x50; x4e; x47] ]> ∅).

Definition example_rank (h : string) : nat :=
  if String.eqb h "QmRoot" then 2%nat
  else if String.eqb h "QmDir" then 1%nat
  else 0%nat.

Definition example_world : world := fresh (ipfs_daemon example_store example_blobs).

(** ** Directory load *)

(** An operation that always answers: it never runs out of fuel. *)
Definition total {A} (m : M A) : Prop :=
  forall w w', m w <> (OutOfFuel, w').

(** The two log records written when a file is skipped. *)
Definition skip_events (hash name : string) (e : exn) : list event :=
  [ELog "ERROR" ("Failed to load file " ++ name ++ " with hash " ++ hash ++ ": "
                   ++ exn_str e);
   ELog "ERROR" ("Skipping file " ++ name ++ " with hash " ++ hash)].

(** [loads fileloader files w kept w']: loading the [files] one after the
    other from world [w] ends in [w']; [kept] lists, in order, the files
    whose load returned, each with what it returned; a file whose load
    raised is logged and left out. *)
Inductive loads `{Libs} (fileloader : ipfs_file.IPFSFileDataLoader)
    : list (string * string) -> world
      -> list (string * string * ipfs_file.loaded) -> world -> Prop :=
| loads_done (w : world) : loads fileloader [] w [] w
| loads_keep (hash name : string) (rest : list (string * string)) (w w1 w2 : world)
    (doc : ipfs_file.loaded) (kept : list (string * string * ipfs_file.loaded)) :
    ipfs_file.load fileloader hash w = (Val doc, w1) ->
    loads fileloader rest w1 kept w2 ->
    loads fileloader ((hash, name) :: rest) w ((hash, name, doc) :: kept) w2
| loads_skip (hash name : string) (rest : list (string * string)) (w w1 w2 : world)
    (e : exn) (kept : list (string * string * ipfs_file.loaded)) :
    ipfs_file.load fileloader hash w = (Raise e, w1) ->
    loads fileloader rest (advance 0 (skip_events hash name e) w1) kept w2 ->
    loads fileloader ((hash, name) :: rest) w kept w2.

(** The results of a directory load for the files kept. *)
Definition results_of (kept : list (string * string * ipfs_file.loaded))
    : list ipfs_file.loaded :=
  map (fun '(_, name, doc) => ipfs_directory.tag_source name doc) kept.







(** The loop of [load] over the collected files. *)
Definition load_loop `{Libs} (fileloader : ipfs_file.IPFSFileDataLoader)
    (all_files : list (string * string)) (results : list ipfs_file.loaded)
    : M (list ipfs_file.loaded) :=
  for_each all_files
    (fun '(hash, name) results =>
       try_except
         (ipfs_file.load fileloader hash ≫= fun doc =>
          ret (results ++ [ipfs_directory.tag_source name doc])%list)
         is_Exception
         (fun e =>
            logger_log "ERROR" ("Failed to load file " ++ name ++ " with hash "
                                  ++ hash ++ ": " ++ exn_str e)
            ≫= fun _ =>
            logger_log "ERROR" ("Skipping file " ++ name ++ " with hash " ++ hash)
            ≫= fun _ => ret results))
    results.

(** An operation that leaves the remote side as it is. *)
Definition keeps_server {A} (m : M A) : Prop :=
  forall w r w', m w = (r, w') -> server w' = server w.

(** ** More on the retry loops *)

(** The first [k] posts of [rq] from [w] on fail at connection level and the
    next one fails with [e], which is no connection error. *)
Definition fails_then_breaks (w : world) (rq : request) (k : nat) (e : exn) : Prop :=
  (forall i, (clock w <= i < clock w + k)%nat -> connection_failure (server w i rq))
  /\ server w (clock w + k)%nat rq = Fails e
  /\ is_ConnectionError e = false.

(** The log record of a daemon check in debug mode. *)
Definition debug_events (debug : bool) (full_url : string) : list event :=
  if debug then [ELog "DEBUG" ("IPFS daemon is running at " ++ full_url)] else [].

(** Refused twice, then answered with status 200 and an empty body. *)
Definition refused_twice_then_200 : nat -> request -> outcome :=
  fun i rq => if (i <? 2)%nat then unreachable i rq else healthy_daemon i rq.

(** Refused twice, then the request times out while reading. *)
Definition refused_twice_then_timeout : nat -> request -> outcome :=
  fun i rq =>
    if (i <? 2)%nat then unreachable i rq
    else Fails (LibraryError "ReadTimeout" "Read timed out.").

(** ** Facts about every run of an operation *)

(** Whatever [m] returns satisfies [post]. *)
Definition returns {A} (m : M A) (post : A -> Prop) : Prop :=
  forall w a w', m w = (Val a, w') -> post a.

(** A run of [m] posts at most [n] requests. *)
Definition posts_at_most {A} (n : nat) (m : M A) : Prop :=
  forall w r w', m w = (r, w') -> (clock w' <= clock w + n)%nat.

(** A run of [m] only appends events that are [allowed], and advances the
    clock by the number of posts among them. *)
Definition emits {A} (allowed : event -> Prop) (m : M A) : Prop :=
  forall w r w', m w = (r, w') ->
    exists evs, w' = advance (count_posts evs) evs w /\ Forall allowed evs.

(** ** Readers and file loads *)

(** The strings of a list one after the other. *)
Definition join (parts : list string) : string := fold_right append "" parts.

(** A string of white space only (the empty string included): each of its
    code points is one that [str.isspace] holds of. *)
Definition blank (s : string) : bool := forallb Py.is_space (Py.chars s).

(** The text of a CSV row. *)
Definition row_text (row : list (string * cell)) : string :=
  join (map (fun '(k, v) => ipfs_file.csv_cell k v) row).

(** An example of the libraries that reads every content as a data frame
    of two rows. *)
Definition example_frame : DataFrame :=
  [(VInt 0, [(" name ", CellStr " Ada "); ("age", CellOther "36")]);
   (VInt 1, [(" name ", CellStr "   "); ("age", CellOther "nan")]);
   (VInt 2, [("name" ++ utf8 0xA0, CellStr ("Lovelace" ++ utf8 0x2003));
             ("note", CellStr (utf8 0x2003))])].

Definition csv_libs : Libs := {|
  magic_from_buffer := fun _ => inr "application/csv";
  PyPDF2_page_texts := fun _ => inr ["one"; "two"];
  decode_utf8 := fun data => inr (string_of_list_byte data);
  pd_read_csv := fun _ => inr example_frame;
  json_load_dumps := fun data => inr (string_of_list_byte data);
  faiss_index := bytes;
  faiss_read_index := fun data => inr data;
  docstore := unit;
  pickle_loads := fun _ => inr ∅;
  embeddings := unit;
  OpenAIEmbeddings := inr tt
|}.

(** ** More on the traversal and the directory load *)

(** A pair the traversal may collect: a hash that is not empty and a name
    with a period. *)
Definition file_like (pair : string * string) : Prop :=
  fst pair <> "" /\ occurs "." (snd pair).

(** The events of a traversal by [self]: DAG requests of its own, to its own
    endpoint and with its own credentials, and sleeps between retries. *)
Definition traversal_event (self : ipfs_directory.IPFSDirectoryDataLoader)
    (ev : event) : Prop :=
  (exists h, ev = EPost (dag_request self h))
  \/ ev = ESleep (ipfs_directory.retry_delay self).

(** The events of the file loader a directory load constructs: requests to
    the local daemon, without credentials, sleeps of one second and error
    records. *)
Definition local_file_event (ev : event) : Prop :=
  ev = EPost {| url := "http://127.0.0.1:5001/api/v0/version"; auth := None |}
  \/ (exists h, ev = EPost {| url := "http://127.0.0.1:5001/api/v0/cat?arg=" ++ h;
                              auth := None |})
  \/ ev = ESleep 1
  \/ (exists msg, ev = ELog "ERROR" msg).

(** A hosted directory loader, and a remote side on which only the hosted
    gateway answers (with a node without links): the local daemon is down. *)
Definition hosted_directory_loader : ipfs_directory.IPFSDirectoryDataLoader :=
  new_directory_loader true (Some "key") (Some "secret") false.

Definition gateway_only : nat -> request -> outcome :=
  fun i rq =>
    if String.prefix "https://ipfs.infura.io:5001/" (url rq)
    then dag_daemon [] i rq
    else unreachable i rq.

(** A node that links to itself. *)
Definition looping_store : gmap string (list link) :=
  <["QmLoop" := [{| Hash := None; Name := Some "readme.md" |};
                 named_link "QmLoop" "again";
                 named_link "QmFile" "notes.txt"] ]> ∅.

(** ** More on the restore *)

(** [h] is the hash of the last link of [links] whose name contains [sub]. *)
Definition last_match (sub : string) (links : list link) (h : string) : Prop :=
  exists before l after name,
    links = (before ++ l :: after)%list
    /\ Name l = Some name /\ occurs sub name
    /\ Hash l = Some (Some h)
    /\ ~ some_name_contains sub after.

Definition cat_hash_request (self : ipfs.IPFSFAISSUtils) (h : string) : request :=
  {| url := ipfs.api_url self ipfs.read_suffix h; auth := ipfs.auth_of self |}.

(** The events of a restore: the request for the root and requests for
    contents, to the utilities' own endpoint. *)
Definition restore_event (self : ipfs.IPFSFAISSUtils) (cid : string) (ev : event)
    : Prop :=
  ev = EPost (dag_root_request self cid)
  \/ exists h, ev = EPost (cat_hash_request self h).

(** A root with two index files and a docstore, served for every request. *)
Definition two_indexes : list link :=
  [named_link "QmOld" "old.index"; named_link "QmNew" "new.index.docstore"].

(** ** More on construction *)

(** The version request of hosted mode. *)
Definition hosted_version_request (key secret : option string) : request :=
  {| url := "https://ipfs.infura.io:5001/api/v0/version";
     auth := Some (key, secret) |}.

(** The version request of local mode. *)
Definition local_version_request : request :=
  {| url := "http://127.0.0.1:5001/api/v0/version"; auth := None |}.

(** The version request a constructor sends. *)
Definition version_request (use_infura : bool) (key secret : option string)
    : request :=
  if use_infura then hosted_version_request key secret else local_version_request.

(** The daemon answers every request with status 204 and an empty body. *)
Definition no_content_daemon : nat -> request -> outcome :=
  fun _ _ => Answers {| status_code := 204; content := []; json_body := None |}.

(** ** Contents that cannot be read *)

(** Libraries that sniff every content as JSON and fail to parse it. *)
Definition broken_json_libs : Libs := {|
  magic_from_buffer := fun _ => inr "application/json";
  PyPDF2_page_texts := fun _ => inr [];
  decode_utf8 := fun data => inr (string_of_list_byte data);
  pd_read_csv := fun _ => inr [];
  json_load_dumps := fun _ => inl (JSONDecodeError "Expecting value");
  faiss_index := bytes;
  faiss_read_index := fun data => inr data;
  docstore := unit;
  pickle_loads := fun _ => inr ∅;
  embeddings := unit;
  OpenAIEmbeddings := inr tt
|}.

(** ** A directory of readable files *)





(** * Properties *)

(** ** Substring tests *)

Lemma prefix_true_iff (sub s : string) :
  String.prefix sub s = true <-> exists after, s = sub ++ after.
Proof.
  revert s. induction sub as [|c sub IH]; intros s.
  - split; [intros _; now exists s | intros _; now destruct s].
  - destruct s as [|d s]; simpl.
    + split; [discriminate | intros [after E]; discriminate].
    + destruct (ascii_dec c d) as [->|ne].
      * rewrite IH. split; intros [after E]; exists after.
        -- now rewrite E.
        -- now injection E.
      * split; [discriminate | intros [after E]; injection E; congruence].
Qed.

Lemma str_in_nil (sub : string) : str_in sub "" = String.prefix sub "" || false.
Proof. reflexivity. Qed.

Lemma str_in_cons (sub : string) (c : ascii) (s : string) :
  str_in sub (String c s) = String.prefix sub (String c s) || str_in sub s.
Proof. reflexivity. Qed.

Lemma str_in_occurs (sub s : string) : str_in sub s = true <-> occurs sub s.
Proof.
  induction s as [|c s IH]; [rewrite str_in_nil | rewrite str_in_cons].
  - rewrite orb_false_r, prefix_true_iff. split.
    + intros [after E]. now exists "", after.
    + intros [[|b before] [after E]]; [now exists after | discriminate].
  - rewrite orb_true_iff, prefix_true_iff, IH. split.
    + intros [[after E] | [before [after E]]].
      * now exists "", after.
      * exists (String c before), after. simpl. now rewrite E.
    + intros [[|b before] [after E]].
      * left. now exists after.
      * right. injection E as -> E. now exists before, after.
Qed.

Lemma str_in_false_iff (sub s : string) : str_in sub s = false <-> ~ occurs sub s.
Proof. rewrite <- str_in_occurs. now destruct (str_in sub s). Qed.

(** ** Reader selection *)

Section SelectReader.
Import ipfs_file.

Lemma select_reader_cases (file_type : string) :
  select_reader file_type =
    if str_in "pdf" file_type then inr the_pdf_reader
    else if str_in "csv" file_type then inr the_csv_reader
    else if str_in "json" file_type then inr the_json_reader
    else if str_in "text" file_type then inr the_txt_reader
    else inl (Exception ("Unsupported file type: " ++ file_type)).
Proof. reflexivity. Qed.

(** C2, counterexample.  The MIME string "text/csv" contains "text", yet the
    reader selected for it is the CSV reader, not the text reader. *)
Lemma select_reader_text_csv :
  occurs "text" "text/csv"
  /\ select_reader "text/csv" = inr the_csv_reader
  /\ select_reader "text/csv" <> inr the_txt_reader.
Proof.
  split; [now exists "", "/csv" | split; [reflexivity | discriminate]].
Qed.

(** C2, amended.  The tests are tried in the order pdf, csv, json, text and
    the first that succeeds decides: the PDF reader is returned exactly for
    the strings containing "pdf"; the CSV reader exactly for those
    containing "csv" but not "pdf"; the JSON reader exactly for those
    containing "json" but neither "pdf" nor "csv"; the text reader exactly
    for those containing "text" and none of the other three; every
    remaining string raises the unsupported-format error, which names it. *)
Theorem select_reader_first_match (file_type : string) :
  (select_reader file_type = inr the_pdf_reader <-> occurs "pdf" file_type)
  /\ (select_reader file_type = inr the_csv_reader
      <-> occurs "csv" file_type /\ ~ occurs "pdf" file_type)
  /\ (select_reader file_type = inr the_json_reader
      <-> occurs "json" file_type
          /\ ~ occurs "pdf" file_type /\ ~ occurs "csv" file_type)
  /\ (select_reader file_type = inr the_txt_reader
      <-> occurs "text" file_type
          /\ ~ occurs "pdf" file_type /\ ~ occurs "csv" file_type
          /\ ~ occurs "json" file_type)
  /\ (select_reader file_type
        = inl (Exception ("Unsupported file type: " ++ file_type))
      <-> ~ occurs "pdf" file_type /\ ~ occurs "csv" file_type
          /\ ~ occurs "json" file_type /\ ~ occurs "text" file_type)
  /\ (forall e, select_reader file_type = inl e
                -> e = Exception ("Unsupported file type: " ++ file_type)).
Proof.
  rewrite select_reader_cases.
  rewrite <- !str_in_false_iff, <- !str_in_occurs.
  destruct (str_in "pdf" file_type), (str_in "csv" file_type),
    (str_in "json" file_type), (str_in "text" file_type);
    repeat split; try congruence; try tauto; intuition congruence.
Qed.

End SelectReader.

(** ** Worlds and the monad *)

Lemma advance_advance (k1 k2 : nat) (e1 e2 : list event) (w : world) :
  advance k2 e2 (advance k1 e1 w) = advance (k1 + k2) (e1 ++ e2) w.
Proof.
  unfold advance; simpl. f_equal; [lia | now rewrite <- app_assoc].
Qed.

Lemma advance_0_nil (w : world) : advance 0 [] w = w.
Proof.
  destruct w as [srv c t]. unfold advance; simpl.
  f_equal; [lia | apply app_nil_r].
Qed.

Lemma server_advance (k : nat) (evs : list event) (w : world) :
  server (advance k evs w) = server w.
Proof. reflexivity. Qed.

Lemma clock_advance (k : nat) (evs : list event) (w : world) :
  clock (advance k evs w) = (clock w + k)%nat.
Proof. reflexivity. Qed.

Lemma trace_advance (k : nat) (evs : list event) (w : world) :
  trace (advance k evs w) = (trace w ++ evs)%list.
Proof. reflexivity. Qed.

Lemma bind_run {A B} (m : M A) (k : A -> M B) (w : world) :
  (m ≫= k) w =
    match m w with
    | (Val a, w') => k a w'
    | (Raise e, w') => (Raise e, w')
    | (OutOfFuel, w') => (OutOfFuel, w')
    end.
Proof. reflexivity. Qed.

Lemma for_range_S {A} (n : nat) (body : M (option A)) (w : world) :
  for_range (S n) body w =
    match body w with
    | (Val (Some a), w') => (Val (Some a), w')
    | (Val None, w') => for_range n body w'
    | (Raise e, w') => (Raise e, w')
    | (OutOfFuel, w') => (OutOfFuel, w')
    end.
Proof.
  simpl. rewrite bind_run. destruct (body w) as [[[a|]| |] w']; reflexivity.
Qed.

(** Rounds that fall through are skipped: if each of the first [k] rounds
    ends without a value and moves the world by [step], the loop goes on
    from the world reached after [k] steps. *)
Lemma for_range_fall_through {A} (body : M (option A)) (step : world -> world)
    (k n : nat) (w : world) :
  (forall j, (j < k)%nat ->
     body (Nat.iter j step w) = (Val None, step (Nat.iter j step w))) ->
  for_range (k + n) body w = for_range n body (Nat.iter k step w).
Proof.
  revert w. induction k as [|k IH]; intros w Hrounds; [reflexivity|].
  change (S k + n)%nat with (S (k + n)).
  pose proof (Hrounds 0%nat ltac:(lia)) as H0. simpl in H0.
  rewrite for_range_S, H0, IH.
  - f_equal. clear. induction k as [|k IHk]; [reflexivity|].
    simpl. now rewrite IHk.
  - intros j Hj. specialize (Hrounds (S j) ltac:(lia)).
    assert (Eiter : forall m, Nat.iter m step (step w) = Nat.iter (S m) step w).
    { clear. induction m as [|m IHm]; [reflexivity|]. simpl. now rewrite IHm. }
    now rewrite Eiter.
Qed.

Lemma iter_round (events : outcome -> list event) (rq : request)
    (k : nat) (w : world) :
  Nat.iter k (fun w' => advance 1 (events (server w' (clock w') rq)) w') w
  = rounds events rq k w.
Proof.
  unfold rounds. induction k as [|k IH].
  - simpl. now rewrite advance_0_nil.
  - rewrite Nat.iter_succ, IH, advance_advance, server_advance, clock_advance.
    rewrite seq_S, flat_map_app, Nat.add_1_r. simpl. now rewrite app_nil_r.
Qed.

(** ** One round of a retry loop *)

Lemma attempt_connection_failure {A} (rq : request) (delay : Z)
    (treat : Response -> M (option A)) (w : world) :
  connection_failure (server w (clock w) rq) -> 0 <= delay ->
  attempt rq delay treat w = (Val None, advance 1 [EPost rq; ESleep delay] w).
Proof.
  intros (e & Hsrv & Hconn) Hdelay.
  unfold attempt, try_except. rewrite bind_run. unfold requests_post.
  rewrite Hsrv, Hconn, bind_run. unfold time_sleep.
  destruct (Z.ltb_spec delay 0) as [?|_]; [lia|].
  unfold ret. now rewrite advance_advance.
Qed.

Lemma attempt_answer {A} (rq : request) (delay : Z)
    (treat : Response -> M (option A)) (w : world) (r : Response) :
  server w (clock w) rq = Answers r ->
  attempt rq delay treat w =
    match treat r (advance 1 [EPost rq] w) with
    | (Raise e, w') =>
        if is_ConnectionError e
        then (time_sleep delay ≫= fun _ => ret None) w'
        else (Raise e, w')
    | other => other
    end.
Proof.
  intros Hsrv. unfold attempt, try_except. rewrite bind_run.
  unfold requests_post. now rewrite Hsrv.
Qed.

Lemma attempt_other_failure {A} (rq : request) (delay : Z)
    (treat : Response -> M (option A)) (w : world) (e : exn) :
  server w (clock w) rq = Fails e -> is_ConnectionError e = false ->
  attempt rq delay treat w = (Raise e, advance 1 [EPost rq] w).
Proof.
  intros Hsrv Hconn. unfold attempt, try_except. rewrite bind_run.
  unfold requests_post. now rewrite Hsrv, Hconn.
Qed.

Lemma iter_advance (evs : list event) (k : nat) (w : world) :
  Nat.iter k (advance 1 evs) w = advance k (concat (repeat evs k)) w.
Proof.
  induction k as [|k IH].
  - simpl. now rewrite advance_0_nil.
  - rewrite Nat.iter_succ, IH, advance_advance, Nat.add_1_r. f_equal.
    clear. induction k as [|k IHk]; simpl in *; [now rewrite app_nil_r|].
    now rewrite <- app_assoc, IHk.
Qed.

(** [k] connection failures in a row use up [k] rounds of the loop, each
    with one post and one sleep. *)
Lemma for_range_connection_failures {A} (rq : request) (delay : Z)
    (treat : Response -> M (option A)) (k n : nat) (w : world) :
  (forall i, (clock w <= i < clock w + k)%nat ->
             connection_failure (server w i rq)) ->
  0 <= delay ->
  for_range (k + n) (attempt rq delay treat) w
  = for_range n (attempt rq delay treat)
      (advance k (failed_rounds rq delay k) w).
Proof.
  intros Hfail Hdelay. unfold failed_rounds.
  rewrite <- iter_advance.
  apply for_range_fall_through.
  intros j Hj. rewrite iter_advance.
  apply attempt_connection_failure; [|assumption].
  rewrite server_advance, clock_advance. apply Hfail. lia.
Qed.

(** ** The retry loops of the operations *)

Ltac fold_attempt :=
  match goal with
  | |- context [try_except (requests_post ?rq ≫= ?treat) is_ConnectionError
                  (fun _ => time_sleep ?delay ≫= _)] =>
      change (try_except (requests_post rq ≫= treat) is_ConnectionError
                (fun _ => time_sleep delay ≫= fun _ => ret None))
        with (attempt rq delay treat)
  end.

(** When every round ends in a connection failure the loop runs dry after
    [n] posts and [n] sleeps, and the code after the loop takes over. *)
Lemma retry_exhausted {A B} (rq : request) (delay : Z)
    (treat : Response -> M (option A)) (finish : option A -> M B)
    (n : nat) (w : world) :
  (forall i, (clock w <= i < clock w + n)%nat ->
             connection_failure (server w i rq)) ->
  0 <= delay ->
  (for_range n (attempt rq delay treat) ≫= finish) w
  = finish None (advance n (failed_rounds rq delay n) w).
Proof.
  intros Hfail Hdelay. rewrite bind_run.
  rewrite <- (Nat.add_0_r n) at 1.
  now rewrite for_range_connection_failures.
Qed.

Lemma retry_answered {A B} (rq : request) (delay : Z)
    (treat : Response -> M (option A)) (finish : option A -> M B)
    (k n : nat) (w : world) (r : Response) :
  (forall i, (clock w <= i < clock w + k)%nat ->
             connection_failure (server w i rq)) ->
  server w (clock w + k)%nat rq = Answers r ->
  0 <= delay -> (k < n)%nat ->
  (for_range n (attempt rq delay treat) ≫= finish) w
  = match treat r (answered_world rq delay k w) with
    | (Val (Some a), w') => finish (Some a) w'
    | (Val None, w') =>
        (for_range (n - S k) (attempt rq delay treat) ≫= finish) w'
    | (Raise e, w') =>
        if is_ConnectionError e
        then match (time_sleep delay ≫= fun _ => ret (@None A)) w' with
             | (Val _, w'') =>
                 (for_range (n - S k) (attempt rq delay treat) ≫= finish) w''
             | (Raise e', w'') => (Raise e', w'')
             | (OutOfFuel, w'') => (OutOfFuel, w'')
             end
        else (Raise e, w')
    | (OutOfFuel, w') => (OutOfFuel, w')
    end.
Proof.
  intros Hfail Hans Hdelay Hk.
  replace n with (k + S (n - S k))%nat at 1 by lia.
  rewrite bind_run, for_range_connection_failures by assumption.
  rewrite for_range_S, (attempt_answer _ _ _ _ r)
    by (now rewrite server_advance, clock_advance).
  unfold answered_world. rewrite advance_advance.
  destruct (treat r _) as [[[a|]|e|] w']; try reflexivity.
  destruct (is_ConnectionError e); [|reflexivity].
  rewrite (bind_run (time_sleep delay)).
  destruct (time_sleep delay w') as [[[]|e'|] w'']; reflexivity.
Qed.

Lemma count_posts_app (evs1 evs2 : list event) :
  count_posts (evs1 ++ evs2) = (count_posts evs1 + count_posts evs2)%nat.
Proof. unfold count_posts. now rewrite List.filter_app, List.length_app. Qed.

Lemma count_posts_failed_rounds (rq : request) (delay : Z) (k : nat) :
  count_posts (failed_rounds rq delay k) = k.
Proof.
  unfold failed_rounds. induction k as [|k IH]; [reflexivity|].
  change (count_posts ([EPost rq; ESleep delay]
                       ++ concat (repeat [EPost rq; ESleep delay] k)) = S k).
  rewrite count_posts_app, IH. reflexivity.
Qed.

Section RetryLoops.
Context `{Libs}.

(** C6.  When every HTTP attempt fails at connection level, each fetch
    operation makes exactly [max_retries] posts, each followed by a sleep of
    [retry_delay], and only then raises its terminal error.  For the two
    operations that fetch a hash, the DAG fetch and the file fetch, the
    message of that error names the operation and ends in the hash asked
    for; the daemon checks, which have no target hash, report the daemon. *)
Theorem terminal_error_after_max_retries
    (dir : ipfs_directory.IPFSDirectoryDataLoader)
    (file : ipfs_file.IPFSFileDataLoader) (utils : ipfs.IPFSFAISSUtils)
    (ipfs_hash : string) (w : world) :
  (forall i rq, connection_failure (server w i rq)) ->
  0 <= ipfs_directory.retry_delay dir ->
  0 <= ipfs_file.retry_delay file ->
  0 <= ipfs.retry_delay utils ->
  let n_dir := Z.to_nat (ipfs_directory.max_retries dir) in
  let n_file := Z.to_nat (ipfs_file.max_retries file) in
  let n_utils := Z.to_nat (ipfs.max_retries utils) in
  let exhausted rq delay n := advance n (failed_rounds rq delay n) w in
  ipfs_directory.get_dag_get dir ipfs_hash w
  = (Raise (Exception ("Could not get DAG for " ++ ipfs_hash)),
     exhausted (dag_request dir ipfs_hash) (ipfs_directory.retry_delay dir) n_dir)
  /\ ipfs_file.load file ipfs_hash w
     = (Raise (Exception ("Failed to connect to IPFS daemon for hash " ++ ipfs_hash)),
        exhausted (cat_request file ipfs_hash) (ipfs_file.retry_delay file) n_file)
  /\ ipfs_directory.check_daemon_running dir w
     = (Raise (Exception "IPFS daemon not running or not accessible"),
        exhausted (directory_version_request dir)
          (ipfs_directory.retry_delay dir) n_dir)
  /\ ipfs_file.check_daemon_running file w
     = (Raise (Exception "IPFS daemon not running or not accessible"),
        exhausted (file_version_request file) (ipfs_file.retry_delay file) n_file)
  /\ ipfs.check_daemon_running utils w
     = (Raise (Exception "IPFS daemon not running or not accessible"),
        exhausted (utils_version_request utils) (ipfs.retry_delay utils) n_utils)
  /\ (forall rq delay n, count_posts (failed_rounds rq delay n) = n).
Proof.
  intros Hfail Hdir Hfile Hutils n_dir n_file n_utils exhausted.
  repeat split.
  - unfold ipfs_directory.get_dag_get. fold_attempt.
    now rewrite retry_exhausted by auto.
  - unfold ipfs_file.load. fold_attempt.
    now rewrite retry_exhausted by auto.
  - unfold ipfs_directory.check_daemon_running. fold_attempt.
    now rewrite retry_exhausted by auto.
  - unfold ipfs_file.check_daemon_running. fold_attempt.
    now rewrite retry_exhausted by auto.
  - unfold ipfs.check_daemon_running. fold_attempt.
    now rewrite retry_exhausted by auto.
  - apply count_posts_failed_rounds.
Qed.

End RetryLoops.

Lemma terminal_error_after_max_retries_witness :
  (forall i rq, connection_failure (server (fresh unreachable) i rq))
  /\ ipfs_directory.get_dag_get local_directory_loader "QmRoot" (fresh unreachable)
     = (Raise (Exception "Could not get DAG for QmRoot"),
        advance 5 (failed_rounds (dag_request local_directory_loader "QmRoot") 1 5)
          (fresh unreachable))
  /\ @ipfs_file.load example_libs local_file_loader "QmRoot" (fresh unreachable)
     = (Raise (Exception "Failed to connect to IPFS daemon for hash QmRoot"),
        advance 5 (failed_rounds (cat_request local_file_loader "QmRoot") 1 5)
          (fresh unreachable)).
Proof.
  assert (Hfail : forall i rq, connection_failure (server (fresh unreachable) i rq)).
  { intros i rq. eexists. split; reflexivity. }
  split; [exact Hfail|].
  destruct (@terminal_error_after_max_retries example_libs
              local_directory_loader local_file_loader local_utils "QmRoot"
              (fresh unreachable) Hfail) as (Hdag & Hload & _);
    [simpl; lia | simpl; lia | simpl; lia |].
  split; [exact Hdag | exact Hload].
Defined.

(** ** Non-success answers *)

Section NonSuccess.
Context `{Libs}.

Lemma get_dag_get_fails_fast (self : ipfs_directory.IPFSDirectoryDataLoader)
    (ipfs_hash : string) (w : world) (k : nat) (r : Response) :
  fails_then_answers w (dag_request self ipfs_hash) k r ->
  (k < Z.to_nat (ipfs_directory.max_retries self))%nat ->
  0 <= ipfs_directory.retry_delay self ->
  status_code r <> 200 ->
  ipfs_directory.get_dag_get self ipfs_hash w
  = (Raise (Exception ("Failed to get DAG for " ++ ipfs_hash
                         ++ " with status code " ++ str_of_Z (status_code r))),
     answered_world (dag_request self ipfs_hash)
       (ipfs_directory.retry_delay self) k w).
Proof.
  intros [Hfail Hans] Hk Hdelay Hstatus.
  unfold ipfs_directory.get_dag_get. fold_attempt.
  rewrite (retry_answered _ _ _ _ k _ w r) by assumption.
  destruct (Z.eqb_spec (status_code r) 200); [contradiction | reflexivity].
Qed.

Lemma directory_check_fails_fast (self : ipfs_directory.IPFSDirectoryDataLoader)
    (w : world) (k : nat) (r : Response) :
  fails_then_answers w (directory_version_request self) k r ->
  (k < Z.to_nat (ipfs_directory.max_retries self))%nat ->
  0 <= ipfs_directory.retry_delay self ->
  status_code r <> 200 ->
  ipfs_directory.check_daemon_running self w
  = (Raise (Exception "IPFS daemon not running or not accessible"),
     answered_world (directory_version_request self)
       (ipfs_directory.retry_delay self) k w).
Proof.
  intros [Hfail Hans] Hk Hdelay Hstatus.
  unfold ipfs_directory.check_daemon_running. fold_attempt.
  rewrite (retry_answered _ _ _ _ k _ w r) by assumption.
  destruct (Z.eqb_spec (status_code r) 200); [contradiction | reflexivity].
Qed.

Lemma file_check_fails_fast (self : ipfs_file.IPFSFileDataLoader)
    (w : world) (k : nat) (r : Response) :
  fails_then_answers w (file_version_request self) k r ->
  (k < Z.to_nat (ipfs_file.max_retries self))%nat ->
  0 <= ipfs_file.retry_delay self ->
  ok r = false ->
  ipfs_file.check_daemon_running self w
  = (Raise (Exception "IPFS daemon not running or not accessible"),
     answered_world (file_version_request self) (ipfs_file.retry_delay self) k w).
Proof.
  intros [Hfail Hans] Hk Hdelay Hstatus.
  unfold ipfs_file.check_daemon_running. fold_attempt.
  rewrite (retry_answered _ _ _ _ k _ w r) by assumption.
  now rewrite Hstatus.
Qed.

Lemma utils_check_fails_fast (self : ipfs.IPFSFAISSUtils)
    (w : world) (k : nat) (r : Response) :
  fails_then_answers w (utils_version_request self) k r ->
  (k < Z.to_nat (ipfs.max_retries self))%nat ->
  0 <= ipfs.retry_delay self ->
  ok r = false ->
  ipfs.check_daemon_running self w
  = (Raise (Exception "IPFS daemon not running or not accessible"),
     answered_world (utils_version_request self) (ipfs.retry_delay self) k w).
Proof.
  intros [Hfail Hans] Hk Hdelay Hstatus.
  unfold ipfs.check_daemon_running. fold_attempt.
  rewrite (retry_answered _ _ _ _ k _ w r) by assumption.
  now rewrite Hstatus.
Qed.

(** The file fetch goes on to its next round after an error status. *)
Lemma file_load_unsuccessful_rounds (self : ipfs_file.IPFSFileDataLoader)
    (ipfs_hash : string) (w : world) :
  (forall i, unsuccessful (server w i (cat_request self ipfs_hash))) ->
  0 <= ipfs_file.retry_delay self ->
  ipfs_file.load self ipfs_hash w
  = (Raise (Exception ("Failed to connect to IPFS daemon for hash " ++ ipfs_hash)),
     rounds (load_round_events self ipfs_hash) (cat_request self ipfs_hash)
       (Z.to_nat (ipfs_file.max_retries self)) w).
Proof.
  intros Hbad Hdelay.
  unfold ipfs_file.load. fold_attempt. rewrite bind_run.
  fold (cat_request self ipfs_hash).
  rewrite <- (Nat.add_0_r (Z.to_nat _)) at 1.
  rewrite (for_range_fall_through _
             (fun w' => advance 1
                (load_round_events self ipfs_hash
                   (server w' (clock w') (cat_request self ipfs_hash))) w')).
  - now rewrite iter_round.
  - intros j _. rewrite iter_round.
    set (wj := rounds _ _ j w).
    assert (Hsrv : server wj = server w) by reflexivity.
    specialize (Hbad (clock wj)). rewrite <- Hsrv in Hbad.
    destruct Hbad as [Hconn | (r & Hans & Hok)].
    + rewrite attempt_connection_failure by assumption.
      destruct Hconn as (e & -> & _). reflexivity.
    + rewrite (attempt_answer _ _ _ _ r), Hok, Hans by assumption.
      rewrite bind_run. unfold logger_log. now rewrite advance_advance.
Qed.

End NonSuccess.

(** C1, counterexample.  Facing a daemon that answers status 500, the file
    fetch does not raise on its first post: it posts [max_retries] = 5 times,
    logging after each answer and never sleeping, and only then raises. *)
Lemma file_load_retries_after_status_500 :
  let w := fresh failing_daemon in
  let rq := cat_request local_file_loader "QmFile" in
  (exists r, server w (clock w) rq = Answers r /\ status_code r = 500 /\ ok r = false)
  /\ @ipfs_file.load example_libs local_file_loader "QmFile" w
     = (Raise (Exception "Failed to connect to IPFS daemon for hash QmFile"),
        advance 5
          (concat (repeat [EPost rq;
                           ELog "ERROR" "Failed to load file from IPFS with hash QmFile"]
                     5)) w)
  /\ ~ raises_at_once (@ipfs_file.load example_libs local_file_loader "QmFile") w.
Proof.
  intros w rq.
  assert (Hrun : @ipfs_file.load example_libs local_file_loader "QmFile" w
     = (Raise (Exception "Failed to connect to IPFS daemon for hash QmFile"),
        advance 5
          (concat (repeat [EPost rq;
                           ELog "ERROR" "Failed to load file from IPFS with hash QmFile"]
                     5)) w)) by (vm_compute; reflexivity).
  split; [|split; [exact Hrun|]].
  - eexists. repeat split.
  - intros (e & w' & Hraise & Hclock). rewrite Hrun in Hraise.
    injection Hraise as _ <-. discriminate Hclock.
Qed.

(** C1, amended.  An answer with a non-success status, possibly after [k]
    connection failures, makes the DAG fetch and the three daemon checks raise
    at once: no sleep and no further post follows the answered one.  The file
    fetch instead logs the failure and goes on to its next round without
    sleeping, raising its terminal error once [max_retries] rounds are used
    up.  In all of them a sleep of [retry_delay] follows a connection failure
    and nothing else. *)
Theorem non_success_status_policy `{Libs} :
  (forall self ipfs_hash w k r,
     fails_then_answers w (dag_request self ipfs_hash) k r ->
     (k < Z.to_nat (ipfs_directory.max_retries self))%nat ->
     0 <= ipfs_directory.retry_delay self ->
     status_code r <> 200 ->
     ipfs_directory.get_dag_get self ipfs_hash w
     = (Raise (Exception ("Failed to get DAG for " ++ ipfs_hash
                            ++ " with status code " ++ str_of_Z (status_code r))),
        answered_world (dag_request self ipfs_hash)
          (ipfs_directory.retry_delay self) k w))
  /\ (forall self w k r,
        fails_then_answers w (directory_version_request self) k r ->
        (k < Z.to_nat (ipfs_directory.max_retries self))%nat ->
        0 <= ipfs_directory.retry_delay self ->
        status_code r <> 200 ->
        ipfs_directory.check_daemon_running self w
        = (Raise (Exception "IPFS daemon not running or not accessible"),
           answered_world (directory_version_request self)
             (ipfs_directory.retry_delay self) k w))
  /\ (forall self w k r,
        fails_then_answers w (file_version_request self) k r ->
        (k < Z.to_nat (ipfs_file.max_retries self))%nat ->
        0 <= ipfs_file.retry_delay self ->
        ok r = false ->
        ipfs_file.check_daemon_running self w
        = (Raise (Exception "IPFS daemon not running or not accessible"),
           answered_world (file_version_request self)
             (ipfs_file.retry_delay self) k w))
  /\ (forall self w k r,
        fails_then_answers w (utils_version_request self) k r ->
        (k < Z.to_nat (ipfs.max_retries self))%nat ->
        0 <= ipfs.retry_delay self ->
        ok r = false ->
        ipfs.check_daemon_running self w
        = (Raise (Exception "IPFS daemon not running or not accessible"),
           answered_world (utils_version_request self) (ipfs.retry_delay self) k w))
  /\ (forall self ipfs_hash w,
        (forall i, unsuccessful (server w i (cat_request self ipfs_hash))) ->
        0 <= ipfs_file.retry_delay self ->
        ipfs_file.load self ipfs_hash w
        = (Raise (Exception ("Failed to connect to IPFS daemon for hash "
                               ++ ipfs_hash)),
           rounds (load_round_events self ipfs_hash) (cat_request self ipfs_hash)
             (Z.to_nat (ipfs_file.max_retries self)) w)).
Proof.
  split; [exact get_dag_get_fails_fast|].
  split; [exact directory_check_fails_fast|].
  split; [exact file_check_fails_fast|].
  split; [exact utils_check_fails_fast|].
  exact file_load_unsuccessful_rounds.
Qed.

Lemma non_success_status_policy_witness :
  let w := fresh refused_twice_then_500 in
  ipfs_directory.get_dag_get local_directory_loader "QmRoot" w
  = (Raise (Exception "Failed to get DAG for QmRoot with status code 500"),
     answered_world (dag_request local_directory_loader "QmRoot") 1 2 w)
  /\ ipfs_directory.check_daemon_running local_directory_loader w
     = (Raise (Exception "IPFS daemon not running or not accessible"),
        answered_world (directory_version_request local_directory_loader) 1 2 w)
  /\ ipfs_file.check_daemon_running local_file_loader w
     = (Raise (Exception "IPFS daemon not running or not accessible"),
        answered_world (file_version_request local_file_loader) 1 2 w)
  /\ ipfs.check_daemon_running local_utils w
     = (Raise (Exception "IPFS daemon not running or not accessible"),
        answered_world (utils_version_request local_utils) 1 2 w)
  /\ @ipfs_file.load example_libs local_file_loader "QmFile" w
     = (Raise (Exception "Failed to connect to IPFS daemon for hash QmFile"),
        rounds (load_round_events local_file_loader "QmFile")
          (cat_request local_file_loader "QmFile") 5 w).
Proof.
  intros w.
  destruct (@non_success_status_policy example_libs) as (Hdag & Hdir & Hfile & Hutils & Hload).
  assert (Hworld : forall rq,
            fails_then_answers w rq 2
              {| status_code := 500; content := []; json_body := None |}).
  { intros rq. split; [|reflexivity].
    intros i Hi. simpl in Hi.
    destruct i as [|[|i]]; [eexists; split; reflexivity .. | lia]. }
  split; [|split; [|split; [|split]]].
  - apply (Hdag local_directory_loader "QmRoot" w 2%nat _ (Hworld _));
      [simpl; lia | simpl; lia | simpl; lia].
  - apply (Hdir local_directory_loader w 2%nat _ (Hworld _));
      [simpl; lia | simpl; lia | simpl; lia].
  - apply (Hfile local_file_loader w 2%nat _ (Hworld _));
      [simpl; lia | simpl; lia | reflexivity].
  - apply (Hutils local_utils w 2%nat _ (Hworld _));
      [simpl; lia | simpl; lia | reflexivity].
  - apply (Hload local_file_loader "QmFile" w); [|simpl; lia].
    intros i. destruct i as [|[|i]].
    + left. eexists. split; reflexivity.
    + left. eexists. split; reflexivity.
    + right. eexists. split; reflexivity.
Defined.

(** ** Construction *)

Lemma truthy_false_iff (credential : option string) :
  truthy credential = false <-> missing credential.
Proof.
  unfold missing. destruct credential as [[|c s]|]; simpl; split;
    (reflexivity || discriminate || tauto || intuition congruence).
Qed.

Lemma credentials_check (key secret : option string) :
  missing key \/ missing secret ->
  negb (truthy key) || negb (truthy secret) = true.
Proof.
  rewrite <- !truthy_false_iff. intros [-> | ->]; [reflexivity|].
  now rewrite orb_true_r.
Qed.

(** C9.  In hosted mode, construction of each of the three components with
    the API key or the API secret missing raises the configuration error and
    leaves the world as it was: nothing has been posted.  In local mode no
    credential is looked at: whatever is passed for them, absent ones
    included, construction succeeds as soon as the daemon answers the version
    request. *)
Theorem construction_requires_credentials_when_hosted
    (key secret : option string) (debug : bool) (w : world) :
  (missing key \/ missing secret ->
     ipfs_directory.__init__ true key secret debug w = (Raise config_error, w)
     /\ ipfs_file.__init__ true key secret debug w = (Raise config_error, w)
     /\ ipfs.__init__ true key secret debug w = (Raise config_error, w))
  /\ (forall r,
        server w (clock w)
          {| url := "http://127.0.0.1:5001/api/v0/version"; auth := None |}
        = Answers r ->
        status_code r = 200 ->
        let dir := new_directory_loader false key secret debug in
        let file := new_file_loader false key secret debug in
        let utils := new_utils false key secret debug in
        ipfs_directory.__init__ false key secret debug w
        = (Val dir, advance 1 (check_events (directory_version_request dir) debug) w)
        /\ ipfs_file.__init__ false key secret debug w
           = (Val file, advance 1 (check_events (file_version_request file) debug) w)
        /\ ipfs.__init__ false key secret debug w
           = (Val utils, advance 1 (check_events (utils_version_request utils) debug) w)).
Proof.
  split.
  - intros Hmissing. apply credentials_check in Hmissing.
    unfold ipfs_directory.__init__, ipfs_file.__init__, ipfs.__init__.
    rewrite !andb_true_l, Hmissing. repeat split.
  - intros r Hans Hstatus dir file utils.
    assert (Hok : ok r = true) by (unfold ok; rewrite Hstatus; reflexivity).
    unfold ipfs_directory.__init__, ipfs_file.__init__, ipfs.__init__.
    rewrite !andb_false_l. cbv zeta. fold dir file utils.
    split; [|split]; rewrite bind_run.
    1: unfold ipfs_directory.check_daemon_running.
    2: unfold ipfs_file.check_daemon_running.
    3: unfold ipfs.check_daemon_running.
    all: fold_attempt.
    + rewrite (retry_answered _ _ _ _ 0 _ w r);
        [| intros i Hi; lia | rewrite Nat.add_0_r; exact Hans
         | simpl; lia | simpl; lia].
      rewrite Hstatus, Z.eqb_refl, bind_run.
      unfold answered_world, check_events, directory_version_request.
      destruct debug; simpl; unfold logger_log, ret;
        rewrite ?advance_advance; reflexivity.
    + rewrite (retry_answered _ _ _ _ 0 _ w r);
        [| intros i Hi; lia | rewrite Nat.add_0_r; exact Hans
         | simpl; lia | simpl; lia].
      rewrite Hok. rewrite bind_run.
      unfold answered_world, check_events, file_version_request.
      destruct debug; simpl; unfold logger_log, ret;
        rewrite ?advance_advance; reflexivity.
    + rewrite (retry_answered _ _ _ _ 0 _ w r);
        [| intros i Hi; lia | rewrite Nat.add_0_r; exact Hans
         | simpl; lia | simpl; lia].
      rewrite Hok. rewrite bind_run.
      unfold answered_world, check_events, utils_version_request.
      destruct debug; simpl; unfold logger_log, ret;
        rewrite ?advance_advance; reflexivity.
Qed.

Lemma construction_requires_credentials_when_hosted_witness :
  let w := fresh healthy_daemon in
  (missing None \/ missing (Some "secret"))
  /\ ipfs_directory.__init__ true None (Some "secret") false w = (Raise config_error, w)
  /\ ipfs_file.__init__ true None (Some "secret") false w = (Raise config_error, w)
  /\ ipfs.__init__ true None (Some "secret") false w
     = (Raise config_error, w)
  /\ ipfs_directory.__init__ false None (Some "secret") false w
     = (Val (new_directory_loader false None (Some "secret") false),
        advance 1
          [EPost {| url := "http://127.0.0.1:5001/api/v0/version"; auth := None |}] w).
Proof.
  intros w.
  destruct (construction_requires_credentials_when_hosted
              None (Some "secret") false w) as [Hhosted Hlocal].
  assert (Hmissing : missing None \/ missing (Some "secret"))
    by (left; left; reflexivity).
  destruct (Hhosted Hmissing) as (Hdir & Hfile & Hutils).
  destruct (Hlocal _ eq_refl eq_refl) as (Hdir' & _).
  repeat (split; [assumption|]). exact Hdir'.
Defined.

(** ** Vector store restore *)

Section Restore.
Context `{Libs}.

(** C7.  When the DAG root of the content hash resolves to a number of links
    other than two, the restore raises [AssertionError] right after the one
    post that fetched the root: the two downloads are never posted and no
    index or docstore is deserialized, so no vector store is returned. *)
Theorem restore_asserts_two_links (self : ipfs.IPFSFAISSUtils) (cid : string)
    (w : world) (links : list link) :
  resolves_to w (dag_root_request self cid) links ->
  length links <> 2%nat ->
  ipfs.get_vectorstore_from_ipfs self cid w
  = (Raise AssertionError, advance 1 [EPost (dag_root_request self cid)] w).
Proof.
  intros (r & data & Hans & Hjson & Hlinks) Hlen.
  unfold ipfs.get_vectorstore_from_ipfs. cbv zeta.
  fold (dag_root_request self cid).
  rewrite bind_run. unfold requests_post. rewrite Hans.
  rewrite bind_run. unfold response_json. rewrite Hjson.
  unfold ret at 1. rewrite bind_run, Hlinks. simpl lift. unfold ret at 1.
  rewrite bind_run.
  destruct (Nat.eqb_spec (length links) 2); [contradiction | reflexivity].
Qed.

End Restore.

Lemma restore_asserts_two_links_witness :
  let links := [ {| Hash := Some (Some "QmIndex"); Name := Some "tmp1.index" |} ] in
  let w := fresh (dag_daemon links) in
  length links <> 2%nat
  /\ @ipfs.get_vectorstore_from_ipfs example_libs local_utils "QmStore" w
     = (Raise AssertionError,
        advance 1 [EPost (dag_root_request local_utils "QmStore")] w).
Proof.
  intros links w.
  assert (Hlen : length links <> 2%nat) by (simpl; lia).
  split; [exact Hlen|].
  apply (@restore_asserts_two_links example_libs local_utils "QmStore" w links);
    [|exact Hlen].
  eexists _, _. repeat split.
Defined.

(** *** The loop that binds [index_hash] and [docstore_hash] *)

Section RestoreLinks.
Context `{Libs}.

Lemma bind_link_hashes_well_formed (l : link) (vars : ipfs.hashes)
    (name cid : string) :
  Name l = Some name -> Hash l = Some (Some cid) ->
  ipfs.bind_link_hashes l vars
  = inr {| ipfs.index_hash :=
             if str_in "index" name then Some cid else ipfs.index_hash vars;
           ipfs.docstore_hash :=
             if str_in "docstore" name then Some cid else ipfs.docstore_hash vars |}.
Proof.
  intros Hname Hhash. unfold ipfs.bind_link_hashes. rewrite Hname, Hhash.
  destruct vars as [i d]. simpl.
  destruct (str_in "index" name), (str_in "docstore" name); reflexivity.
Qed.

Lemma bind_link_hashes_inr (l : link) (vars vars' : ipfs.hashes) :
  ipfs.bind_link_hashes l vars = inr vars' ->
  exists name,
    Name l = Some name
    /\ (ipfs.index_hash vars' = ipfs.index_hash vars \/ occurs "index" name)
    /\ (ipfs.docstore_hash vars' = ipfs.docstore_hash vars \/ occurs "docstore" name).
Proof.
  unfold ipfs.bind_link_hashes. destruct l as [hash [name|]]; [|discriminate].
  intros Hrun. exists name. split; [reflexivity|].
  rewrite <- !str_in_occurs. simpl in Hrun.
  destruct (str_in "index" name), (str_in "docstore" name),
    hash as [[cid|]|]; simpl in Hrun; try discriminate;
    injection Hrun as <-; simpl; auto.
Qed.

Lemma some_name_contains_cons (sub : string) (l : link) (links : list link) :
  some_name_contains sub (l :: links)
  <-> (exists name, Name l = Some name /\ occurs sub name)
      \/ some_name_contains sub links.
Proof.
  unfold some_name_contains. split.
  - intros (l' & name & [<- | Hin] & Hname & Hocc); eauto 6.
  - intros [(name & Hname & Hocc) | (l' & name & Hin & Hname & Hocc)].
    + exists l, name. simpl. auto.
    + exists l', name. simpl. auto.
Qed.

(** The loop does not touch the world; a variable bound after it was bound
    before it or some link name contains the word that binds it. *)
Lemma link_loop_sound (links : list link) (vars0 : ipfs.hashes) (w : world) :
  exists res,
    for_each links (fun link vars => lift (ipfs.bind_link_hashes link vars)) vars0 w
    = (res, w)
    /\ forall vars, res = Val vars ->
         (ipfs.index_hash vars = ipfs.index_hash vars0
          \/ some_name_contains "index" links)
         /\ (ipfs.docstore_hash vars = ipfs.docstore_hash vars0
             \/ some_name_contains "docstore" links).
Proof.
  revert vars0. induction links as [|l links IH]; intros vars0.
  - exists (Val vars0). split; [reflexivity|].
    intros vars [= <-]. auto.
  - simpl for_each. rewrite bind_run.
    destruct (ipfs.bind_link_hashes l vars0) as [e|vars1] eqn:Hstep.
    + exists (Raise e). split; [reflexivity | discriminate].
    + apply bind_link_hashes_inr in Hstep as (name & Hname & Hi & Hd).
      destruct (IH vars1) as (res & Hrun & Hres).
      exists res. split; [exact Hrun|].
      intros vars Hvars. destruct (Hres vars Hvars) as [Hi' Hd'].
      rewrite !some_name_contains_cons. split.
      * destruct Hi' as [-> | ?]; [destruct Hi as [-> | ?]|]; eauto.
      * destruct Hd' as [-> | ?]; [destruct Hd as [-> | ?]|]; eauto.
Qed.

(** On well-formed links the loop ends normally, and each variable is bound
    exactly when it was bound before or some name contains its word. *)
Lemma link_loop_complete (links : list link) (vars0 : ipfs.hashes) (w : world) :
  Forall well_formed links ->
  exists vars,
    for_each links (fun link vars => lift (ipfs.bind_link_hashes link vars)) vars0 w
    = (Val vars, w)
    /\ (~ some_name_contains "index" links ->
        ipfs.index_hash vars = ipfs.index_hash vars0)
    /\ (~ some_name_contains "docstore" links ->
        ipfs.docstore_hash vars = ipfs.docstore_hash vars0)
    /\ (ipfs.index_hash vars0 <> None \/ some_name_contains "index" links ->
        ipfs.index_hash vars <> None)
    /\ (ipfs.docstore_hash vars0 <> None \/ some_name_contains "docstore" links ->
        ipfs.docstore_hash vars <> None).
Proof.
  intros Hwf. revert vars0.
  induction Hwf as [|l links (name & cid & Hname & Hhash) _ IH]; intros vars0.
  - exists vars0. split; [reflexivity|].
    repeat split; auto; intros [? | (l & n & [] & _)]; assumption.
  - simpl for_each.
    rewrite bind_run, (bind_link_hashes_well_formed _ _ name cid) by assumption.
    simpl lift. unfold ret at 1.
    destruct (IH {| ipfs.index_hash :=
                      if str_in "index" name then Some cid
                      else ipfs.index_hash vars0;
                    ipfs.docstore_hash :=
                      if str_in "docstore" name then Some cid
                      else ipfs.docstore_hash vars0 |})
      as (vars & Hrun & Hi & Hd & Hi' & Hd').
    exists vars. split; [exact Hrun|]. simpl in *.
    rewrite !some_name_contains_cons.
    assert (Hhere : forall sub, (exists n, Name l = Some n /\ occurs sub n)
                                <-> str_in sub name = true).
    { intros sub. rewrite str_in_occurs. split.
      - intros (n & Hn & Hocc). congruence.
      - intros Hocc. eauto. }
    rewrite !Hhere.
    destruct (str_in "index" name), (str_in "docstore" name);
      repeat split; intros; intuition (auto; congruence).
Qed.

End RestoreLinks.

Section RestoreNames.
Context `{Libs}.

(** The restore up to the point where the two hashes are read. *)
Lemma restore_after_root (self : ipfs.IPFSFAISSUtils) (cid : string) (w : world)
    (links : list link) :
  resolves_to w (dag_root_request self cid) links ->
  length links = 2%nat ->
  exists res,
    for_each links (fun link vars => lift (ipfs.bind_link_hashes link vars))
      {| ipfs.index_hash := None; ipfs.docstore_hash := None |}
      (advance 1 [EPost (dag_root_request self cid)] w)
    = (res, advance 1 [EPost (dag_root_request self cid)] w)
    /\ ipfs.get_vectorstore_from_ipfs self cid w
       = match res with
         | Val vars =>
             match ipfs.index_hash vars, ipfs.docstore_hash vars with
             | None, _ =>
                 (Raise (UnboundLocalError "index_hash"),
                  advance 1 [EPost (dag_root_request self cid)] w)
             | Some _, None =>
                 (Raise (UnboundLocalError "docstore_hash"),
                  advance 1 [EPost (dag_root_request self cid)] w)
             | Some index_hash, Some docstore_hash =>
                 ipfs.get_vectorstore_from_ipfs self cid w
             end
         | Raise e => (Raise e, advance 1 [EPost (dag_root_request self cid)] w)
         | OutOfFuel => (OutOfFuel, advance 1 [EPost (dag_root_request self cid)] w)
         end.
Proof.
  intros (r & data & Hans & Hjson & Hlinks) Hlen.
  destruct (link_loop_sound links
              {| ipfs.index_hash := None; ipfs.docstore_hash := None |}
              (advance 1 [EPost (dag_root_request self cid)] w))
    as (res & Hloop & _).
  exists res. split; [exact Hloop|].
  destruct res as [vars| |]; [destruct vars as [[i|] [d|]]; [reflexivity|..]|..];
    simpl ipfs.index_hash; simpl ipfs.docstore_hash; cbv iota;
    unfold ipfs.get_vectorstore_from_ipfs; cbv zeta;
    fold (dag_root_request self cid);
    rewrite bind_run; unfold requests_post; rewrite Hans;
    rewrite bind_run; unfold response_json; rewrite Hjson;
    unfold ret at 1; rewrite bind_run, Hlinks; simpl lift; unfold ret at 1;
    rewrite bind_run, Hlen, Nat.eqb_refl; unfold ret at 1;
    rewrite bind_run, Hloop; reflexivity.
Qed.

(** C10.  Let the DAG root resolve to exactly two links, each with a name
    and a hash.  If neither name contains "index", the restore raises
    [UnboundLocalError] for [index_hash]; if one does but neither contains
    "docstore", it raises [UnboundLocalError] for [docstore_hash]; either way
    at the first use of the variable, before anything is downloaded.
    Conversely the restore returns a vector store only if the root has two
    links, one whose name contains "index" and one whose name contains
    "docstore". *)
Theorem restore_needs_index_and_docstore (self : ipfs.IPFSFAISSUtils)
    (cid : string) (w : world) :
  (forall links,
     resolves_to w (dag_root_request self cid) links ->
     length links = 2%nat ->
     Forall well_formed links ->
     (~ some_name_contains "index" links ->
      ipfs.get_vectorstore_from_ipfs self cid w
      = (Raise (UnboundLocalError "index_hash"),
         advance 1 [EPost (dag_root_request self cid)] w))
     /\ (some_name_contains "index" links ->
         ~ some_name_contains "docstore" links ->
         ipfs.get_vectorstore_from_ipfs self cid w
         = (Raise (UnboundLocalError "docstore_hash"),
            advance 1 [EPost (dag_root_request self cid)] w)))
  /\ (forall vectorstore w',
        ipfs.get_vectorstore_from_ipfs self cid w = (Val vectorstore, w') ->
        exists links,
          resolves_to w (dag_root_request self cid) links
          /\ length links = 2%nat
          /\ some_name_contains "index" links
          /\ some_name_contains "docstore" links).
Proof.
  split.
  - intros links Hroot Hlen Hwf.
    destruct (restore_after_root self cid w links Hroot Hlen) as (res & Hloop & Hrun).
    destruct (link_loop_complete links
                {| ipfs.index_hash := None; ipfs.docstore_hash := None |}
                (advance 1 [EPost (dag_root_request self cid)] w) Hwf)
      as (vars & Hloop' & Hi & Hd & Hi' & Hd').
    rewrite Hloop in Hloop'. injection Hloop' as ->.
    simpl in Hi, Hd, Hi', Hd'. split.
    + intros Hno. rewrite Hrun, (Hi Hno). reflexivity.
    + intros Hyes Hno. rewrite Hrun, (Hd Hno).
      destruct (ipfs.index_hash vars) as [i|]; [reflexivity|].
      exfalso. apply Hi'; auto.
  - intros vectorstore w' Hval.
    unfold ipfs.get_vectorstore_from_ipfs in Hval. cbv zeta in Hval.
    fold (dag_root_request self cid) in Hval.
    rewrite bind_run in Hval. unfold requests_post in Hval.
    destruct (server w (clock w) (dag_root_request self cid)) as [r|e] eqn:Hans;
      [|discriminate].
    rewrite bind_run in Hval. unfold response_json in Hval.
    destruct (json_body r) as [data|] eqn:Hjson; [|discriminate].
    unfold ret at 1 in Hval. rewrite bind_run in Hval.
    destruct (Links data) as [links|] eqn:Hlinks; [|discriminate].
    simpl lift in Hval. unfold ret at 1 in Hval. rewrite bind_run in Hval.
    destruct (Nat.eqb_spec (length links) 2) as [Hlen|]; [|discriminate].
    unfold ret at 1 in Hval. rewrite bind_run in Hval.
    destruct (link_loop_sound links
                {| ipfs.index_hash := None; ipfs.docstore_hash := None |}
                (advance 1 [EPost (dag_root_request self cid)] w))
      as (res & Hloop & Hres).
    rewrite Hloop in Hval.
    destruct res as [vars| |]; [|discriminate..].
    destruct (Hres vars eq_refl) as [Hi Hd]. simpl in Hi, Hd.
    rewrite bind_run in Hval.
    exists links. split; [now exists r, data|]. split; [exact Hlen|].
    destruct (ipfs.index_hash vars) as [i|]; [|discriminate].
    simpl ipfs.read_local in Hval. unfold ret at 1 in Hval. rewrite bind_run in Hval.
    destruct (ipfs.docstore_hash vars) as [d|]; [|discriminate].
    split; [destruct Hi as [? | ?] | destruct Hd as [? | ?]];
      (discriminate || assumption).
Qed.

End RestoreNames.

(** ** The recursive traversal *)

Lemma retry_answered_first {A B} (rq : request) (delay : Z)
    (treat : Response -> M (option A)) (finish : option A -> M B)
    (n : nat) (w : world) (r : Response) (a : A) (w' : world) :
  server w (clock w) rq = Answers r ->
  (0 < n)%nat ->
  treat r (advance 1 [EPost rq] w) = (Val (Some a), w') ->
  (for_range n (attempt rq delay treat) ≫= finish) w = finish (Some a) w'.
Proof.
  intros Hans Hn Htreat. destruct n as [|n]; [lia|].
  now rewrite bind_run, for_range_S, (attempt_answer _ _ _ _ r), Htreat.
Qed.

Lemma get_dag_get_served (self : ipfs_directory.IPFSDirectoryDataLoader)
    (store : gmap string (list link)) (w : world) (h : string) (links : list link) :
  serves w self store ->
  store !! h = Some links ->
  (0 < Z.to_nat (ipfs_directory.max_retries self))%nat ->
  exists r data,
    ipfs_directory.get_dag_get self h w
    = (Val r, advance 1 [EPost (dag_request self h)] w)
    /\ status_code r = 200
    /\ json_body r = Some data
    /\ default [] (Links data) = links.
Proof.
  intros Hserves Hnode Hretries.
  destruct (Hserves (clock w) h links Hnode) as (r & data & Hans & Hstatus & Hjson & Hlinks).
  exists r, data. split; [|auto].
  unfold ipfs_directory.get_dag_get. fold_attempt.
  rewrite (retry_answered_first _ _ _ _ _ w r r
             (advance 1 [EPost (dag_request self h)] w));
    [reflexivity | exact Hans | exact Hretries |].
  now rewrite Hstatus.
Qed.

Lemma recursive_dag_get_helper_S (self : ipfs_directory.IPFSDirectoryDataLoader)
    (fuel : nat) (hash : string) (all_files : list (string * string)) :
  ipfs_directory.recursive_dag_get_helper self (S fuel) hash all_files
  = (ipfs_directory.get_dag_get self hash ≫= fun response =>
     (if status_code response =? 200 then response_json response
      else raise (Exception ("Failed to get DAG for " ++ hash
                               ++ " with status code "
                               ++ str_of_Z (status_code response))))
     ≫= fun dag_data =>
     for_each (default [] (Links dag_data))
       (fun link all_files =>
          (if followed link
           then ipfs_directory.recursive_dag_get_helper self fuel (target link) all_files
           else ret all_files)
          ≫= fun all_files =>
          if collected link
          then ret (all_files ++ [(target link, ipfs_directory.link_name_of link)])%list
          else ret all_files)
       all_files).
Proof. reflexivity. Qed.

Section Traversal.
Variable self : ipfs_directory.IPFSDirectoryDataLoader.
Variable store : gmap string (list link).
Variable rank : string -> nat.
Hypothesis Hretries : (0 < Z.to_nat (ipfs_directory.max_retries self))%nat.
Hypothesis Hclosed : closed store.
Hypothesis Hranked : ranked store rank.

(** The loop over the links of a node, given what a nested call does. *)
Lemma links_loop_run (fuel : nat) :
  (forall h acc w,
     serves w self store -> is_Some (store !! h) -> (rank h < fuel)%nat ->
     ipfs_directory.recursive_dag_get_helper self fuel h acc w
     = (Val (acc ++ files store fuel h)%list,
        advance (length (visits store fuel h))
          (dag_posts self (visits store fuel h)) w)) ->
  forall ls acc w,
    serves w self store ->
    (forall l, In l ls -> followed l = true ->
               is_Some (store !! target l) /\ (rank (target l) < fuel)%nat) ->
    let seen := flat_map (fun l => if followed l then visits store fuel (target l)
                                   else []) ls in
    for_each ls
      (fun link all_files =>
         (if followed link
          then ipfs_directory.recursive_dag_get_helper self fuel (target link) all_files
          else ret all_files)
         ≫= fun all_files =>
         if collected link
         then ret (all_files ++ [(target link, ipfs_directory.link_name_of link)])%list
         else ret all_files)
      acc w
    = (Val (acc ++ flat_map
                     (fun l =>
                        (if followed l then files store fuel (target l) else [])
                        ++ (if collected l
                            then [(target l, ipfs_directory.link_name_of l)]
                            else [])) ls)%list,
       advance (length seen) (dag_posts self seen) w).
Proof.
  intros IH ls. induction ls as [|l ls IHls]; intros acc w Hserves Hls seen.
  - simpl. now rewrite app_nil_r, advance_0_nil.
  - subst seen. cbn [for_each flat_map]. rewrite !bind_run.
    assert (Hrest : forall l', In l' ls -> followed l' = true ->
              is_Some (store !! target l') /\ (rank (target l') < fuel)%nat)
      by (intros l' Hin; apply Hls; now right).
    destruct (followed l) eqn:Hfollowed.
    + destruct (Hls l (or_introl eq_refl) Hfollowed) as [Hnode Hrank].
      rewrite IH by assumption.
      destruct (collected l); unfold ret at 1;
        rewrite IHls by assumption; rewrite advance_advance;
        unfold dag_posts; rewrite map_app, length_app, <- !app_assoc; reflexivity.
    + assert (Hnot : collected l = false) by (unfold collected; now rewrite Hfollowed).
      rewrite Hnot. unfold ret at 1 2. now rewrite IHls by assumption.
Qed.

(** With enough fuel for the depth of the structure below [h], the helper
    returns: it asks for the hashes [visits] and appends the files [files]. *)
Lemma recursive_dag_get_helper_run (fuel : nat) (h : string)
    (acc : list (string * string)) (w : world) :
  serves w self store -> is_Some (store !! h) -> (rank h < fuel)%nat ->
  ipfs_directory.recursive_dag_get_helper self fuel h acc w
  = (Val (acc ++ files store fuel h)%list,
     advance (length (visits store fuel h)) (dag_posts self (visits store fuel h)) w).
Proof.
  revert h acc w. induction fuel as [|fuel IH]; intros h acc w Hserves [links Hnode] Hrank;
    [lia|].
  rewrite recursive_dag_get_helper_S, bind_run.
  destruct (get_dag_get_served self store w h links Hserves Hnode Hretries)
    as (r & data & -> & Hstatus & Hjson & Hlinks).
  rewrite Hstatus, Z.eqb_refl, bind_run. unfold response_json. rewrite Hjson.
  unfold ret at 1. rewrite Hlinks.
  rewrite (links_loop_run fuel IH).
  - rewrite advance_advance. cbn [files visits]. unfold links_of. rewrite Hnode.
    reflexivity.
  - exact Hserves.
  - intros l Hin Hfollowed. split.
    + exact (Hclosed h links l Hnode Hin Hfollowed).
    + pose proof (Hranked h links l Hnode Hin Hfollowed). lia.
Qed.

End Traversal.

(** *** Counting visits *)

Lemma list_sum_map_add {X} (f g : X -> nat) (xs : list X) :
  list_sum (map (fun x => (f x + g x)%nat) xs)
  = (list_sum (map f xs) + list_sum (map g xs))%nat.
Proof. induction xs as [|x xs IH]; simpl; [reflexivity | rewrite IH; lia]. Qed.

Lemma list_sum_map_zero {X} (xs : list X) :
  list_sum (map (fun _ => 0%nat) xs) = 0%nat.
Proof. induction xs as [|x xs IH]; simpl; [reflexivity | exact IH]. Qed.

Lemma list_sum_map_ext_in {X} (f g : X -> nat) (xs : list X) :
  (forall x, In x xs -> f x = g x) ->
  list_sum (map f xs) = list_sum (map g xs).
Proof. intros Hext. f_equal. now apply map_ext_in. Qed.

Lemma list_sum_swap {X Y} (f : X -> Y -> nat) (xs : list X) (ys : list Y) :
  list_sum (map (fun x => list_sum (map (fun y => f x y) ys)) xs)
  = list_sum (map (fun y => list_sum (map (fun x => f x y) xs)) ys).
Proof.
  induction xs as [|x xs IH]; simpl.
  - now rewrite list_sum_map_zero.
  - now rewrite IH, <- list_sum_map_add.
Qed.

Lemma count_occ_flat_map {X} (f : X -> list string) (xs : list X) (h : string) :
  count_occ string_dec (flat_map f xs) h
  = list_sum (map (fun x => count_occ string_dec (f x) h) xs).
Proof.
  induction xs as [|x xs IH]; simpl; [reflexivity|].
  now rewrite count_occ_app, IH.
Qed.

Lemma list_sum_seq_S (f : nat -> nat) (n : nat) :
  list_sum (map f (seq 0 (S n)))
  = (f 0%nat + list_sum (map (fun k => f (S k)) (seq 0 n)))%nat.
Proof.
  change (seq 0 (S n)) with (0%nat :: seq 1 n).
  rewrite <- seq_shift. simpl. now rewrite List.map_map.
Qed.

(** With [fuel] levels to go, a hash is asked for once for each chain of
    fewer than [fuel] links that leads to it. *)
Lemma count_visits (store : gmap string (list link)) (fuel : nat) (h dst : string) :
  count_occ string_dec (visits store fuel h) dst
  = list_sum (map (fun k => chains store k h dst) (seq 0 fuel)).
Proof.
  revert h. induction fuel as [|fuel IH]; intros h; [reflexivity|].
  rewrite list_sum_seq_S. cbn [visits chains].
  assert (Hhead : forall rest,
            count_occ string_dec (h :: rest) dst
            = ((if String.eqb h dst then 1 else 0) + count_occ string_dec rest dst)%nat).
  { intros rest. simpl. destruct (string_dec h dst) as [->|Hne].
    - now rewrite String.eqb_refl.
    - apply String.eqb_neq in Hne. now rewrite Hne. }
  rewrite Hhead, count_occ_flat_map. f_equal.
  rewrite <- list_sum_swap. apply list_sum_map_ext_in. intros l _.
  destruct (followed l); [apply IH | now rewrite list_sum_map_zero].
Qed.

Section Ranked.
Variable store : gmap string (list link).
Variable rank : string -> nat.
Hypothesis Hranked : ranked store rank.

Lemma ranked_links (h : string) (l : link) :
  In l (links_of store h) -> followed l = true -> (rank (target l) < rank h)%nat.
Proof.
  unfold links_of. destruct (store !! h) as [links|] eqn:Hnode; [|intros []].
  intros Hin Hfollowed. exact (Hranked h links l Hnode Hin Hfollowed).
Qed.

(** No chain is longer than the rank of its start. *)
Lemma chains_beyond_rank (k : nat) (src dst : string) :
  (rank src < k)%nat -> chains store k src dst = 0%nat.
Proof.
  revert src. induction k as [|k IH]; intros src Hk; [lia|].
  cbn [chains].
  transitivity (list_sum (map (fun _ : link => 0%nat) (links_of store src)));
    [|apply list_sum_map_zero].
  apply list_sum_map_ext_in. intros l Hin.
  destruct (followed l) eqn:Hfollowed; [|reflexivity].
  apply IH. pose proof (ranked_links src l Hin Hfollowed). lia.
Qed.

Lemma chains_sum_stable (fuel : nat) (src dst : string) :
  (rank src < fuel)%nat ->
  list_sum (map (fun k => chains store k src dst) (seq 0 fuel))
  = chains_upto store (rank src) src dst.
Proof.
  unfold chains_upto. intros Hfuel.
  replace fuel with (S (rank src) + (fuel - S (rank src)))%nat by lia.
  rewrite seq_app, map_app, list_sum_app.
  assert (Hrest : list_sum (map (fun k => chains store k src dst)
                              (seq (0 + S (rank src)) (fuel - S (rank src)))) = 0%nat).
  { transitivity (list_sum (map (fun _ : nat => 0%nat)
                              (seq (0 + S (rank src)) (fuel - S (rank src)))));
      [|apply list_sum_map_zero].
    apply list_sum_map_ext_in. intros k Hk. apply in_seq in Hk.
    apply chains_beyond_rank. lia. }
  rewrite Hrest. lia.
Qed.

Lemma flat_map_ext_in {X Y} (f g : X -> list Y) (xs : list X) :
  (forall x, In x xs -> f x = g x) -> flat_map f xs = flat_map g xs.
Proof.
  intros Hext. induction xs as [|x xs IH]; [reflexivity|].
  simpl. rewrite Hext by now left. rewrite IH; [reflexivity|].
  intros x' Hin. apply Hext. now right.
Qed.

(** Beyond the rank of the start, more fuel changes nothing. *)
Lemma traversal_stable (fuel1 fuel2 : nat) (h : string) :
  (rank h < fuel1)%nat -> (rank h < fuel2)%nat ->
  visits store fuel1 h = visits store fuel2 h
  /\ files store fuel1 h = files store fuel2 h.
Proof.
  revert fuel2 h. induction fuel1 as [|fuel1 IH]; intros fuel2 h H1 H2; [lia|].
  destruct fuel2 as [|fuel2]; [lia|]. cbn [visits files]. split.
  - f_equal. apply flat_map_ext_in. intros l Hin.
    destruct (followed l) eqn:Hfollowed; [|reflexivity].
    pose proof (ranked_links h l Hin Hfollowed). apply IH; lia.
  - apply flat_map_ext_in. intros l Hin.
    destruct (followed l) eqn:Hfollowed; [|reflexivity].
    pose proof (ranked_links h l Hin Hfollowed).
    f_equal. apply IH; lia.
Qed.

End Ranked.

(** *** What is reached and what is collected *)

Lemma followed_iff (l : link) :
  followed l = true
  <-> exists x, ipfs_directory.link_hash_of l = Some x /\ x <> "" /\ target l = x.
Proof.
  unfold followed, target. destruct (ipfs_directory.link_hash_of l) as [[|c x]|]; simpl.
  - split; [discriminate | intros (x & [= <-] & Hne & _); congruence].
  - split; [intros _; eexists; repeat split; discriminate | reflexivity].
  - split; [discriminate | intros (x & Hx & _); discriminate].
Qed.

Lemma collected_iff (l : link) :
  collected l = true
  <-> followed l = true /\ occurs "." (ipfs_directory.link_name_of l).
Proof.
  unfold collected, ipfs_directory.has_file_extension.
  rewrite !andb_true_iff, str_in_occurs. split; [tauto|].
  intros [Hfollowed Hocc]. repeat split; try assumption.
  destruct Hocc as (before & after & ->).
  destruct before; reflexivity.
Qed.

Lemma reachable_trans (store : gmap string (list link)) (a b c : string) :
  reachable store a b -> reachable store b c -> reachable store a c.
Proof.
  intros Hab Hbc. induction Hbc as [|h l _ IH Hin Hfollowed]; [exact Hab|].
  exact (reachable_step store a h l IH Hin Hfollowed).
Qed.

Lemma reachable_link (store : gmap string (list link)) (h : string) (l : link) :
  In l (links_of store h) -> followed l = true -> reachable store h (target l).
Proof. intros. eapply reachable_step; [apply reachable_here | eassumption..]. Qed.

Lemma files_sound (store : gmap string (list link)) (fuel : nat) (h : string)
    (x name : string) :
  In (x, name) (files store fuel h) ->
  exists n l,
    reachable store h n /\ In l (links_of store n) /\ collected l = true
    /\ target l = x /\ ipfs_directory.link_name_of l = name.
Proof.
  revert h. induction fuel as [|fuel IH]; intros h; [intros []|].
  cbn [files]. rewrite in_flat_map. intros (l & Hin & Hfile).
  apply in_app_or in Hfile as [Hbelow | Hhere].
  - destruct (followed l) eqn:Hfollowed; [|destruct Hbelow].
    destruct (IH _ Hbelow) as (n & l' & Hreach & Hrest).
    exists n, l'. split; [|exact Hrest].
    eapply reachable_trans; [|exact Hreach]. now apply reachable_link.
  - destruct (collected l) eqn:Hcollected; [|destruct Hhere].
    destruct Hhere as [[= <- <-]|[]].
    exists h, l. repeat split; [apply reachable_here | assumption..].
Qed.

Section Reached.
Variable store : gmap string (list link).
Variable rank : string -> nat.
Hypothesis Hranked : ranked store rank.

Lemma reachable_rank (src dst : string) :
  reachable store src dst -> (rank dst <= rank src)%nat.
Proof.
  induction 1 as [|h l _ IH Hin Hfollowed]; [lia|].
  pose proof (ranked_links store rank Hranked h l Hin Hfollowed). lia.
Qed.

(** Everything reached from [src] is visited, and what is visited and
    collected below a reached node is visited and collected from [src]. *)
Lemma reachable_included (fuel : nat) (src dst : string) :
  reachable store src dst -> (rank src < fuel)%nat ->
  In dst (visits store fuel src)
  /\ (forall x, In x (visits store fuel dst) -> In x (visits store fuel src))
  /\ (forall f, In f (files store fuel dst) -> In f (files store fuel src)).
Proof.
  intros Hreach Hfuel. induction Hreach as [|h l Hreach IH Hin Hfollowed].
  - split; [|auto]. destruct fuel as [|fuel]; [lia | now left].
  - destruct IH as (_ & IHv & IHf).
    pose proof (reachable_rank _ _ Hreach) as Hh.
    pose proof (ranked_links store rank Hranked h l Hin Hfollowed) as Hl.
    destruct fuel as [|fuel]; [lia|].
    destruct (traversal_stable store rank Hranked (S fuel) fuel (target l))
      as [Ev Ef]; [lia.. |].
    assert (Hv : forall x, In x (visits store (S fuel) (target l)) ->
                           In x (visits store (S fuel) h)).
    { intros x Hx. rewrite Ev in Hx. cbn [visits]. right.
      apply in_flat_map. exists l. now rewrite Hfollowed. }
    assert (Hf : forall f, In f (files store (S fuel) (target l)) ->
                           In f (files store (S fuel) h)).
    { intros f Hx. rewrite Ef in Hx. change (files store (S fuel) h) with
        (flat_map (fun l =>
                     ((if followed l then files store fuel (target l) else [])
                      ++ (if collected l
                          then [(target l, ipfs_directory.link_name_of l)]
                          else []))%list) (links_of store h)).
      apply in_flat_map. exists l. split; [exact Hin|].
      apply in_or_app. left. now rewrite Hfollowed. }
    split; [|split].
    + apply IHv, Hv. now left.
    + intros x Hx. apply IHv, Hv, Hx.
    + intros f Hx. apply IHf, Hf, Hx.
Qed.

Lemma files_complete (fuel : nat) (src n : string) (l : link) :
  reachable store src n -> (rank src < fuel)%nat ->
  In l (links_of store n) -> collected l = true ->
  In (target l, ipfs_directory.link_name_of l) (files store fuel src).
Proof.
  intros Hreach Hfuel Hin Hcollected.
  apply (reachable_included fuel src n Hreach Hfuel).
  destruct fuel as [|fuel]; [lia|]. cbn [files].
  apply in_flat_map. exists l. split; [exact Hin|].
  apply in_or_app. right. rewrite Hcollected. now left.
Qed.

End Reached.

(** *** Visits and collected files of a traversal *)

(** C8, amended.  On an acyclic structure served by the daemon the traversal
    returns for every fuel above the rank of the root, always with the same
    files and the same posts, and it asks for each hash exactly once per
    chain of followed links that leads from the root to it (the empty chain
    counts for the root).  Nothing is remembered between visits. *)
Theorem traversal_visits_once_per_chain
    (self : ipfs_directory.IPFSDirectoryDataLoader)
    (store : gmap string (list link)) (rank : string -> nat)
    (root : string) (w : world) :
  (0 < Z.to_nat (ipfs_directory.max_retries self))%nat ->
  closed store -> ranked store rank ->
  serves w self store -> is_Some (store !! root) ->
  exists found seen,
    (forall fuel, (rank root < fuel)%nat ->
       ipfs_directory.recursive_dag_get self fuel root w
       = (Val found, advance (length seen) (dag_posts self seen) w))
    /\ (forall h, count_occ string_dec seen h = chains_upto store (rank root) root h).
Proof.
  intros Hretries Hclosed Hranked Hserves Hroot.
  exists (files store (S (rank root)) root), (visits store (S (rank root)) root).
  split.
  - intros fuel Hfuel. unfold ipfs_directory.recursive_dag_get.
    rewrite (recursive_dag_get_helper_run self store rank Hretries Hclosed Hranked)
      by assumption.
    destruct (traversal_stable store rank Hranked fuel (S (rank root)) root)
      as [-> ->]; [lia.. |]. reflexivity.
  - intros h. rewrite count_visits.
    apply (chains_sum_stable store rank Hranked). lia.
Qed.

(** C3, amended.  Every link with a non-empty hash is recursed into, whatever
    its name: its hash is asked for.  A pair (hash, name) is collected exactly
    when it comes from such a link, met at a node reached from the root, whose
    name contains a period.  So a link whose name lacks a period is never
    collected, while a link whose name contains one is both collected and
    recursed into. *)
Theorem links_followed_and_collected
    (self : ipfs_directory.IPFSDirectoryDataLoader)
    (store : gmap string (list link)) (rank : string -> nat)
    (root : string) (w : world) (fuel : nat) :
  (0 < Z.to_nat (ipfs_directory.max_retries self))%nat ->
  closed store -> ranked store rank ->
  serves w self store -> is_Some (store !! root) ->
  (rank root < fuel)%nat ->
  exists found seen,
    ipfs_directory.recursive_dag_get self fuel root w
    = (Val found, advance (length seen) (dag_posts self seen) w)
    /\ (forall x name,
          In (x, name) found
          <-> exists n l,
                reachable store root n /\ In l (links_of store n)
                /\ ipfs_directory.link_hash_of l = Some x /\ x <> ""
                /\ ipfs_directory.link_name_of l = name
                /\ occurs "." name)
    /\ (forall n l x,
          reachable store root n -> In l (links_of store n) ->
          ipfs_directory.link_hash_of l = Some x -> x <> "" ->
          In x seen).
Proof.
  intros Hretries Hclosed Hranked Hserves Hroot Hfuel.
  exists (files store fuel root), (visits store fuel root).
  split; [|split].
  - unfold ipfs_directory.recursive_dag_get.
    now rewrite (recursive_dag_get_helper_run self store rank Hretries Hclosed Hranked).
  - intros x name. split.
    + intros Hin. apply files_sound in Hin as (n & l & Hreach & Hl & Hcol & <- & <-).
      apply collected_iff in Hcol as [Hfollowed Hocc].
      apply followed_iff in Hfollowed as (x & Hx & Hne & Htarget).
      exists n, l. rewrite Htarget. auto 10.
    + intros (n & l & Hreach & Hl & Hx & Hne & <- & Hocc).
      assert (Hfollowed : followed l = true)
        by (apply followed_iff; exists x; unfold target; rewrite Hx; auto).
      assert (Htarget : target l = x) by (unfold target; now rewrite Hx).
      rewrite <- Htarget.
      apply (files_complete store rank Hranked fuel root n l); try assumption.
      apply collected_iff. auto.
  - intros n l x Hreach Hl Hx Hne.
    assert (Hfollowed : followed l = true)
      by (apply followed_iff; exists x; unfold target; rewrite Hx; auto).
    assert (Htarget : target l = x) by (unfold target; now rewrite Hx).
    rewrite <- Htarget.
    destruct (reachable_included store rank Hranked fuel root (target l))
      as (Hin & _); [|exact Hfuel | exact Hin].
    eapply reachable_step; eassumption.
Qed.

(** *** The example daemon *)

Lemma strip_prefix_app (prefix s : string) :
  strip_prefix prefix (prefix ++ s) = Some s.
Proof.
  induction prefix as [|a prefix IH]; [reflexivity|].
  simpl. now rewrite Ascii.eqb_refl.
Qed.

Lemma ipfs_daemon_serves (store : gmap string (list link)) (blobs : gmap string bytes)
    (self : ipfs_directory.IPFSDirectoryDataLoader) :
  ipfs_directory.use_infura self = false ->
  serves (fresh (ipfs_daemon store blobs)) self store.
Proof.
  intros Hlocal i h links Hnode.
  exists {| status_code := 200; content := [];
            json_body := Some {| Links := Some links |} |}, {| Links := Some links |}.
  split; [|repeat split].
  unfold fresh, ipfs_daemon, dag_request, ipfs_directory.dag_get_url. cbn [server url].
  rewrite Hlocal.
  change (ipfs_directory.base_url ++ "/" ++ ipfs_directory.base_api_path ++ "/"
            ++ ipfs_directory.dag_get_suffix)
    with "http://127.0.0.1:5001/api/v0/dag/get".
  change (("http://127.0.0.1:5001/api/v0/dag/get" ++ "?arg=" ++ h))
    with ("http://127.0.0.1:5001/api/v0/dag/get?arg=" ++ h).
  now rewrite strip_prefix_app, Hnode.
Qed.

Lemma example_store_nodes (h : string) (links : list link) :
  example_store !! h = Some links ->
  (h = "QmRoot" /\ links = [named_link "QmDir" "docs"; named_link "QmDir" "copy"])
  \/ (h = "QmDir"
      /\ links = [named_link "QmNotes" "notes.txt"; named_link "QmPhoto" "photo.png"])
  \/ (h = "QmNotes" /\ links = [])
  \/ (h = "QmPhoto" /\ links = []).
Proof.
  unfold example_store. intros Hnode.
  repeat (apply lookup_insert_Some in Hnode as [[<- <-] | [_ Hnode]]; [tauto|]).
  now rewrite lookup_empty in Hnode.
Qed.

Lemma example_closed : closed example_store.
Proof.
  intros h links l Hnode Hin _.
  apply example_store_nodes in Hnode
    as [[-> ->] | [[-> ->] | [[-> ->] | [-> ->]]]]; simpl in Hin;
    repeat (destruct Hin as [<- | Hin]; [vm_compute; eauto|]); destruct Hin.
Qed.

Lemma example_ranked : ranked example_store example_rank.
Proof.
  intros h links l Hnode Hin _.
  apply example_store_nodes in Hnode
    as [[-> ->] | [[-> ->] | [[-> ->] | [-> ->]]]]; simpl in Hin;
    repeat (destruct Hin as [<- | Hin]; [vm_compute; lia|]); destruct Hin.
Qed.

(** C8, counterexample.  In the example structure the directory is linked
    twice from the root, so the file "notes.txt" inside it, although linked
    once in the whole structure and not the root, is asked for twice. *)
Lemma shared_directory_visited_twice :
  let seen := ["QmRoot"; "QmDir"; "QmNotes"; "QmPhoto"; "QmDir"; "QmNotes"; "QmPhoto"] in
  ranked example_store example_rank
  /\ ipfs_directory.recursive_dag_get local_directory_loader 3 "QmRoot" example_world
     = (Val [("QmNotes", "notes.txt"); ("QmPhoto", "photo.png");
             ("QmNotes", "notes.txt"); ("QmPhoto", "photo.png")],
        advance 7 (dag_posts local_directory_loader seen) example_world)
  /\ count_occ string_dec seen "QmNotes" = 2%nat
  /\ in_links example_store "QmNotes" = 1%nat
  /\ "QmNotes" <> "QmRoot".
Proof.
  intros seen. split; [exact example_ranked|].
  split; [vm_compute; reflexivity|].
  split; [reflexivity|]. split; [vm_compute; reflexivity | discriminate].
Qed.

Lemma traversal_visits_once_per_chain_witness :
  exists found seen,
    (forall fuel, (example_rank "QmRoot" < fuel)%nat ->
       ipfs_directory.recursive_dag_get local_directory_loader fuel "QmRoot" example_world
       = (Val found,
          advance (length seen) (dag_posts local_directory_loader seen) example_world))
    /\ (forall h, count_occ string_dec seen h
                  = chains_upto example_store (example_rank "QmRoot") "QmRoot" h).
Proof.
  apply (traversal_visits_once_per_chain local_directory_loader example_store
           example_rank "QmRoot" example_world).
  - simpl. lia.
  - exact example_closed.
  - exact example_ranked.
  - apply ipfs_daemon_serves. reflexivity.
  - vm_compute. eauto.
Defined.

(** C3, counterexample.  The link "notes.txt" has a period in its name: its
    pair is collected, and its hash is asked for all the same, that is, the
    link is recursed into as a directory would be. *)
Lemma file_link_also_recursed_into :
  let seen := ["QmDir"; "QmNotes"; "QmPhoto"] in
  occurs "." "notes.txt"
  /\ In (named_link "QmNotes" "notes.txt") (links_of example_store "QmDir")
  /\ ipfs_directory.recursive_dag_get local_directory_loader 2 "QmDir" example_world
     = (Val [("QmNotes", "notes.txt"); ("QmPhoto", "photo.png")],
        advance 3 (dag_posts local_directory_loader seen) example_world)
  /\ In "QmNotes" seen.
Proof.
  intros seen. split; [now exists "notes", "txt"|].
  split; [vm_compute; auto|].
  split; [vm_compute; reflexivity | simpl; auto].
Qed.

Lemma links_followed_and_collected_witness :
  exists found seen,
    ipfs_directory.recursive_dag_get local_directory_loader 3 "QmRoot" example_world
    = (Val found, advance (length seen) (dag_posts local_directory_loader seen)
                    example_world)
    /\ (forall x name,
          In (x, name) found
          <-> exists n l,
                reachable example_store "QmRoot" n /\ In l (links_of example_store n)
                /\ ipfs_directory.link_hash_of l = Some x /\ x <> ""
                /\ ipfs_directory.link_name_of l = name
                /\ occurs "." name)
    /\ (forall n l x,
          reachable example_store "QmRoot" n -> In l (links_of example_store n) ->
          ipfs_directory.link_hash_of l = Some x -> x <> "" ->
          In x seen).
Proof.
  apply (links_followed_and_collected local_directory_loader example_store
           example_rank "QmRoot" example_world 3).
  - simpl. lia.
  - exact example_closed.
  - exact example_ranked.
  - apply ipfs_daemon_serves. reflexivity.
  - vm_compute. eauto.
  - vm_compute. lia.
Defined.

(** ** Directory load *)

Lemma total_ret {A} (a : A) : total (ret a).
Proof. intros w w'. discriminate. Qed.

Lemma total_raise {A} (e : exn) : total (@raise A e).
Proof. intros w w'. discriminate. Qed.

Lemma total_lift {A} (r : exn + A) : total (lift r).
Proof. destruct r; [apply total_raise | apply total_ret]. Qed.

Lemma total_bind {A B} (m : M A) (k : A -> M B) :
  total m -> (forall a, total (k a)) -> total (m ≫= k).
Proof.
  intros Hm Hk w w'. rewrite bind_run.
  destruct (m w) as [[a|e|] w1] eqn:Hrun; [apply Hk | discriminate |].
  now apply Hm in Hrun.
Qed.

Lemma total_try_except {A} (body : M A) (catches : exn -> bool)
    (handler : exn -> M A) :
  total body -> (forall e, total (handler e)) ->
  total (try_except body catches handler).
Proof.
  intros Hbody Hhandler w w'. unfold try_except.
  destruct (body w) as [[a|e|] w1] eqn:Hrun; [discriminate | |].
  - destruct (catches e); [apply Hhandler | discriminate].
  - now apply Hbody in Hrun.
Qed.

Lemma total_for_range {A} (n : nat) (body : M (option A)) :
  total body -> total (for_range n body).
Proof.
  intros Hbody. induction n as [|n IH]; [apply total_ret|].
  simpl. apply total_bind; [exact Hbody|].
  intros [a|]; [apply total_ret | exact IH].
Qed.

Lemma total_requests_post (rq : request) : total (requests_post rq).
Proof.
  intros w w'. unfold requests_post.
  destruct (server w (clock w) rq); discriminate.
Qed.

Lemma total_time_sleep (seconds : Z) : total (time_sleep seconds).
Proof.
  intros w w'. unfold time_sleep. destruct (seconds <? 0); discriminate.
Qed.

Lemma total_logger_log (level msg : string) : total (logger_log level msg).
Proof. intros w w'. discriminate. Qed.

Create HintDb total.
#[local] Hint Resolve total_ret total_raise total_lift total_requests_post
  total_time_sleep total_logger_log : total.

Lemma total_file_load `{Libs} (self : ipfs_file.IPFSFileDataLoader)
    (ipfs_hash : string) :
  total (ipfs_file.load self ipfs_hash).
Proof.
  unfold ipfs_file.load.
  apply total_bind; [|intros [doc|]; auto with total].
  apply total_for_range, total_try_except.
  - apply total_bind; [auto with total|]. intros response.
    destruct (ok response).
    + apply total_bind; [auto with total | intros file_type].
      apply total_bind; [auto with total | intros reader].
      apply total_bind; [auto with total | intros text].
      destruct text; auto with total.
    + apply total_bind; auto with total.
  - intros e. apply total_bind; auto with total.
Qed.

Section DirectoryLoad.
Context `{Libs}.

Lemma load_unfold (self : ipfs_directory.IPFSDirectoryDataLoader) (fuel : nat)
    (ipfs_hash : string) :
  ipfs_directory.load self fuel ipfs_hash
  = (ipfs_directory.recursive_dag_get self fuel ipfs_hash ≫= fun all_files =>
     ipfs_file.__init__ false None None false ≫= fun fileloader =>
     load_loop fileloader all_files []).
Proof. reflexivity. Qed.

Lemma load_loop_cons (fileloader : ipfs_file.IPFSFileDataLoader)
    (hash name : string) (rest : list (string * string))
    (results : list ipfs_file.loaded) :
  load_loop fileloader ((hash, name) :: rest) results
  = (try_except
       (ipfs_file.load fileloader hash ≫= fun doc =>
        ret (results ++ [ipfs_directory.tag_source name doc])%list)
       is_Exception
       (fun e =>
          logger_log "ERROR" ("Failed to load file " ++ name ++ " with hash "
                                ++ hash ++ ": " ++ exn_str e)
          ≫= fun _ =>
          logger_log "ERROR" ("Skipping file " ++ name ++ " with hash " ++ hash)
          ≫= fun _ => ret results)
     ≫= load_loop fileloader rest).
Proof. reflexivity. Qed.

(** The loop always returns: whatever a file's load raises is caught, and
    the results are those of the files whose load returned. *)
Lemma file_failures_skipped_loop (fileloader : ipfs_file.IPFSFileDataLoader)
    (all_files : list (string * string)) (results : list ipfs_file.loaded)
    (w : world) :
  exists kept w',
    load_loop fileloader all_files results w
    = (Val (results ++ results_of kept)%list, w')
    /\ loads fileloader all_files w kept w'.
Proof.
  revert results w. induction all_files as [|[hash name] rest IH]; intros results w.
  - exists [], w. split; [|constructor].
    unfold load_loop. simpl. now rewrite app_nil_r.
  - rewrite load_loop_cons, bind_run. unfold try_except. rewrite bind_run.
    destruct (ipfs_file.load fileloader hash w) as [[doc|e|] w1] eqn:Hload.
    + unfold ret at 1.
      destruct (IH (results ++ [ipfs_directory.tag_source name doc])%list w1)
        as (kept & w' & Hrun & Hloads).
      exists ((hash, name, doc) :: kept), w'. split.
      * rewrite Hrun. simpl. now rewrite <- app_assoc.
      * econstructor; eassumption.
    + destruct (IH results (advance 0 (skip_events hash name e) w1))
        as (kept & w' & Hrun & Hloads).
      exists kept, w'. split; [|eapply loads_skip; eassumption].
      unfold is_Exception. cbv iota. rewrite bind_run. unfold logger_log at 1.
      cbv beta iota. rewrite bind_run. unfold logger_log, ret.
      cbv beta iota. rewrite advance_advance. exact Hrun.
    + now apply total_file_load in Hload.
Qed.

(** C4.  Once the traversal has returned the files and the file loader has
    been constructed, the directory load returns normally, whatever the
    individual loads do: each file is loaded in turn; a load that raises is
    logged and its file left out; the results are those of all the files
    whose load returned, in order. *)
Theorem file_failures_are_skipped (self : ipfs_directory.IPFSDirectoryDataLoader)
    (fuel : nat) (ipfs_hash : string) (w w1 w2 : world)
    (all_files : list (string * string)) (fileloader : ipfs_file.IPFSFileDataLoader) :
  ipfs_directory.recursive_dag_get self fuel ipfs_hash w = (Val all_files, w1) ->
  ipfs_file.__init__ false None None false w1 = (Val fileloader, w2) ->
  exists kept w3,
    ipfs_directory.load self fuel ipfs_hash w = (Val (results_of kept), w3)
    /\ loads fileloader all_files w2 kept w3.
Proof.
  intros Hfiles Hinit. rewrite load_unfold, bind_run, Hfiles, bind_run, Hinit.
  exact (file_failures_skipped_loop fileloader all_files [] w2).
Qed.

End DirectoryLoad.

(** *** The remote side stays the same *)

Lemma keeps_server_ret {A} (a : A) : keeps_server (ret a).
Proof. intros w r w' [= _ <-]. reflexivity. Qed.

Lemma keeps_server_raise {A} (e : exn) : keeps_server (@raise A e).
Proof. intros w r w' [= _ <-]. reflexivity. Qed.

Lemma keeps_server_lift {A} (r : exn + A) : keeps_server (lift r).
Proof. destruct r; [apply keeps_server_raise | apply keeps_server_ret]. Qed.




Lemma keeps_server_requests_post (rq : request) : keeps_server (requests_post rq).
Proof.
  intros w r w'. unfold requests_post.
  destruct (server w (clock w) rq); intros [= _ <-]; reflexivity.
Qed.

Lemma keeps_server_time_sleep (seconds : Z) : keeps_server (time_sleep seconds).
Proof.
  intros w r w'. unfold time_sleep.
  destruct (seconds <? 0); intros [= _ <-]; reflexivity.
Qed.

Lemma keeps_server_logger_log (level msg : string) :
  keeps_server (logger_log level msg).
Proof. intros w r w' [= _ <-]. reflexivity. Qed.

Create HintDb keeps_server.
#[local] Hint Resolve keeps_server_ret keeps_server_raise keeps_server_lift
  keeps_server_requests_post keeps_server_time_sleep keeps_server_logger_log
  : keeps_server.


(** *** What the kept files are *)

Section Kept.
Context `{Libs}.





Lemma file_init_local (w : world) (r : Response) :
  server w (clock w) (file_version_request local_file_loader) = Answers r ->
  ok r = true ->
  ipfs_file.__init__ false None None false w
  = (Val local_file_loader,
     advance 1 [EPost (file_version_request local_file_loader)] w).
Proof.
  intros Hans Hok. unfold ipfs_file.__init__. rewrite andb_false_l. cbv zeta.
  rewrite bind_run. unfold ipfs_file.check_daemon_running. fold_attempt.
  erewrite (retry_answered_first _ _ _ _ _ w r tt);
    [reflexivity | exact Hans | simpl; lia |].
  now rewrite Hok.
Qed.

End Kept.

(** *** A directory of leaf files *)

Section LeafFiles.
Context `{Libs}.
Variable self : ipfs_directory.IPFSDirectoryDataLoader.
Variable store : gmap string (list link).
Hypothesis Hretries : (0 < Z.to_nat (ipfs_directory.max_retries self))%nat.





End LeafFiles.

(** *** The example directory *)



Lemma file_failures_are_skipped_witness :
  let all_files := [("QmNotes", "notes.txt"); ("QmPhoto", "photo.png")] in
  let w1 := advance 3 (dag_posts local_directory_loader ["QmDir"; "QmNotes"; "QmPhoto"])
              example_world in
  let w2 := advance 1 [EPost (file_version_request local_file_loader)] w1 in
  ipfs_directory.recursive_dag_get local_directory_loader 2 "QmDir" example_world
  = (Val all_files, w1)
  /\ ipfs_file.__init__ false None None false w1 = (Val local_file_loader, w2)
  /\ exists kept w3,
       @ipfs_directory.load example_libs local_directory_loader 2 "QmDir" example_world
       = (Val (results_of kept), w3)
       /\ @loads example_libs local_file_loader all_files w2 kept w3.
Proof.
  intros all_files w1 w2.
  assert (Hfiles : ipfs_directory.recursive_dag_get local_directory_loader 2 "QmDir"
                     example_world = (Val all_files, w1))
    by (vm_compute; reflexivity).
  assert (Hinit : ipfs_file.__init__ false None None false w1
                  = (Val local_file_loader, w2))
    by (vm_compute; reflexivity).
  split; [exact Hfiles|]. split; [exact Hinit|].
  exact (@file_failures_are_skipped example_libs local_directory_loader 2 "QmDir"
           example_world w1 w2 all_files local_file_loader Hfiles Hinit).
Defined.







(** *** Examples of roots with two links *)

Lemma some_name_contains_existsb (sub : string) (links : list link) :
  some_name_contains sub links
  <-> existsb (fun l => match Name l with
                        | Some name => str_in sub name
                        | None => false
                        end) links = true.
Proof.
  rewrite existsb_exists. unfold some_name_contains. split.
  - intros (l & name & Hin & Hname & Hocc). exists l. split; [exact Hin|].
    rewrite Hname. now apply str_in_occurs.
  - intros (l & Hin & Hl). destruct (Name l) as [name|] eqn:Hname; [|discriminate].
    exists l, name. repeat split; try assumption. now apply str_in_occurs.
Qed.

Lemma dag_daemon_resolves (links : list link) (rq : request) :
  resolves_to (fresh (dag_daemon links)) rq links.
Proof. eexists _, _. repeat split. Qed.

Lemma restore_needs_index_and_docstore_witness :
  let no_index := [named_link "QmA" "weights.bin"; named_link "QmB" "tmp.docstore"] in
  let no_docstore := [named_link "QmA" "tmp.index"; named_link "QmB" "notes.txt"] in
  (~ some_name_contains "index" no_index
   /\ @ipfs.get_vectorstore_from_ipfs example_libs local_utils "QmStore"
        (fresh (dag_daemon no_index))
      = (Raise (UnboundLocalError "index_hash"),
         advance 1 [EPost (dag_root_request local_utils "QmStore")]
           (fresh (dag_daemon no_index))))
  /\ (some_name_contains "index" no_docstore
      /\ ~ some_name_contains "docstore" no_docstore
      /\ @ipfs.get_vectorstore_from_ipfs example_libs local_utils "QmStore"
           (fresh (dag_daemon no_docstore))
         = (Raise (UnboundLocalError "docstore_hash"),
            advance 1 [EPost (dag_root_request local_utils "QmStore")]
              (fresh (dag_daemon no_docstore)))).
Proof.
  intros no_index no_docstore.
  assert (Hwf : forall cid name, well_formed (named_link cid name))
    by (intros cid name; now exists name, cid).
  assert (H1 : ~ some_name_contains "index" no_index)
    by (rewrite some_name_contains_existsb; discriminate).
  assert (H2 : some_name_contains "index" no_docstore)
    by (now rewrite some_name_contains_existsb).
  assert (H3 : ~ some_name_contains "docstore" no_docstore)
    by (rewrite some_name_contains_existsb; discriminate).
  split.
  - split; [exact H1|].
    destruct (@restore_needs_index_and_docstore example_libs local_utils "QmStore"
                (fresh (dag_daemon no_index))) as [Hfails _].
    destruct (Hfails no_index (dag_daemon_resolves _ _) eq_refl) as [Hindex _].
    + repeat constructor; apply Hwf.
    + exact (Hindex H1).
  - split; [exact H2|]. split; [exact H3|].
    destruct (@restore_needs_index_and_docstore example_libs local_utils "QmStore"
                (fresh (dag_daemon no_docstore))) as [Hfails _].
    destruct (Hfails no_docstore (dag_daemon_resolves _ _) eq_refl) as [_ Hdocstore].
    + repeat constructor; apply Hwf.
    + exact (Hdocstore H2 H3).
Defined.

(** ** More on the retry loops *)

Lemma retry_other_failure {A B} (rq : request) (delay : Z)
    (treat : Response -> M (option A)) (finish : option A -> M B)
    (k n : nat) (w : world) (e : exn) :
  fails_then_breaks w rq k e ->
  0 <= delay -> (k < n)%nat ->
  (for_range n (attempt rq delay treat) ≫= finish) w
  = (Raise e, answered_world rq delay k w).
Proof.
  intros (Hfail & Hbreak & Hconn) Hdelay Hk.
  replace n with (k + S (n - S k))%nat at 1 by lia.
  rewrite bind_run, for_range_connection_failures by assumption.
  rewrite for_range_S, (attempt_other_failure _ _ _ _ e)
    by (rewrite ?server_advance, ?clock_advance; assumption).
  unfold answered_world. now rewrite advance_advance.
Qed.

Section RetryOutcomes.
Context `{Libs}.

(** X1.  Connection failures are ridden out: if the first [k] posts are
    refused, with [k] below [max_retries], and the next one is answered with
    status 200, the DAG fetch returns that answer and each daemon check
    returns normally, after [k] sleeps and [k + 1] posts (and one debug
    record when [debug] is set). *)
Theorem retry_succeeds_after_connection_failures :
  (forall self ipfs_hash w k r,
     fails_then_answers w (dag_request self ipfs_hash) k r ->
     (k < Z.to_nat (ipfs_directory.max_retries self))%nat ->
     0 <= ipfs_directory.retry_delay self ->
     status_code r = 200 ->
     ipfs_directory.get_dag_get self ipfs_hash w
     = (Val r, answered_world (dag_request self ipfs_hash)
                 (ipfs_directory.retry_delay self) k w))
  /\ (forall self w k r,
        fails_then_answers w (directory_version_request self) k r ->
        (k < Z.to_nat (ipfs_directory.max_retries self))%nat ->
        0 <= ipfs_directory.retry_delay self ->
        status_code r = 200 ->
        ipfs_directory.check_daemon_running self w
        = (Val tt,
           advance 0 (debug_events (ipfs_directory.debug self)
                        (ipfs_directory.version_url self))
             (answered_world (directory_version_request self)
                (ipfs_directory.retry_delay self) k w)))
  /\ (forall self w k r,
        fails_then_answers w (file_version_request self) k r ->
        (k < Z.to_nat (ipfs_file.max_retries self))%nat ->
        0 <= ipfs_file.retry_delay self ->
        ok r = true ->
        ipfs_file.check_daemon_running self w
        = (Val tt,
           advance 0 (debug_events (ipfs_file.debug self) (ipfs_file.version_url self))
             (answered_world (file_version_request self)
                (ipfs_file.retry_delay self) k w)))
  /\ (forall self w k r,
        fails_then_answers w (utils_version_request self) k r ->
        (k < Z.to_nat (ipfs.max_retries self))%nat ->
        0 <= ipfs.retry_delay self ->
        ok r = true ->
        ipfs.check_daemon_running self w
        = (Val tt,
           advance 0 (debug_events (ipfs.debug self) (ipfs.version_url self))
             (answered_world (utils_version_request self) (ipfs.retry_delay self) k w))).
Proof.
  split; [|split; [|split]].
  - intros self ipfs_hash w k r [Hfail Hans] Hk Hdelay Hstatus.
    unfold ipfs_directory.get_dag_get. fold_attempt.
    rewrite (retry_answered _ _ _ _ k _ w r) by assumption.
    now rewrite Hstatus.
  - intros self w k r [Hfail Hans] Hk Hdelay Hstatus.
    unfold ipfs_directory.check_daemon_running. fold_attempt.
    rewrite (retry_answered _ _ _ _ k _ w r) by assumption.
    rewrite Hstatus, Z.eqb_refl, bind_run. unfold debug_events.
    destruct (ipfs_directory.debug self); [reflexivity|].
    unfold ret. now rewrite advance_0_nil.
  - intros self w k r [Hfail Hans] Hk Hdelay Hok.
    unfold ipfs_file.check_daemon_running. fold_attempt.
    rewrite (retry_answered _ _ _ _ k _ w r) by assumption.
    rewrite Hok, bind_run. unfold debug_events.
    destruct (ipfs_file.debug self); [reflexivity|].
    unfold ret. now rewrite advance_0_nil.
  - intros self w k r [Hfail Hans] Hk Hdelay Hok.
    unfold ipfs.check_daemon_running. fold_attempt.
    rewrite (retry_answered _ _ _ _ k _ w r) by assumption.
    rewrite Hok, bind_run. unfold debug_events.
    destruct (ipfs.debug self); [reflexivity|].
    unfold ret. now rewrite advance_0_nil.
Qed.

(** X2.  An exception of [requests.post] that is no connection error (a read
    timeout, say) is not retried: after [k] refused posts it leaves each of
    the five retry loops at once, without a sleep, whatever [max_retries]
    would still allow. *)
Theorem other_request_errors_are_not_retried :
  (forall self ipfs_hash w k e,
     fails_then_breaks w (dag_request self ipfs_hash) k e ->
     (k < Z.to_nat (ipfs_directory.max_retries self))%nat ->
     0 <= ipfs_directory.retry_delay self ->
     ipfs_directory.get_dag_get self ipfs_hash w
     = (Raise e, answered_world (dag_request self ipfs_hash)
                   (ipfs_directory.retry_delay self) k w))
  /\ (forall self ipfs_hash w k e,
        fails_then_breaks w (cat_request self ipfs_hash) k e ->
        (k < Z.to_nat (ipfs_file.max_retries self))%nat ->
        0 <= ipfs_file.retry_delay self ->
        ipfs_file.load self ipfs_hash w
        = (Raise e, answered_world (cat_request self ipfs_hash)
                      (ipfs_file.retry_delay self) k w))
  /\ (forall self w k e,
        fails_then_breaks w (directory_version_request self) k e ->
        (k < Z.to_nat (ipfs_directory.max_retries self))%nat ->
        0 <= ipfs_directory.retry_delay self ->
        ipfs_directory.check_daemon_running self w
        = (Raise e, answered_world (directory_version_request self)
                      (ipfs_directory.retry_delay self) k w))
  /\ (forall self w k e,
        fails_then_breaks w (file_version_request self) k e ->
        (k < Z.to_nat (ipfs_file.max_retries self))%nat ->
        0 <= ipfs_file.retry_delay self ->
        ipfs_file.check_daemon_running self w
        = (Raise e, answered_world (file_version_request self)
                      (ipfs_file.retry_delay self) k w))
  /\ (forall self w k e,
        fails_then_breaks w (utils_version_request self) k e ->
        (k < Z.to_nat (ipfs.max_retries self))%nat ->
        0 <= ipfs.retry_delay self ->
        ipfs.check_daemon_running self w
        = (Raise e, answered_world (utils_version_request self)
                      (ipfs.retry_delay self) k w)).
Proof.
  split; [|split; [|split; [|split]]].
  - intros self ipfs_hash w k e Hbreak Hk Hdelay.
    unfold ipfs_directory.get_dag_get. fold_attempt.
    now apply retry_other_failure.
  - intros self ipfs_hash w k e Hbreak Hk Hdelay.
    unfold ipfs_file.load. fold_attempt.
    now apply retry_other_failure.
  - intros self w k e Hbreak Hk Hdelay.
    unfold ipfs_directory.check_daemon_running. fold_attempt.
    now apply retry_other_failure.
  - intros self w k e Hbreak Hk Hdelay.
    unfold ipfs_file.check_daemon_running. fold_attempt.
    now apply retry_other_failure.
  - intros self w k e Hbreak Hk Hdelay.
    unfold ipfs.check_daemon_running. fold_attempt.
    now apply retry_other_failure.
Qed.

End RetryOutcomes.

Lemma refused_twice_then_200_answers (rq : request) :
  fails_then_answers (fresh refused_twice_then_200) rq 2
    {| status_code := 200; content := []; json_body := None |}.
Proof.
  split; [|reflexivity]. intros i Hi. simpl in Hi.
  destruct i as [|[|i]]; [eexists; split; reflexivity .. | lia].
Qed.

Lemma refused_twice_then_timeout_breaks (rq : request) :
  fails_then_breaks (fresh refused_twice_then_timeout) rq 2
    (LibraryError "ReadTimeout" "Read timed out.").
Proof.
  split; [|split; reflexivity]. intros i Hi. simpl in Hi.
  destruct i as [|[|i]]; [eexists; split; reflexivity .. | lia].
Qed.

Lemma retry_succeeds_after_connection_failures_witness :
  let w := fresh refused_twice_then_200 in
  let r := {| status_code := 200; content := []; json_body := None |} in
  ipfs_directory.get_dag_get local_directory_loader "QmRoot" w
  = (Val r, answered_world (dag_request local_directory_loader "QmRoot") 1 2 w)
  /\ ipfs_directory.check_daemon_running local_directory_loader w
     = (Val tt, advance 0 []
                  (answered_world (directory_version_request local_directory_loader)
                     1 2 w))
  /\ ipfs_file.check_daemon_running local_file_loader w
     = (Val tt, advance 0 []
                  (answered_world (file_version_request local_file_loader) 1 2 w))
  /\ ipfs.check_daemon_running local_utils w
     = (Val tt, advance 0 []
                  (answered_world (utils_version_request local_utils) 1 2 w)).
Proof.
  intros w r.
  destruct retry_succeeds_after_connection_failures as (Hdag & Hdir & Hfile & Hutils).
  split; [|split; [|split]].
  - apply (Hdag local_directory_loader "QmRoot" w 2%nat r
             (refused_twice_then_200_answers _)); [simpl; lia | simpl; lia | reflexivity].
  - apply (Hdir local_directory_loader w 2%nat r
             (refused_twice_then_200_answers _)); [simpl; lia | simpl; lia | reflexivity].
  - apply (Hfile local_file_loader w 2%nat r
             (refused_twice_then_200_answers _)); [simpl; lia | simpl; lia | reflexivity].
  - apply (Hutils local_utils w 2%nat r
             (refused_twice_then_200_answers _)); [simpl; lia | simpl; lia | reflexivity].
Defined.

Lemma other_request_errors_are_not_retried_witness :
  let w := fresh refused_twice_then_timeout in
  let e := LibraryError "ReadTimeout" "Read timed out." in
  ipfs_directory.get_dag_get local_directory_loader "QmRoot" w
  = (Raise e, answered_world (dag_request local_directory_loader "QmRoot") 1 2 w)
  /\ @ipfs_file.load example_libs local_file_loader "QmFile" w
     = (Raise e, answered_world (cat_request local_file_loader "QmFile") 1 2 w)
  /\ ipfs_directory.check_daemon_running local_directory_loader w
     = (Raise e, answered_world (directory_version_request local_directory_loader) 1 2 w)
  /\ ipfs_file.check_daemon_running local_file_loader w
     = (Raise e, answered_world (file_version_request local_file_loader) 1 2 w)
  /\ ipfs.check_daemon_running local_utils w
     = (Raise e, answered_world (utils_version_request local_utils) 1 2 w).
Proof.
  intros w e.
  destruct (@other_request_errors_are_not_retried example_libs)
    as (Hdag & Hload & Hdir & Hfile & Hutils).
  split; [|split; [|split; [|split]]].
  - apply (Hdag local_directory_loader "QmRoot" w 2%nat e
             (refused_twice_then_timeout_breaks _)); simpl; lia.
  - apply (Hload local_file_loader "QmFile" w 2%nat e
             (refused_twice_then_timeout_breaks _)); simpl; lia.
  - apply (Hdir local_directory_loader w 2%nat e
             (refused_twice_then_timeout_breaks _)); simpl; lia.
  - apply (Hfile local_file_loader w 2%nat e
             (refused_twice_then_timeout_breaks _)); simpl; lia.
  - apply (Hutils local_utils w 2%nat e
             (refused_twice_then_timeout_breaks _)); simpl; lia.
Defined.

(** ** Facts about every run *)

(** *** What is returned *)

Lemma returns_ret {A} (a : A) (post : A -> Prop) : post a -> returns (ret a) post.
Proof. intros Ha w a' w' [= <- _]. exact Ha. Qed.

Lemma returns_raise {A} (e : exn) (post : A -> Prop) : returns (raise e) post.
Proof. intros w a w'. discriminate. Qed.

Lemma returns_lift {A} (r : exn + A) (post : A -> Prop) :
  (forall a, r = inr a -> post a) -> returns (lift r) post.
Proof.
  destruct r as [e|a]; intros Hr; [apply returns_raise | apply returns_ret; auto].
Qed.

Lemma returns_bind {A B} (m : M A) (k : A -> M B) (mid : A -> Prop)
    (post : B -> Prop) :
  returns m mid -> (forall a, mid a -> returns (k a) post) ->
  returns (m ≫= k) post.
Proof.
  intros Hm Hk w b w'. rewrite bind_run.
  destruct (m w) as [[a|e|] w1] eqn:Hrun; [|discriminate..].
  intros Hkrun. exact (Hk a (Hm _ _ _ Hrun) _ _ _ Hkrun).
Qed.

Lemma returns_any {A} (m : M A) : returns m (fun _ => True).
Proof. intros w a w' _. exact I. Qed.

Lemma returns_try_except {A} (body : M A) (catches : exn -> bool)
    (handler : exn -> M A) (post : A -> Prop) :
  returns body post -> (forall e, returns (handler e) post) ->
  returns (try_except body catches handler) post.
Proof.
  intros Hbody Hhandler w a w'. unfold try_except.
  destruct (body w) as [[a'|e|] w1] eqn:Hrun.
  - intros [= <- _]. exact (Hbody _ _ _ Hrun).
  - destruct (catches e); [apply Hhandler | discriminate].
  - discriminate.
Qed.

Lemma returns_for_range {A} (n : nat) (body : M (option A)) (post : A -> Prop) :
  returns body (fun o => forall a, o = Some a -> post a) ->
  returns (for_range n body) (fun o => forall a, o = Some a -> post a).
Proof.
  intros Hbody. induction n as [|n IH].
  - apply returns_ret. discriminate.
  - simpl. eapply returns_bind; [exact Hbody|].
    intros [a|] Ha; [apply returns_ret; exact Ha | exact IH].
Qed.

Lemma returns_for_each {X S} (xs : list X) (body : X -> S -> M S)
    (inv : S -> Prop) (s : S) :
  inv s -> (forall x s', In x xs -> inv s' -> returns (body x s') inv) ->
  returns (for_each xs body s) inv.
Proof.
  revert s. induction xs as [|x xs IH]; intros s Hs Hbody.
  - now apply returns_ret.
  - simpl. eapply returns_bind; [apply Hbody; [now left | exact Hs]|].
    intros s' Hs'. apply IH; [exact Hs'|].
    intros x' s'' Hin. apply Hbody. now right.
Qed.

(** *** How many requests are posted *)

Lemma posts_at_most_weaken {A} (n n' : nat) (m : M A) :
  (n <= n')%nat -> posts_at_most n m -> posts_at_most n' m.
Proof. intros Hle Hm w r w' Hrun. apply Hm in Hrun. lia. Qed.

Lemma posts_at_most_ret {A} (a : A) : posts_at_most 0 (ret a).
Proof. intros w r w' [= _ <-]. lia. Qed.

Lemma posts_at_most_raise {A} (e : exn) : posts_at_most 0 (@raise A e).
Proof. intros w r w' [= _ <-]. lia. Qed.

Lemma posts_at_most_lift {A} (r : exn + A) : posts_at_most 0 (lift r).
Proof. destruct r; [apply posts_at_most_raise | apply posts_at_most_ret]. Qed.

Lemma posts_at_most_bind {A B} (n1 n2 : nat) (m : M A) (k : A -> M B) :
  posts_at_most n1 m -> (forall a, posts_at_most n2 (k a)) ->
  posts_at_most (n1 + n2) (m ≫= k).
Proof.
  intros Hm Hk w r w'. rewrite bind_run.
  destruct (m w) as [[a|e|] w1] eqn:Hrun; apply Hm in Hrun.
  - intros Hkrun. apply Hk in Hkrun. lia.
  - intros [= _ <-]. lia.
  - intros [= _ <-]. lia.
Qed.

Lemma posts_at_most_try_except {A} (n1 n2 : nat) (body : M A)
    (catches : exn -> bool) (handler : exn -> M A) :
  posts_at_most n1 body -> (forall e, posts_at_most n2 (handler e)) ->
  posts_at_most (n1 + n2) (try_except body catches handler).
Proof.
  intros Hbody Hhandler w r w'. unfold try_except.
  destruct (body w) as [[a|e|] w1] eqn:Hrun; apply Hbody in Hrun.
  - intros [= _ <-]. lia.
  - destruct (catches e).
    + intros Hh. apply Hhandler in Hh. lia.
    + intros [= _ <-]. lia.
  - intros [= _ <-]. lia.
Qed.

Lemma posts_at_most_for_range {A} (k n : nat) (body : M (option A)) :
  posts_at_most k body -> posts_at_most (n * k) (for_range n body).
Proof.
  intros Hbody. induction n as [|n IH]; [apply posts_at_most_ret|].
  simpl. apply posts_at_most_bind; [exact Hbody|].
  intros [a|]; [|exact IH].
  eapply posts_at_most_weaken; [|apply posts_at_most_ret]. lia.
Qed.

Lemma posts_at_most_requests_post (rq : request) : posts_at_most 1 (requests_post rq).
Proof.
  intros w r w'. unfold requests_post.
  destruct (server w (clock w) rq); intros [= _ <-]; simpl; lia.
Qed.

Lemma posts_at_most_time_sleep (seconds : Z) : posts_at_most 0 (time_sleep seconds).
Proof.
  intros w r w'. unfold time_sleep.
  destruct (seconds <? 0); intros [= _ <-]; simpl; lia.
Qed.

Lemma posts_at_most_logger_log (level msg : string) :
  posts_at_most 0 (logger_log level msg).
Proof. intros w r w' [= _ <-]. simpl. lia. Qed.

(** One round of a retry loop posts once, if its treatment posts nothing. *)
Lemma posts_at_most_attempt {A} (rq : request) (delay : Z)
    (treat : Response -> M (option A)) :
  (forall response, posts_at_most 0 (treat response)) ->
  posts_at_most 1 (attempt rq delay treat).
Proof.
  intros Htreat. unfold attempt.
  change 1%nat with ((1 + 0) + 0)%nat. apply posts_at_most_try_except.
  - apply posts_at_most_bind; [apply posts_at_most_requests_post | exact Htreat].
  - intros e. change 0%nat with (0 + 0)%nat.
    apply posts_at_most_bind; [apply posts_at_most_time_sleep|].
    intros _. apply posts_at_most_ret.
Qed.

Lemma posts_at_most_retry {A B} (rq : request) (delay : Z)
    (treat : Response -> M (option A)) (finish : option A -> M B) (n : nat) :
  (forall response, posts_at_most 0 (treat response)) ->
  (forall o, posts_at_most 0 (finish o)) ->
  posts_at_most n (for_range n (attempt rq delay treat) ≫= finish).
Proof.
  intros Htreat Hfinish.
  replace n with (n * 1 + 0)%nat at 1 by lia.
  apply posts_at_most_bind; [|exact Hfinish].
  now apply posts_at_most_for_range, posts_at_most_attempt.
Qed.

(** *** What is appended to the trace *)

Lemma emits_weaken {A} (allowed allowed' : event -> Prop) (m : M A) :
  (forall ev, allowed ev -> allowed' ev) -> emits allowed m -> emits allowed' m.
Proof.
  intros Himp Hm w r w' Hrun. destruct (Hm _ _ _ Hrun) as (evs & -> & Hall).
  exists evs. split; [reflexivity|]. eapply Forall_impl; eassumption.
Qed.

Lemma emits_nothing (allowed : event -> Prop) (w : world) :
  exists evs, w = advance (count_posts evs) evs w /\ Forall allowed evs.
Proof. exists []. split; [now rewrite advance_0_nil | constructor]. Qed.

Lemma emits_ret {A} (allowed : event -> Prop) (a : A) : emits allowed (ret a).
Proof. intros w r w' [= _ <-]. apply emits_nothing. Qed.

Lemma emits_raise {A} (allowed : event -> Prop) (e : exn) : emits allowed (@raise A e).
Proof. intros w r w' [= _ <-]. apply emits_nothing. Qed.

Lemma emits_out_of_fuel {A} (allowed : event -> Prop) :
  emits allowed (@out_of_fuel A).
Proof. intros w r w' [= _ <-]. apply emits_nothing. Qed.

Lemma emits_lift {A} (allowed : event -> Prop) (r : exn + A) : emits allowed (lift r).
Proof. destruct r; [apply emits_raise | apply emits_ret]. Qed.

Lemma emits_then (allowed : event -> Prop) (w w1 w' : world) :
  (exists evs, w1 = advance (count_posts evs) evs w /\ Forall allowed evs) ->
  (exists evs, w' = advance (count_posts evs) evs w1 /\ Forall allowed evs) ->
  exists evs, w' = advance (count_posts evs) evs w /\ Forall allowed evs.
Proof.
  intros (evs1 & -> & H1) (evs2 & -> & H2). exists (evs1 ++ evs2)%list. split.
  - now rewrite advance_advance, count_posts_app.
  - apply Forall_app. auto.
Qed.

Lemma emits_bind_returns {A B} (allowed : event -> Prop) (mid : A -> Prop)
    (m : M A) (k : A -> M B) :
  emits allowed m -> returns m mid -> (forall a, mid a -> emits allowed (k a)) ->
  emits allowed (m ≫= k).
Proof.
  intros Hm Hmid Hk w r w'. rewrite bind_run.
  destruct (m w) as [[a|e|] w1] eqn:Hrun.
  - intros Hkrun. eapply emits_then; [exact (Hm _ _ _ Hrun)|].
    exact (Hk a (Hmid _ _ _ Hrun) _ _ _ Hkrun).
  - intros [= _ <-]. exact (Hm _ _ _ Hrun).
  - intros [= _ <-]. exact (Hm _ _ _ Hrun).
Qed.

Lemma emits_bind {A B} (allowed : event -> Prop) (m : M A) (k : A -> M B) :
  emits allowed m -> (forall a, emits allowed (k a)) -> emits allowed (m ≫= k).
Proof.
  intros Hm Hk. apply (emits_bind_returns allowed (fun _ => True));
    [exact Hm | apply returns_any | auto].
Qed.

Lemma emits_try_except {A} (allowed : event -> Prop) (body : M A)
    (catches : exn -> bool) (handler : exn -> M A) :
  emits allowed body -> (forall e, emits allowed (handler e)) ->
  emits allowed (try_except body catches handler).
Proof.
  intros Hbody Hhandler w r w'. unfold try_except.
  destruct (body w) as [[a|e|] w1] eqn:Hrun.
  - intros [= _ <-]. exact (Hbody _ _ _ Hrun).
  - destruct (catches e).
    + intros Hh. eapply emits_then; [exact (Hbody _ _ _ Hrun)|].
      exact (Hhandler _ _ _ _ Hh).
    + intros [= _ <-]. exact (Hbody _ _ _ Hrun).
  - intros [= _ <-]. exact (Hbody _ _ _ Hrun).
Qed.

Lemma emits_for_range {A} (allowed : event -> Prop) (n : nat) (body : M (option A)) :
  emits allowed body -> emits allowed (for_range n body).
Proof.
  intros Hbody. induction n as [|n IH]; [apply emits_ret|].
  simpl. apply emits_bind; [exact Hbody|].
  intros [a|]; [apply emits_ret | exact IH].
Qed.

Lemma emits_for_each {X S} (allowed : event -> Prop) (xs : list X)
    (body : X -> S -> M S) (s : S) :
  (forall x s', In x xs -> emits allowed (body x s')) ->
  emits allowed (for_each xs body s).
Proof.
  revert s. induction xs as [|x xs IH]; intros s Hbody; [apply emits_ret|].
  simpl. apply emits_bind; [apply Hbody; now left|].
  intros s'. apply IH. intros x' s'' Hin. apply Hbody. now right.
Qed.

Lemma emits_requests_post (allowed : event -> Prop) (rq : request) :
  allowed (EPost rq) -> emits allowed (requests_post rq).
Proof.
  intros Hrq w r w' Hrun. exists [EPost rq]. split; [|now repeat constructor].
  unfold requests_post in Hrun.
  destruct (server w (clock w) rq); injection Hrun as _ <-; reflexivity.
Qed.

Lemma emits_time_sleep (allowed : event -> Prop) (seconds : Z) :
  allowed (ESleep seconds) -> emits allowed (time_sleep seconds).
Proof.
  intros Hsleep w r w'. unfold time_sleep. destruct (seconds <? 0).
  - intros [= _ <-]. apply emits_nothing.
  - intros [= _ <-]. exists [ESleep seconds]. split; [reflexivity|].
    now repeat constructor.
Qed.

Lemma emits_logger_log (allowed : event -> Prop) (level msg : string) :
  allowed (ELog level msg) -> emits allowed (logger_log level msg).
Proof.
  intros Hlog w r w' [= _ <-]. exists [ELog level msg].
  split; [reflexivity | now repeat constructor].
Qed.

Lemma emits_attempt {A} (allowed : event -> Prop) (rq : request) (delay : Z)
    (treat : Response -> M (option A)) :
  allowed (EPost rq) -> allowed (ESleep delay) ->
  (forall response, emits allowed (treat response)) ->
  emits allowed (attempt rq delay treat).
Proof.
  intros Hrq Hsleep Htreat. unfold attempt. apply emits_try_except.
  - apply emits_bind; [now apply emits_requests_post | exact Htreat].
  - intros e. apply emits_bind; [now apply emits_time_sleep|].
    intros _. apply emits_ret.
Qed.

(** The clock of a run that [emits] tells how many requests it posted. *)
Lemma emits_posts_at_most {A} (allowed : event -> Prop) (n : nat) (m : M A)
    (w w' : world) (r : result A) :
  emits allowed m -> posts_at_most n m -> m w = (r, w') ->
  exists evs,
    w' = advance (count_posts evs) evs w /\ Forall allowed evs
    /\ (count_posts evs <= n)%nat.
Proof.
  intros Hemits Hbound Hrun.
  destruct (Hemits _ _ _ Hrun) as (evs & Hw' & Hall).
  exists evs. repeat split; try assumption.
  apply Hbound in Hrun. rewrite Hw', clock_advance in Hrun. lia.
Qed.

(** *** The retry loops, whatever the daemon does *)

Lemma emits_retry {A B} (allowed : event -> Prop) (rq : request) (delay : Z)
    (treat : Response -> M (option A)) (finish : option A -> M B) (n : nat) :
  allowed (EPost rq) -> allowed (ESleep delay) ->
  (forall response, emits allowed (treat response)) ->
  (forall o, emits allowed (finish o)) ->
  emits allowed (for_range n (attempt rq delay treat) ≫= finish).
Proof.
  intros Hrq Hsleep Htreat Hfinish.
  apply emits_bind; [|exact Hfinish].
  now apply emits_for_range, emits_attempt.
Qed.

Lemma posts_at_most_finish {A} (o : option A) (e : exn) :
  posts_at_most 0 (match o with Some a => ret a | None => raise e end).
Proof. destruct o; [apply posts_at_most_ret | apply posts_at_most_raise]. Qed.

Lemma emits_finish {A} (allowed : event -> Prop) (o : option A) (e : exn) :
  emits allowed (match o with Some a => ret a | None => raise e end).
Proof. destruct o; [apply emits_ret | apply emits_raise]. Qed.

(** X3.  Whatever [get_dag_get] returns is an answer with status 200: any
    other status has been turned into an exception.  (The caller's own check
    of the status therefore never fails.) *)
Theorem get_dag_get_returns_only_status_200
    (self : ipfs_directory.IPFSDirectoryDataLoader) (ipfs_hash : string)
    (w w' : world) (response : Response) :
  ipfs_directory.get_dag_get self ipfs_hash w = (Val response, w') ->
  status_code response = 200.
Proof.
  revert w response w'.
  change (returns (ipfs_directory.get_dag_get self ipfs_hash)
            (fun response => status_code response = 200)).
  unfold ipfs_directory.get_dag_get.
  apply (returns_bind _ _ (fun o => forall r, o = Some r -> status_code r = 200)).
  - apply returns_for_range, returns_try_except.
    + eapply returns_bind; [apply returns_any|]. intros response _.
      destruct (Z.eqb_spec (status_code response) 200) as [Hstatus|_].
      * apply returns_ret. intros r [= <-]. exact Hstatus.
      * apply returns_raise.
    + intros e. eapply returns_bind; [apply returns_any|].
      intros _ _. apply returns_ret. discriminate.
  - intros [r|] Hr; [apply returns_ret; now apply Hr | apply returns_raise].
Qed.

Lemma get_dag_get_returns_only_status_200_witness :
  let r := {| status_code := 200; content := []; json_body := None |} in
  let w := fresh healthy_daemon in
  ipfs_directory.get_dag_get local_directory_loader "QmRoot" w
  = (Val r, advance 1 [EPost (dag_request local_directory_loader "QmRoot")] w)
  /\ status_code r = 200.
Proof.
  intros r w.
  assert (Hrun : ipfs_directory.get_dag_get local_directory_loader "QmRoot" w
                 = (Val r, advance 1 [EPost (dag_request local_directory_loader "QmRoot")] w))
    by (vm_compute; reflexivity).
  split; [exact Hrun|].
  exact (get_dag_get_returns_only_status_200 _ _ _ _ _ Hrun).
Defined.

Section RetryBounds.
Context `{Libs}.

(** X4.  Whatever the daemon does, a run of any of the five retry loops
    posts at most [max_retries] requests, all of them the loop's own
    request, and appends nothing to the trace but those posts, sleeps of
    [retry_delay] and its own log record. *)
Theorem retry_loops_stay_within_max_retries :
  (forall self ipfs_hash,
     posts_at_most (Z.to_nat (ipfs_directory.max_retries self))
       (ipfs_directory.get_dag_get self ipfs_hash)
     /\ emits (fun ev => ev = EPost (dag_request self ipfs_hash)
                         \/ ev = ESleep (ipfs_directory.retry_delay self))
          (ipfs_directory.get_dag_get self ipfs_hash))
  /\ (forall self ipfs_hash,
        posts_at_most (Z.to_nat (ipfs_file.max_retries self))
          (ipfs_file.load self ipfs_hash)
        /\ emits (fun ev => ev = EPost (cat_request self ipfs_hash)
                            \/ ev = ESleep (ipfs_file.retry_delay self)
                            \/ ev = ELog "ERROR"
                                      ("Failed to load file from IPFS with hash "
                                         ++ ipfs_hash))
             (ipfs_file.load self ipfs_hash))
  /\ (forall self,
        posts_at_most (Z.to_nat (ipfs_directory.max_retries self))
          (ipfs_directory.check_daemon_running self)
        /\ emits (fun ev => ev = EPost (directory_version_request self)
                            \/ ev = ESleep (ipfs_directory.retry_delay self)
                            \/ ev = ELog "DEBUG" ("IPFS daemon is running at "
                                      ++ ipfs_directory.version_url self))
             (ipfs_directory.check_daemon_running self))
  /\ (forall self,
        posts_at_most (Z.to_nat (ipfs_file.max_retries self))
          (ipfs_file.check_daemon_running self)
        /\ emits (fun ev => ev = EPost (file_version_request self)
                            \/ ev = ESleep (ipfs_file.retry_delay self)
                            \/ ev = ELog "DEBUG" ("IPFS daemon is running at "
                                      ++ ipfs_file.version_url self))
             (ipfs_file.check_daemon_running self))
  /\ (forall self,
        posts_at_most (Z.to_nat (ipfs.max_retries self))
          (ipfs.check_daemon_running self)
        /\ emits (fun ev => ev = EPost (utils_version_request self)
                            \/ ev = ESleep (ipfs.retry_delay self)
                            \/ ev = ELog "DEBUG" ("IPFS daemon is running at "
                                      ++ ipfs.version_url self))
             (ipfs.check_daemon_running self)).
Proof.
  split; [|split; [|split; [|split]]].
  - intros self ipfs_hash. unfold ipfs_directory.get_dag_get. fold_attempt. split.
    + apply posts_at_most_retry; [|intros o; apply posts_at_most_finish].
      intros response. destruct (status_code response =? 200);
        [apply posts_at_most_ret | apply posts_at_most_raise].
    + apply emits_retry; [now left | now right | | intros o; apply emits_finish].
      intros response. destruct (status_code response =? 200);
        [apply emits_ret | apply emits_raise].
  - intros self ipfs_hash. unfold ipfs_file.load. fold_attempt. split.
    + apply posts_at_most_retry; [|intros o; apply posts_at_most_finish].
      intros response. destruct (ok response).
      * change 0%nat with (0 + (0 + (0 + 0)))%nat.
        apply posts_at_most_bind; [apply posts_at_most_lift | intros file_type].
        apply posts_at_most_bind; [apply posts_at_most_lift | intros reader].
        apply posts_at_most_bind; [apply posts_at_most_lift | intros text].
        destruct text; apply posts_at_most_ret.
      * change 0%nat with (0 + 0)%nat.
        apply posts_at_most_bind; [apply posts_at_most_logger_log|].
        intros _. apply posts_at_most_ret.
    + apply emits_retry; [now left | now right; left | | intros o; apply emits_finish].
      intros response. destruct (ok response).
      * apply emits_bind; [apply emits_lift | intros file_type].
        apply emits_bind; [apply emits_lift | intros reader].
        apply emits_bind; [apply emits_lift | intros text].
        destruct text; apply emits_ret.
      * apply emits_bind; [apply emits_logger_log; now right; right|].
        intros _. apply emits_ret.
  - intros self. unfold ipfs_directory.check_daemon_running. fold_attempt. split.
    + apply posts_at_most_retry; [|intros [[]|]; [apply posts_at_most_ret
                                                  | apply posts_at_most_raise]].
      intros response. destruct (status_code response =? 200);
        [|apply posts_at_most_raise].
      change 0%nat with (0 + 0)%nat. apply posts_at_most_bind;
        [|intros _; apply posts_at_most_ret].
      destruct (ipfs_directory.debug self);
        [apply posts_at_most_logger_log | apply posts_at_most_ret].
    + apply emits_retry; [now left | now right; left | |
                          intros [[]|]; [apply emits_ret | apply emits_raise]].
      intros response. destruct (status_code response =? 200); [|apply emits_raise].
      apply emits_bind; [|intros _; apply emits_ret].
      destruct (ipfs_directory.debug self); [|apply emits_ret].
      apply emits_logger_log. now right; right.
  - intros self. unfold ipfs_file.check_daemon_running. fold_attempt. split.
    + apply posts_at_most_retry; [|intros [[]|]; [apply posts_at_most_ret
                                                  | apply posts_at_most_raise]].
      intros response. destruct (ok response); [|apply posts_at_most_raise].
      change 0%nat with (0 + 0)%nat. apply posts_at_most_bind;
        [|intros _; apply posts_at_most_ret].
      destruct (ipfs_file.debug self);
        [apply posts_at_most_logger_log | apply posts_at_most_ret].
    + apply emits_retry; [now left | now right; left | |
                          intros [[]|]; [apply emits_ret | apply emits_raise]].
      intros response. destruct (ok response); [|apply emits_raise].
      apply emits_bind; [|intros _; apply emits_ret].
      destruct (ipfs_file.debug self); [|apply emits_ret].
      apply emits_logger_log. now right; right.
  - intros self. unfold ipfs.check_daemon_running. fold_attempt. split.
    + apply posts_at_most_retry; [|intros [[]|]; [apply posts_at_most_ret
                                                  | apply posts_at_most_raise]].
      intros response. destruct (ok response); [|apply posts_at_most_raise].
      change 0%nat with (0 + 0)%nat. apply posts_at_most_bind;
        [|intros _; apply posts_at_most_ret].
      destruct (ipfs.debug self);
        [apply posts_at_most_logger_log | apply posts_at_most_ret].
    + apply emits_retry; [now left | now right; left | |
                          intros [[]|]; [apply emits_ret | apply emits_raise]].
      intros response. destruct (ok response); [|apply emits_raise].
      apply emits_bind; [|intros _; apply emits_ret].
      destruct (ipfs.debug self); [|apply emits_ret].
      apply emits_logger_log. now right; right.
Qed.

End RetryBounds.

(** ** Readers *)

Lemma append_assoc' (a b c : string) : (a ++ b) ++ c = a ++ (b ++ c).
Proof.
  induction a as [|x a IH]; [reflexivity|].
  change (String x ((a ++ b) ++ c) = String x (a ++ (b ++ c))). now rewrite IH.
Qed.

Lemma append_nil_r' (a : string) : a ++ "" = a.
Proof.
  induction a as [|x a IH]; [reflexivity|].
  change (String x (a ++ "") = String x a). now rewrite IH.
Qed.

Lemma fold_left_append {X} (f : X -> string) (xs : list X) (init : string) :
  fold_left (fun acc x => acc ++ f x) xs init = init ++ join (map f xs).
Proof.
  revert init. induction xs as [|x xs IH]; intros init.
  - simpl. now rewrite append_nil_r'.
  - change (fold_left (fun acc x => acc ++ f x) xs (init ++ f x)
            = init ++ (f x ++ join (map f xs))).
    now rewrite IH, append_assoc'.
Qed.

Lemma unchars_chars (s : string) : unchars (chars s) = s.
Proof.
  induction s as [|b s IH]; [reflexivity|].
  cbn [chars]. destruct (chars s) as [|[|b' c] cs].
  - cbn in *. now subst.
  - cbn in *. now subst.
  - destruct (is_continuation b'); cbn in *; now subst.
Qed.

Lemma chars_not_empty (s : string) : Forall (fun c => c <> "") (chars s).
Proof.
  induction s as [|b s IH]; [constructor|].
  cbn [chars]. destruct (chars s) as [|[|b' c] cs].
  - repeat constructor. discriminate.
  - constructor; [discriminate | exact IH].
  - destruct (is_continuation b').
    + inversion IH; subst. constructor; [discriminate | assumption].
    + constructor; [discriminate | exact IH].
Qed.

Lemma unchars_empty_iff (cs : list string) :
  Forall (fun c => c <> "") cs -> unchars cs = "" <-> cs = [].
Proof.
  intros Hcs. split; [|now intros ->].
  destruct Hcs as [|c cs Hc _]; [reflexivity|].
  destruct c; [contradiction | discriminate].
Qed.

Lemma lstrip_chars_Forall (P : string -> Prop) (cs : list string) :
  Forall P cs -> Forall P (lstrip_chars cs).
Proof.
  induction 1 as [|c cs Hc Hcs IH]; [constructor|].
  cbn [lstrip_chars]. destruct (is_space c); [exact IH | now constructor].
Qed.

Lemma rstrip_chars_Forall (P : string -> Prop) (cs : list string) :
  Forall P cs -> Forall P (rstrip_chars cs).
Proof.
  intros Hcs. unfold rstrip_chars.
  apply Forall_rev, lstrip_chars_Forall, Forall_rev, Hcs.
Qed.

Lemma lstrip_chars_nil_iff (cs : list string) :
  lstrip_chars cs = [] <-> forallb is_space cs = true.
Proof.
  induction cs as [|c cs IH]; [easy|].
  cbn [lstrip_chars forallb]. destruct (is_space c); [exact IH | split; discriminate].
Qed.

(** What [lstrip_chars] leaves does not begin with white space. *)
Lemma lstrip_chars_spaces (cs : list string) :
  forallb is_space (lstrip_chars cs) = true -> lstrip_chars cs = [].
Proof.
  induction cs as [|c cs IH]; [reflexivity|].
  cbn [lstrip_chars]. destruct (is_space c) eqn:Hc; [exact IH|].
  cbn [forallb]. now rewrite Hc.
Qed.

Lemma forallb_rev {A} (f : A -> bool) (l : list A) :
  forallb f (rev l) = forallb f l.
Proof.
  induction l as [|a l IH]; [reflexivity|].
  cbn. rewrite forallb_app, IH. cbn. now rewrite andb_true_r, andb_comm.
Qed.

Lemma rstrip_chars_nil_iff (cs : list string) :
  rstrip_chars cs = [] <-> forallb is_space cs = true.
Proof.
  unfold rstrip_chars. rewrite <- (forallb_rev is_space cs), <- lstrip_chars_nil_iff.
  split.
  - intros Hrev. apply (f_equal (@rev string)) in Hrev.
    now rewrite rev_involutive in Hrev.
  - now intros ->.
Qed.

(** [s.strip() == ""] exactly for the strings of white space. *)
Lemma strip_empty_iff (s : string) : strip s = "" <-> blank s = true.
Proof.
  unfold strip, blank.
  rewrite unchars_empty_iff
    by apply rstrip_chars_Forall, lstrip_chars_Forall, chars_not_empty.
  rewrite rstrip_chars_nil_iff. split.
  - intros Hspaces. now apply lstrip_chars_nil_iff, lstrip_chars_spaces.
  - intros Hspaces. apply lstrip_chars_nil_iff in Hspaces. now rewrite Hspaces.
Qed.

(** White space beyond ASCII is stripped as well: a no-break space after a
    key, an em space after a value. *)
Lemma strip_unicode_white_space :
  strip ("name" ++ utf8 0xA0) = "name"
  /\ strip (utf8 0x3000 ++ " Ada" ++ utf8 0x2003 ++ nl) = "Ada"
  /\ strip ("a" ++ utf8 0x2003 ++ "b") = "a" ++ utf8 0x2003 ++ "b"
  /\ blank (utf8 0x2003 ++ " " ++ utf8 0x85) = true
  /\ blank (utf8 0x200B) = false.
Proof. repeat split; vm_compute; reflexivity. Qed.

(** A cell whose key ends in a no-break space and whose value ends in an
    em space is rendered without them; a value of an em space alone is
    blank and is rendered as it is. *)
Lemma csv_cell_unicode_white_space :
  ipfs_file.csv_cell ("name" ++ utf8 0xA0) (CellStr ("Ada" ++ utf8 0x2003))
  = "name: Ada" ++ nl
  /\ ipfs_file.csv_cell (" note") (CellStr (utf8 0x2003))
     = " note: " ++ utf8 0x2003 ++ nl.
Proof. split; vm_compute; reflexivity. Qed.

Section Readers.
Context `{Libs}.

(** X5.  The text [pdf_reader] extracts is the texts of the pages in order,
    each followed by two newlines (so it is empty for a PDF without pages);
    an exception of the PDF library is passed on. *)
Theorem pdf_reader_joins_pages (response : Response) :
  (forall pages,
     PyPDF2_page_texts (content response) = inr pages ->
     ipfs_file.pdf_reader response
     = inr (ipfs_file.Text (join (map (fun page => page ++ nl ++ nl) pages))))
  /\ (forall e,
        PyPDF2_page_texts (content response) = inl e ->
        ipfs_file.pdf_reader response = inl e).
Proof.
  unfold ipfs_file.pdf_reader. split.
  - intros pages ->. simpl. now rewrite fold_left_append.
  - now intros e ->.
Qed.

(** X6.  [lazy_csv_loader] renders a cell as "key: value" and a newline.
    Key and value are stripped of surrounding white space (that of
    [str.strip]: the code points of [white_space], Unicode separators
    included) only when the value is a string that is not blank, that is,
    not made of such code points alone; a blank string and a value of any
    other type are rendered as they are, next to the key as it is. *)
Theorem csv_cell_strips_non_blank_strings (k : string) :
  (forall s, blank s = false ->
     ipfs_file.csv_cell k (CellStr s) = strip k ++ ": " ++ strip s ++ nl)
  /\ (forall s, blank s = true ->
        ipfs_file.csv_cell k (CellStr s) = k ++ ": " ++ s ++ nl)
  /\ (forall rendered,
        ipfs_file.csv_cell k (CellOther rendered) = k ++ ": " ++ rendered ++ nl).
Proof.
  unfold ipfs_file.csv_cell. repeat split.
  - intros s Hs. destruct (String.eqb_spec (strip s) "") as [Hempty|_]; [|reflexivity].
    apply strip_empty_iff in Hempty. congruence.
  - intros s Hs. apply strip_empty_iff in Hs. now rewrite Hs.
Qed.

Lemma row_text_fold (row : list (string * cell)) (init : string) :
  fold_left (fun content '(k, v) => content ++ ipfs_file.csv_cell k v) row init
  = init ++ row_text row.
Proof.
  revert init. induction row as [|[k v] row IH]; intros init.
  - simpl. now rewrite append_nil_r'.
  - change (fold_left (fun content '(k, v) => content ++ ipfs_file.csv_cell k v)
              row (init ++ ipfs_file.csv_cell k v)
            = init ++ (ipfs_file.csv_cell k v ++ row_text row)).
    now rewrite IH, append_assoc'.
Qed.

(** The documents of a data frame: one per row, in order. *)
Lemma lazy_csv_loader_rows (df : DataFrame) (i : nat) (index : value)
    (row : list (string * cell)) :
  df !! i = Some (index, row) ->
  exists doc,
    ipfs_file.lazy_csv_loader df !! i = Some doc
    /\ page_content doc = row_text row
    /\ metadata doc = {[ "index" := index; "file_type" := VStr "text/csv" ]}.
Proof.
  unfold ipfs_file.lazy_csv_loader. revert i.
  induction df as [|[index' row'] df IH]; intros [|i] Hrow; try discriminate.
  - injection Hrow as -> ->. eexists. split; [reflexivity|].
    split; [|reflexivity]. simpl page_content. now rewrite row_text_fold.
  - exact (IH i Hrow).
Qed.

End Readers.

(** ** What a file load returns *)

Section FileLoads.
Context `{Libs}.

(** The file fetch from the round that is answered with an [ok] status on. *)
Lemma file_load_answered (self : ipfs_file.IPFSFileDataLoader) (ipfs_hash : string)
    (w : world) (k : nat) (r : Response) :
  fails_then_answers w (cat_request self ipfs_hash) k r ->
  (k < Z.to_nat (ipfs_file.max_retries self))%nat ->
  0 <= ipfs_file.retry_delay self ->
  ok r = true ->
  let w1 := answered_world (cat_request self ipfs_hash) (ipfs_file.retry_delay self) k w in
  (forall e,
     (ipfs_file.identify_file_type_from_bytes (content r) ≫= fun file_type =>
      ipfs_file.select_reader file_type ≫= fun reader =>
      ipfs_file.call reader r) = inl e ->
     is_ConnectionError e = false ->
     ipfs_file.load self ipfs_hash w = (Raise e, w1))
  /\ (forall file_type reader text,
        ipfs_file.identify_file_type_from_bytes (content r) = inr file_type ->
        ipfs_file.select_reader file_type = inr reader ->
        ipfs_file.call reader r = inr text ->
        ipfs_file.load self ipfs_hash w
        = (Val match text with
               | ipfs_file.Text text =>
                   ipfs_file.One
                     {| page_content := text;
                        metadata := {[ "ipfs_hash" := VStr ipfs_hash;
                                       "file_type" := VStr file_type ]} |}
               | ipfs_file.Docs docs =>
                   ipfs_file.Many (map (set_metadata "ipfs_hash" (VStr ipfs_hash)) docs)
               end, w1)).
Proof.
  intros [Hfail Hans] Hk Hdelay Hok w1. split.
  - intros e Hraise Hconn.
    unfold ipfs_file.load. fold_attempt. fold (cat_request self ipfs_hash).
    rewrite (retry_answered _ _ _ _ k _ w r) by assumption.
    fold w1. rewrite Hok, bind_run.
    destruct (ipfs_file.identify_file_type_from_bytes (content r)) as [e1|file_type].
    { injection Hraise as ->. simpl lift. unfold raise. now rewrite Hconn. }
    simpl lift. unfold ret at 1. rewrite bind_run. simpl in Hraise.
    destruct (ipfs_file.select_reader file_type) as [e2|reader].
    { injection Hraise as ->. simpl lift. unfold raise. now rewrite Hconn. }
    simpl lift. unfold ret at 1. rewrite bind_run. simpl in Hraise.
    rewrite Hraise. simpl lift. unfold raise. now rewrite Hconn.
  - intros file_type reader text Htype Hreader Htext.
    unfold ipfs_file.load. fold_attempt. fold (cat_request self ipfs_hash).
    rewrite (retry_answered _ _ _ _ k _ w r) by assumption.
    fold w1. rewrite Hok, bind_run, Htype. simpl lift. unfold ret at 1.
    rewrite bind_run, Hreader. simpl lift. unfold ret at 1.
    rewrite bind_run, Htext. simpl lift. unfold ret at 1.
    destruct text; reflexivity.
Qed.

(** X7.  When the daemon hands out the content, possibly after [k] refused
    posts, and its reader extracts a text, the file fetch returns one
    document: its content is that text and its metadata holds exactly the
    hash asked for under "ipfs_hash" and the sniffed type under "file_type". *)
Theorem file_load_returns_document (self : ipfs_file.IPFSFileDataLoader)
    (ipfs_hash : string) (w : world) (k : nat) (r : Response)
    (file_type : string) (reader : ipfs_file.Callable) (text : string) :
  fails_then_answers w (cat_request self ipfs_hash) k r ->
  (k < Z.to_nat (ipfs_file.max_retries self))%nat ->
  0 <= ipfs_file.retry_delay self ->
  ok r = true ->
  ipfs_file.identify_file_type_from_bytes (content r) = inr file_type ->
  ipfs_file.select_reader file_type = inr reader ->
  ipfs_file.call reader r = inr (ipfs_file.Text text) ->
  exists doc,
    ipfs_file.load self ipfs_hash w
    = (Val (ipfs_file.One doc),
       answered_world (cat_request self ipfs_hash) (ipfs_file.retry_delay self) k w)
    /\ page_content doc = text
    /\ metadata doc !! "ipfs_hash" = Some (VStr ipfs_hash)
    /\ metadata doc !! "file_type" = Some (VStr file_type)
    /\ dom (metadata doc) = {[ "ipfs_hash"; "file_type" ]}.
Proof.
  intros Hworld Hk Hdelay Hok Htype Hreader Htext.
  destruct (file_load_answered self ipfs_hash w k r Hworld Hk Hdelay Hok) as [_ Hval].
  eexists. split; [exact (Hval _ _ _ Htype Hreader Htext)|].
  simpl. split; [reflexivity|]. split; [reflexivity|]. split; [reflexivity|].
  now rewrite dom_insert_L, dom_singleton_L.
Qed.

(** X8.  A content whose sniffed type contains "csv" (and not "pdf") is
    returned as a list with one document per row of the data frame, in
    order: each holds the text of its row and, as metadata, the row index,
    the hash asked for and the fixed file type "text/csv", whatever the
    sniffed type was. *)
Theorem file_load_returns_csv_rows (self : ipfs_file.IPFSFileDataLoader)
    (ipfs_hash : string) (w : world) (k : nat) (r : Response)
    (file_type : string) (df : DataFrame) :
  fails_then_answers w (cat_request self ipfs_hash) k r ->
  (k < Z.to_nat (ipfs_file.max_retries self))%nat ->
  0 <= ipfs_file.retry_delay self ->
  ok r = true ->
  ipfs_file.identify_file_type_from_bytes (content r) = inr file_type ->
  occurs "csv" file_type -> ~ occurs "pdf" file_type ->
  pd_read_csv (content r) = inr df ->
  exists docs,
    ipfs_file.load self ipfs_hash w
    = (Val (ipfs_file.Many docs),
       answered_world (cat_request self ipfs_hash) (ipfs_file.retry_delay self) k w)
    /\ length docs = length df
    /\ forall i index row,
         df !! i = Some (index, row) ->
         exists doc,
           docs !! i = Some doc
           /\ page_content doc = row_text row
           /\ metadata doc
              = {[ "ipfs_hash" := VStr ipfs_hash; "index" := index;
                   "file_type" := VStr "text/csv" ]}.
Proof.
  intros Hworld Hk Hdelay Hok Htype Hcsv Hpdf Hdf.
  destruct (file_load_answered self ipfs_hash w k r Hworld Hk Hdelay Hok) as [_ Hval].
  assert (Hreader : ipfs_file.select_reader file_type = inr ipfs_file.the_csv_reader).
  { rewrite select_reader_cases.
    apply str_in_occurs in Hcsv. apply str_in_false_iff in Hpdf.
    now rewrite Hpdf, Hcsv. }
  assert (Htext : ipfs_file.call ipfs_file.the_csv_reader r
                  = inr (ipfs_file.Docs (ipfs_file.lazy_csv_loader df))).
  { simpl. unfold ipfs_file.csv_reader. now rewrite Hdf. }
  eexists. split; [exact (Hval _ _ _ Htype Hreader Htext)|].
  split.
  - rewrite length_map. unfold ipfs_file.lazy_csv_loader. apply length_map.
  - intros i index row Hrow.
    destruct (lazy_csv_loader_rows df i index row Hrow) as (doc & Hdoc & Hcontent & Hmeta).
    exists (set_metadata "ipfs_hash" (VStr ipfs_hash) doc). split.
    + change (map ?f ?l) with (f <$> l) || idtac.
      clear -Hdoc. revert i Hdoc.
      induction (ipfs_file.lazy_csv_loader df) as [|d ds IH]; intros [|i] Hdoc;
        try discriminate; simpl in *; [congruence | now apply IH].
    + split; [exact Hcontent|]. simpl. now rewrite Hmeta.
Qed.

(** X9.  A content of an unsupported type is not fetched again: the file
    fetch raises the unsupported-format error, naming the sniffed type, right
    after the post that was answered. *)
Theorem file_load_unsupported_type_raises_at_once
    (self : ipfs_file.IPFSFileDataLoader)
    (ipfs_hash : string) (w : world) (k : nat) (r : Response) (file_type : string) :
  fails_then_answers w (cat_request self ipfs_hash) k r ->
  (k < Z.to_nat (ipfs_file.max_retries self))%nat ->
  0 <= ipfs_file.retry_delay self ->
  ok r = true ->
  ipfs_file.identify_file_type_from_bytes (content r) = inr file_type ->
  ~ occurs "pdf" file_type -> ~ occurs "csv" file_type ->
  ~ occurs "json" file_type -> ~ occurs "text" file_type ->
  ipfs_file.load self ipfs_hash w
  = (Raise (Exception ("Unsupported file type: " ++ file_type)),
     answered_world (cat_request self ipfs_hash) (ipfs_file.retry_delay self) k w).
Proof.
  intros Hworld Hk Hdelay Hok Htype Hpdf Hcsv Hjson Htext.
  destruct (file_load_answered self ipfs_hash w k r Hworld Hk Hdelay Hok) as [Hraise _].
  apply Hraise; [|reflexivity].
  rewrite Htype. simpl. rewrite select_reader_cases.
  apply str_in_false_iff in Hpdf, Hcsv, Hjson, Htext.
  now rewrite Hpdf, Hcsv, Hjson, Htext.
Qed.

End FileLoads.

Lemma answers_at_once (w : world) (rq : request) (r : Response) :
  server w (clock w) rq = Answers r -> fails_then_answers w rq 0 r.
Proof.
  intros Hans. split; [intros i Hi; lia | now rewrite Nat.add_0_r].
Qed.

Lemma file_load_returns_document_witness :
  exists doc,
    @ipfs_file.load example_libs local_file_loader "QmNotes" example_world
    = (Val (ipfs_file.One doc),
       answered_world (cat_request local_file_loader "QmNotes") 1 0 example_world)
    /\ page_content doc = "hello"
    /\ metadata doc !! "ipfs_hash" = Some (VStr "QmNotes")
    /\ metadata doc !! "file_type" = Some (VStr "text/plain")
    /\ dom (metadata doc) = {[ "ipfs_hash"; "file_type" ]}.
Proof.
  apply (@file_load_returns_document example_libs local_file_loader "QmNotes"
           example_world 0
           {| status_code := 200; content := list_byte_of_string "hello";
              json_body := None |}
           "text/plain" ipfs_file.the_txt_reader "hello").
  - apply answers_at_once. reflexivity.
  - simpl. lia.
  - simpl. lia.
  - reflexivity.
  - reflexivity.
  - reflexivity.
  - reflexivity.
Defined.

Lemma file_load_returns_csv_rows_witness :
  let w := fresh healthy_daemon in
  exists docs,
    @ipfs_file.load csv_libs local_file_loader "QmTable" w
    = (Val (ipfs_file.Many docs),
       answered_world (cat_request local_file_loader "QmTable") 1 0 w)
    /\ length docs = length example_frame
    /\ forall i index row,
         example_frame !! i = Some (index, row) ->
         exists doc,
           docs !! i = Some doc
           /\ page_content doc = row_text row
           /\ metadata doc
              = {[ "ipfs_hash" := VStr "QmTable"; "index" := index;
                   "file_type" := VStr "text/csv" ]}.
Proof.
  intros w.
  apply (@file_load_returns_csv_rows csv_libs local_file_loader "QmTable" w 0
           {| status_code := 200; content := []; json_body := None |}
           "application/csv" example_frame).
  - apply answers_at_once. reflexivity.
  - simpl. lia.
  - simpl. lia.
  - reflexivity.
  - reflexivity.
  - now exists "application/", "".
  - apply str_in_false_iff. reflexivity.
  - reflexivity.
Defined.

Lemma file_load_unsupported_type_raises_at_once_witness :
  @ipfs_file.load example_libs local_file_loader "QmPhoto" example_world
  = (Raise (Exception "Unsupported file type: image/png"),
     answered_world (cat_request local_file_loader "QmPhoto") 1 0 example_world).
Proof.
  apply (@file_load_unsupported_type_raises_at_once example_libs local_file_loader
           "QmPhoto" example_world 0
           {| status_code := 200; content := [x89; x50; x4e; x47]; json_body := None |}
           "image/png").
  - apply answers_at_once. reflexivity.
  - simpl. lia.
  - simpl. lia.
  - reflexivity.
  - reflexivity.
  - apply str_in_false_iff. reflexivity.
  - apply str_in_false_iff. reflexivity.
  - apply str_in_false_iff. reflexivity.
  - apply str_in_false_iff. reflexivity.
Defined.

(** ** The traversal, whatever the daemon does *)

Lemma emits_get_dag_get (self : ipfs_directory.IPFSDirectoryDataLoader)
    (ipfs_hash : string) :
  emits (traversal_event self) (ipfs_directory.get_dag_get self ipfs_hash).
Proof.
  unfold ipfs_directory.get_dag_get. fold_attempt.
  apply emits_retry; [left; now exists ipfs_hash | now right | |
                      intros o; apply emits_finish].
  intros response. destruct (status_code response =? 200);
    [apply emits_ret | apply emits_raise].
Qed.

Lemma emits_recursive_dag_get_helper (self : ipfs_directory.IPFSDirectoryDataLoader)
    (fuel : nat) (hash : string) (all_files : list (string * string)) :
  emits (traversal_event self)
    (ipfs_directory.recursive_dag_get_helper self fuel hash all_files).
Proof.
  revert hash all_files. induction fuel as [|fuel IH]; intros hash all_files.
  - apply emits_out_of_fuel.
  - rewrite recursive_dag_get_helper_S.
    apply emits_bind; [apply emits_get_dag_get | intros response].
    apply emits_bind.
    + destruct (status_code response =? 200); [|apply emits_raise].
      unfold response_json. destruct (json_body response);
        [apply emits_ret | apply emits_raise].
    + intros dag_data. apply emits_for_each. intros link acc _.
      apply emits_bind.
      * destruct (followed link); [apply IH | apply emits_ret].
      * intros acc'. destruct (collected link); apply emits_ret.
Qed.

Lemma returns_recursive_dag_get_helper (self : ipfs_directory.IPFSDirectoryDataLoader)
    (fuel : nat) (hash : string) (all_files : list (string * string)) :
  Forall file_like all_files ->
  returns (ipfs_directory.recursive_dag_get_helper self fuel hash all_files)
    (Forall file_like).
Proof.
  revert hash all_files. induction fuel as [|fuel IH]; intros hash all_files Hacc.
  - intros w a w'. discriminate.
  - rewrite recursive_dag_get_helper_S.
    eapply returns_bind; [apply returns_any | intros response _].
    eapply returns_bind; [apply returns_any | intros dag_data _].
    apply returns_for_each; [exact Hacc|].
    intros link acc _ Hinv.
    apply (returns_bind _ _ (Forall file_like)).
    + destruct (followed link); [now apply IH | now apply returns_ret].
    + intros acc' Hacc'. destruct (collected link) eqn:Hcollected;
        [|now apply returns_ret].
      apply returns_ret. apply Forall_app. split; [exact Hacc'|].
      constructor; [|constructor].
      apply collected_iff in Hcollected as [Hfollowed Hocc].
      apply followed_iff in Hfollowed as (x & _ & Hne & Htarget).
      split; simpl; [now rewrite Htarget | exact Hocc].
Qed.

(** X10.  Whatever the daemon answers, and however its answers change
    between requests, every pair the traversal returns has a hash that is
    not empty and a name that contains a period. *)
Theorem traversal_collects_only_file_like_links
    (self : ipfs_directory.IPFSDirectoryDataLoader) (fuel : nat)
    (ipfs_hash : string) (w w' : world) (all_files : list (string * string)) :
  ipfs_directory.recursive_dag_get self fuel ipfs_hash w = (Val all_files, w') ->
  Forall file_like all_files.
Proof.
  apply (returns_recursive_dag_get_helper self fuel ipfs_hash []). constructor.
Qed.

(** X11.  Whatever the daemon does, a traversal posts nothing but DAG
    requests to the loader's own endpoint, with the loader's own
    credentials, and between them only sleeps of [retry_delay]: it writes no
    log record and fetches no content. *)
Theorem traversal_posts_only_dag_requests
    (self : ipfs_directory.IPFSDirectoryDataLoader) (fuel : nat) (ipfs_hash : string) :
  emits (traversal_event self) (ipfs_directory.recursive_dag_get self fuel ipfs_hash).
Proof. apply emits_recursive_dag_get_helper. Qed.

Lemma traversal_collects_only_file_like_links_witness :
  let all_files := [("QmNotes", "notes.txt"); ("QmPhoto", "photo.png")] in
  ipfs_directory.recursive_dag_get local_directory_loader 2 "QmDir" example_world
  = (Val all_files,
     advance 3 (dag_posts local_directory_loader ["QmDir"; "QmNotes"; "QmPhoto"])
       example_world)
  /\ Forall file_like all_files.
Proof.
  intros all_files.
  assert (Hrun : ipfs_directory.recursive_dag_get local_directory_loader 2 "QmDir"
                   example_world
                 = (Val all_files,
                    advance 3 (dag_posts local_directory_loader
                                 ["QmDir"; "QmNotes"; "QmPhoto"]) example_world))
    by (vm_compute; reflexivity).
  split; [exact Hrun|].
  exact (traversal_collects_only_file_like_links _ _ _ _ _ _ Hrun).
Defined.

(** ** The directory load, whatever the daemon does *)

Section LoadEvents.
Context `{Libs}.

Lemma emits_local_file_load (ipfs_hash : string) :
  emits local_file_event (ipfs_file.load local_file_loader ipfs_hash).
Proof.
  unfold ipfs_file.load. fold_attempt.
  apply emits_retry; [right; left; now exists ipfs_hash | now right; right; left | |
                      intros o; apply emits_finish].
  intros response. destruct (ok response).
  - apply emits_bind; [apply emits_lift | intros file_type].
    apply emits_bind; [apply emits_lift | intros reader].
    apply emits_bind; [apply emits_lift | intros text].
    destruct text; apply emits_ret.
  - apply emits_bind; [|intros _; apply emits_ret].
    apply emits_logger_log. right; right; right. eauto.
Qed.

Lemma emits_local_file_init :
  emits local_file_event (ipfs_file.__init__ false None None false).
Proof.
  unfold ipfs_file.__init__. rewrite andb_false_l. cbv zeta.
  apply emits_bind; [|intros _; apply emits_ret].
  unfold ipfs_file.check_daemon_running. fold_attempt.
  apply emits_retry; [now left | now right; right; left | |
                      intros [[]|]; [apply emits_ret | apply emits_raise]].
  intros response. destruct (ok response); [|apply emits_raise].
  apply emits_bind; [apply emits_ret | intros _; apply emits_ret].
Qed.

Lemma returns_local_file_init :
  returns (ipfs_file.__init__ false None None false)
    (fun fileloader => fileloader = local_file_loader).
Proof.
  unfold ipfs_file.__init__. rewrite andb_false_l. cbv zeta.
  eapply returns_bind; [apply returns_any|].
  intros _ _. now apply returns_ret.
Qed.

Lemma emits_load_loop (all_files : list (string * string))
    (results : list ipfs_file.loaded) :
  emits local_file_event (load_loop local_file_loader all_files results).
Proof.
  unfold load_loop. apply emits_for_each. intros [hash name] results' _.
  apply emits_try_except.
  - apply emits_bind; [apply emits_local_file_load | intros doc; apply emits_ret].
  - intros e. apply emits_bind; [apply emits_logger_log; right; right; right; eauto|].
    intros _. apply emits_bind; [apply emits_logger_log; right; right; right; eauto|].
    intros _. apply emits_ret.
Qed.

(** X12.  In every run of a directory load, in hosted mode too, the
    loader's endpoint and credentials are used for DAG requests only: the
    daemon check of the file loader and every request for a file content go
    to the local daemon at 127.0.0.1:5001 without credentials. *)
Theorem directory_load_fetches_contents_locally
    (self : ipfs_directory.IPFSDirectoryDataLoader) (fuel : nat) (ipfs_hash : string) :
  emits (fun ev => traversal_event self ev \/ local_file_event ev)
    (ipfs_directory.load self fuel ipfs_hash).
Proof.
  rewrite load_unfold.
  apply emits_bind.
  { eapply emits_weaken; [|apply emits_recursive_dag_get_helper]. auto. }
  intros all_files.
  apply (emits_bind_returns _ (fun fileloader => fileloader = local_file_loader)).
  - eapply emits_weaken; [|apply emits_local_file_init]. auto.
  - apply returns_local_file_init.
  - intros fileloader ->.
    eapply emits_weaken; [|apply emits_load_loop]. auto.
Qed.

End LoadEvents.

(** ** Edge cases of the traversal and of the directory load *)

Section LoadEdges.
Context `{Libs}.
Variable self : ipfs_directory.IPFSDirectoryDataLoader.

(** X13.  No cycle is detected and nothing stops a traversal that comes
    back to where it is: when the first link with a hash among the links of
    a node leads to the node itself, each level of recursion posts one
    request for that hash and descends again, before anything is collected.
    So no depth is enough for a list of files: with [fuel] levels of
    recursion allowed the call ends without one, after [fuel] requests for
    the same hash.  (The interpreter allows a bounded depth and ends such a
    call with RecursionError.) *)
Theorem self_linked_node_uses_up_any_depth
    (store : gmap string (list link)) (root : string)
    (before : list link) (l : link) (rest : list link)
    (w : world) (fuel : nat) :
  (0 < Z.to_nat (ipfs_directory.max_retries self))%nat ->
  serves w self store ->
  store !! root = Some (before ++ l :: rest)%list ->
  Forall (fun l' => followed l' = false) before ->
  followed l = true -> target l = root ->
  ipfs_directory.recursive_dag_get self fuel root w
  = (OutOfFuel, advance fuel (dag_posts self (repeat root fuel)) w).
Proof.
  intros Hretries Hserves Hroot Hbefore Hfollowed Htarget.
  unfold ipfs_directory.recursive_dag_get. generalize (@nil (string * string)).
  revert w Hserves. induction fuel as [|fuel IH]; intros w Hserves acc.
  - simpl. unfold out_of_fuel. now rewrite advance_0_nil.
  - rewrite recursive_dag_get_helper_S, bind_run.
    destruct (get_dag_get_served self store w root _ Hserves Hroot Hretries)
      as (r & data & -> & Hstatus & Hjson & Hlinks).
    rewrite Hstatus, Z.eqb_refl, bind_run. unfold response_json. rewrite Hjson.
    unfold ret at 1. rewrite Hlinks.
    clear Hroot Hlinks. induction Hbefore as [|l' before Hl' _ IHbefore].
    + cbn [app for_each].
      rewrite !bind_run, Hfollowed, Htarget, IH by exact Hserves.
      now rewrite advance_advance.
    + cbn [app for_each]. rewrite !bind_run, Hl'.
      assert (Hnot : collected l' = false) by (unfold collected; now rewrite Hl').
      rewrite Hnot. unfold ret at 1 2. exact IHbefore.
Qed.

(** X14.  A node without links to follow (no "Links" key, no links, or
    only links without a hash) makes one DAG request and yields no file;
    the directory load then still constructs its file loader, which checks
    the local daemon, and returns the empty list. *)
Theorem directory_without_hashed_links_is_empty (root : string) (w : world)
    (fuel : nat) (r r' : Response) (data : dag_json) :
  (0 < Z.to_nat (ipfs_directory.max_retries self))%nat -> (0 < fuel)%nat ->
  server w (clock w) (dag_request self root) = Answers r ->
  status_code r = 200 -> json_body r = Some data ->
  Forall (fun l => followed l = false) (default [] (Links data)) ->
  server w (S (clock w)) (file_version_request local_file_loader) = Answers r' ->
  ok r' = true ->
  ipfs_directory.recursive_dag_get self fuel root w
  = (Val [], advance 1 [EPost (dag_request self root)] w)
  /\ ipfs_directory.load self fuel root w
     = (Val [], advance 2 [EPost (dag_request self root);
                           EPost (file_version_request local_file_loader)] w).
Proof.
  intros Hretries Hfuel Hans Hstatus Hjson Hlinks Hans' Hok'.
  destruct fuel as [|fuel]; [lia|].
  assert (Hloop : forall acc w0,
            for_each (default [] (Links data))
              (fun link all_files =>
                 (if followed link
                  then ipfs_directory.recursive_dag_get_helper self fuel (target link)
                         all_files
                  else ret all_files)
                 ≫= fun all_files =>
                 if collected link
                 then ret (all_files
                           ++ [(target link, ipfs_directory.link_name_of link)])%list
                 else ret all_files)
              acc w0
            = (Val acc, w0)).
  { induction Hlinks as [|l links Hl _ IH]; intros acc w0; [reflexivity|].
    cbn [for_each]. rewrite !bind_run, Hl.
    assert (Hnot : collected l = false) by (unfold collected; now rewrite Hl).
    rewrite Hnot. unfold ret at 1 2. apply IH. }
  assert (Hfiles : ipfs_directory.recursive_dag_get self (S fuel) root w
                   = (Val [], advance 1 [EPost (dag_request self root)] w)).
  { unfold ipfs_directory.recursive_dag_get.
    rewrite recursive_dag_get_helper_S, bind_run.
    unfold ipfs_directory.get_dag_get. fold_attempt. fold (dag_request self root).
    rewrite (retry_answered_first _ _ _ _ _ w r r
               (advance 1 [EPost (dag_request self root)] w));
      [|exact Hans | exact Hretries | now rewrite Hstatus].
    unfold ret at 1. rewrite Hstatus, Z.eqb_refl, bind_run.
    unfold response_json. rewrite Hjson. unfold ret at 1. apply Hloop. }
  split; [exact Hfiles|].
  rewrite load_unfold, bind_run, Hfiles, bind_run.
  rewrite (file_init_local _ r') by (simpl; rewrite ?Nat.add_1_r; assumption).
  now rewrite advance_advance.
Qed.

(** X15.  A failure of the traversal is not caught: when the root cannot
    be fetched because the daemon answers with a status other than 200, the
    directory load raises that error, and neither constructs a file loader
    nor fetches any content. *)
Theorem directory_load_aborts_when_root_fails (root : string) (w : world)
    (fuel k : nat) (r : Response) :
  fails_then_answers w (dag_request self root) k r ->
  (k < Z.to_nat (ipfs_directory.max_retries self))%nat ->
  0 <= ipfs_directory.retry_delay self ->
  status_code r <> 200 -> (0 < fuel)%nat ->
  ipfs_directory.load self fuel root w
  = (Raise (Exception ("Failed to get DAG for " ++ root ++ " with status code "
                         ++ str_of_Z (status_code r))),
     answered_world (dag_request self root) (ipfs_directory.retry_delay self) k w).
Proof.
  intros Hworld Hk Hdelay Hstatus Hfuel. destruct fuel as [|fuel]; [lia|].
  rewrite load_unfold, bind_run. unfold ipfs_directory.recursive_dag_get.
  rewrite recursive_dag_get_helper_S, bind_run.
  now rewrite (get_dag_get_fails_fast self root w k r).
Qed.

(** X16.  The directory load needs the local daemon whatever the mode of
    the loader: when the traversal has returned but the local daemon refuses
    every connection, the load raises the daemon error after the five
    attempts of the file loader's check, and no file is loaded. *)
Theorem directory_load_needs_local_daemon (root : string) (w w1 : world)
    (fuel : nat) (all_files : list (string * string)) :
  ipfs_directory.recursive_dag_get self fuel root w = (Val all_files, w1) ->
  (forall i, connection_failure
               (server w1 i (file_version_request local_file_loader))) ->
  ipfs_directory.load self fuel root w
  = (Raise (Exception "IPFS daemon not running or not accessible"),
     advance 5 (failed_rounds (file_version_request local_file_loader) 1 5) w1).
Proof.
  intros Hfiles Hdown.
  rewrite load_unfold, bind_run, Hfiles, bind_run.
  unfold ipfs_file.__init__. rewrite andb_false_l. cbv zeta. rewrite bind_run.
  unfold ipfs_file.check_daemon_running. fold_attempt.
  rewrite retry_exhausted; [reflexivity | intros i _; apply Hdown | simpl; lia].
Qed.

End LoadEdges.

Lemma self_linked_node_uses_up_any_depth_witness :
  let w := fresh (ipfs_daemon looping_store ∅) in
  ipfs_directory.recursive_dag_get local_directory_loader 4 "QmLoop" w
  = (OutOfFuel, advance 4 (dag_posts local_directory_loader (repeat "QmLoop" 4)) w).
Proof.
  intros w.
  apply (self_linked_node_uses_up_any_depth local_directory_loader
           looping_store "QmLoop" [{| Hash := None; Name := Some "readme.md" |}]
           (named_link "QmLoop" "again") [named_link "QmFile" "notes.txt"] w 4).
  - simpl. lia.
  - apply ipfs_daemon_serves. reflexivity.
  - reflexivity.
  - repeat constructor.
  - reflexivity.
  - reflexivity.
Defined.

Lemma directory_without_hashed_links_is_empty_witness :
  let w := fresh (dag_daemon [ {| Hash := None; Name := Some "readme.txt" |} ]) in
  ipfs_directory.recursive_dag_get local_directory_loader 1 "QmRoot" w
  = (Val [], advance 1 [EPost (dag_request local_directory_loader "QmRoot")] w)
  /\ @ipfs_directory.load example_libs local_directory_loader 1 "QmRoot" w
     = (Val [], advance 2 [EPost (dag_request local_directory_loader "QmRoot");
                           EPost (file_version_request local_file_loader)] w).
Proof.
  intros w.
  eapply (@directory_without_hashed_links_is_empty example_libs
            local_directory_loader "QmRoot" w 1).
  - simpl. lia.
  - lia.
  - reflexivity.
  - reflexivity.
  - reflexivity.
  - repeat constructor.
  - reflexivity.
  - reflexivity.
Defined.

Lemma directory_load_aborts_when_root_fails_witness :
  let w := fresh refused_twice_then_500 in
  @ipfs_directory.load example_libs local_directory_loader 3 "QmRoot" w
  = (Raise (Exception "Failed to get DAG for QmRoot with status code 500"),
     answered_world (dag_request local_directory_loader "QmRoot") 1 2 w).
Proof.
  intros w.
  apply (@directory_load_aborts_when_root_fails example_libs local_directory_loader
           "QmRoot" w 3 2
           {| status_code := 500; content := []; json_body := None |}).
  - split; [|reflexivity]. intros i Hi. simpl in Hi.
    destruct i as [|[|i]]; [eexists; split; reflexivity .. | lia].
  - simpl. lia.
  - simpl. lia.
  - simpl. lia.
  - lia.
Defined.

Lemma directory_load_needs_local_daemon_witness :
  let w := fresh gateway_only in
  let w1 := advance 1 [EPost (dag_request hosted_directory_loader "QmRoot")] w in
  ipfs_directory.use_infura hosted_directory_loader = true
  /\ ipfs_directory.recursive_dag_get hosted_directory_loader 1 "QmRoot" w
     = (Val [], w1)
  /\ @ipfs_directory.load example_libs hosted_directory_loader 1 "QmRoot" w
     = (Raise (Exception "IPFS daemon not running or not accessible"),
        advance 5 (failed_rounds (file_version_request local_file_loader) 1 5) w1).
Proof.
  intros w w1. split; [reflexivity|].
  assert (Hfiles : ipfs_directory.recursive_dag_get hosted_directory_loader 1 "QmRoot" w
                   = (Val [], w1)) by (vm_compute; reflexivity).
  split; [exact Hfiles|].
  apply (@directory_load_needs_local_daemon example_libs hosted_directory_loader
           "QmRoot" w w1 1 [] Hfiles).
  intros i. eexists. split; reflexivity.
Defined.

(** ** More on the restore *)

Lemma link_loop_last_index (links : list link) (h : string)
    (vars0 : ipfs.hashes) (w : world) :
  Forall well_formed links -> last_match "index" links h ->
  exists vars,
    for_each links (fun link vars => lift (ipfs.bind_link_hashes link vars)) vars0 w
    = (Val vars, w)
    /\ ipfs.index_hash vars = Some h.
Proof.
  intros Hwf (before & l & after & name & -> & Hname & Hocc & Hhash & Hlast).
  revert vars0. induction before as [|b before IH]; intros vars0.
  - simpl app in *. apply Forall_cons_1 in Hwf as [_ Hafter].
    cbn [for_each]. rewrite bind_run.
    rewrite (bind_link_hashes_well_formed _ _ name h) by assumption.
    simpl lift. unfold ret at 1.
    destruct (link_loop_complete after
                {| ipfs.index_hash :=
                     if str_in "index" name then Some h else ipfs.index_hash vars0;
                   ipfs.docstore_hash :=
                     if str_in "docstore" name then Some h
                     else ipfs.docstore_hash vars0 |} w Hafter)
      as (vars & Hrun & Hindex & _).
    exists vars. split; [exact Hrun|].
    rewrite (Hindex Hlast). simpl. apply str_in_occurs in Hocc. now rewrite Hocc.
  - simpl app in *. apply Forall_cons_1 in Hwf as [(bname & bcid & Hbname & Hbhash) Hrest].
    cbn [for_each]. rewrite bind_run.
    rewrite (bind_link_hashes_well_formed _ _ bname bcid) by assumption.
    simpl lift. unfold ret at 1. apply IH. exact Hrest.
Qed.

Lemma link_loop_last_docstore (links : list link) (h : string)
    (vars0 : ipfs.hashes) (w : world) :
  Forall well_formed links -> last_match "docstore" links h ->
  exists vars,
    for_each links (fun link vars => lift (ipfs.bind_link_hashes link vars)) vars0 w
    = (Val vars, w)
    /\ ipfs.docstore_hash vars = Some h.
Proof.
  intros Hwf (before & l & after & name & -> & Hname & Hocc & Hhash & Hlast).
  revert vars0. induction before as [|b before IH]; intros vars0.
  - simpl app in *. apply Forall_cons_1 in Hwf as [_ Hafter].
    cbn [for_each]. rewrite bind_run.
    rewrite (bind_link_hashes_well_formed _ _ name h) by assumption.
    simpl lift. unfold ret at 1.
    destruct (link_loop_complete after
                {| ipfs.index_hash :=
                     if str_in "index" name then Some h else ipfs.index_hash vars0;
                   ipfs.docstore_hash :=
                     if str_in "docstore" name then Some h
                     else ipfs.docstore_hash vars0 |} w Hafter)
      as (vars & Hrun & _ & Hdocstore & _).
    exists vars. split; [exact Hrun|].
    rewrite (Hdocstore Hlast). simpl. apply str_in_occurs in Hocc. now rewrite Hocc.
  - simpl app in *. apply Forall_cons_1 in Hwf as [(bname & bcid & Hbname & Hbhash) Hrest].
    cbn [for_each]. rewrite bind_run.
    rewrite (bind_link_hashes_well_formed _ _ bname bcid) by assumption.
    simpl lift. unfold ret at 1. apply IH. exact Hrest.
Qed.

Section RestoreRuns.
Context `{Libs}.
Variable self : ipfs.IPFSFAISSUtils.

(** X17.  When the root resolves to two links with names and hashes, the
    restore downloads the hash of the last link whose name contains "index"
    and then that of the last link whose name contains "docstore", and
    builds the vector store from what the libraries read out of the two
    contents: three posts in all, each made once, and no status code is
    looked at. *)
Theorem restore_returns_vector_store (cid : string) (w : world)
    (links : list link) (index_hash docstore_hash : string)
    (index_response docstore_response : Response)
    (emb : embeddings) (idx : faiss_index) (stores : gmap string docstore)
    (ids store : docstore) :
  resolves_to w (dag_root_request self cid) links ->
  length links = 2%nat -> Forall well_formed links ->
  last_match "index" links index_hash ->
  last_match "docstore" links docstore_hash ->
  server w (clock w + 1)%nat (cat_hash_request self index_hash)
  = Answers index_response ->
  server w (clock w + 2)%nat (cat_hash_request self docstore_hash)
  = Answers docstore_response ->
  OpenAIEmbeddings = inr emb ->
  faiss_read_index (content index_response) = inr idx ->
  pickle_loads (content docstore_response) = inr stores ->
  stores !! "index_to_docstore_id" = Some ids ->
  stores !! "docstore" = Some store ->
  ipfs.get_vectorstore_from_ipfs self cid w
  = (Val {| ipfs.embedding_function := emb;
            ipfs.index := idx;
            ipfs.index_to_docstore_id := ids;
            ipfs.docstore_of := store |},
     advance 3 [EPost (dag_root_request self cid);
                EPost (cat_hash_request self index_hash);
                EPost (cat_hash_request self docstore_hash)] w).
Proof.
  intros Hroot Hlen Hwf Hindex Hdocstore Hans_i Hans_d Hemb Hidx Hstores Hids Hstore.
  destruct (restore_after_root self cid w links Hroot Hlen) as (res & Hloop & _).
  destruct (link_loop_last_index links index_hash
              {| ipfs.index_hash := None; ipfs.docstore_hash := None |}
              (advance 1 [EPost (dag_root_request self cid)] w) Hwf Hindex)
    as (vars & Hrun & Hi).
  destruct (link_loop_last_docstore links docstore_hash
              {| ipfs.index_hash := None; ipfs.docstore_hash := None |}
              (advance 1 [EPost (dag_root_request self cid)] w) Hwf Hdocstore)
    as (vars' & Hrun' & Hd).
  rewrite Hrun in Hrun'. injection Hrun' as <-. clear res Hloop.
  destruct Hroot as (r & data & Hans & Hjson & Hlinks).
  unfold ipfs.get_vectorstore_from_ipfs. cbv zeta.
  fold (dag_root_request self cid).
  rewrite bind_run. unfold requests_post at 1. rewrite Hans.
  rewrite bind_run. unfold response_json. rewrite Hjson.
  unfold ret at 1. rewrite bind_run, Hlinks. simpl lift. unfold ret at 1.
  rewrite bind_run, Hlen, Nat.eqb_refl. unfold ret at 1.
  rewrite bind_run, Hrun, bind_run, Hi. simpl ipfs.read_local. unfold ret at 1.
  rewrite bind_run, Hd. simpl ipfs.read_local. unfold ret at 1.
  fold (cat_hash_request self index_hash). fold (cat_hash_request self docstore_hash).
  rewrite bind_run. unfold requests_post at 1.
  rewrite server_advance, clock_advance, Hans_i, advance_advance.
  rewrite bind_run. unfold requests_post at 1.
  rewrite server_advance, clock_advance. change (1 + 1)%nat with 2%nat.
  rewrite Hans_d, advance_advance.
  rewrite bind_run, Hemb. simpl lift. unfold ret at 1.
  rewrite bind_run, Hidx. simpl lift. unfold ret at 1.
  rewrite bind_run, Hstores. simpl lift. unfold ret at 1.
  rewrite bind_run, Hids. simpl lift. unfold ret at 1.
  rewrite bind_run, Hstore. reflexivity.
Qed.

(** X18.  The restore does not retry and does not check what it fetched
    before reading it: an exception of the first post, a refused connection
    included, is raised at once; a root whose body is not JSON raises
    [JSONDecodeError], a root without "Links" raises [KeyError], and a first
    link without "Name" raises [KeyError]; all of them after that single
    post. *)
Theorem restore_reports_what_the_root_lacks (cid : string) (w : world) :
  let w1 := advance 1 [EPost (dag_root_request self cid)] w in
  (forall e,
     server w (clock w) (dag_root_request self cid) = Fails e ->
     ipfs.get_vectorstore_from_ipfs self cid w = (Raise e, w1))
  /\ (forall r,
        server w (clock w) (dag_root_request self cid) = Answers r ->
        json_body r = None ->
        exists msg,
          ipfs.get_vectorstore_from_ipfs self cid w = (Raise (JSONDecodeError msg), w1))
  /\ (forall r,
        server w (clock w) (dag_root_request self cid) = Answers r ->
        json_body r = Some {| Links := None |} ->
        ipfs.get_vectorstore_from_ipfs self cid w = (Raise (KeyError "Links"), w1))
  /\ (forall l1 l2,
        resolves_to w (dag_root_request self cid) [l1; l2] ->
        Name l1 = None ->
        ipfs.get_vectorstore_from_ipfs self cid w = (Raise (KeyError "Name"), w1)).
Proof.
  intros w1. unfold ipfs.get_vectorstore_from_ipfs. cbv zeta.
  fold (dag_root_request self cid). repeat split.
  - intros e Hfail. rewrite bind_run. unfold requests_post. now rewrite Hfail.
  - intros r Hans Hjson. eexists.
    rewrite bind_run. unfold requests_post. rewrite Hans.
    rewrite bind_run. unfold response_json. rewrite Hjson. reflexivity.
  - intros r Hans Hjson.
    rewrite bind_run. unfold requests_post. rewrite Hans.
    rewrite bind_run. unfold response_json. rewrite Hjson.
    unfold ret at 1. rewrite bind_run. reflexivity.
  - intros l1 l2 (r & data & Hans & Hjson & Hlinks) Hname.
    rewrite bind_run. unfold requests_post. rewrite Hans.
    rewrite bind_run. unfold response_json. rewrite Hjson.
    unfold ret at 1. rewrite bind_run, Hlinks. simpl lift. unfold ret at 1.
    rewrite bind_run. simpl. unfold ret at 1. rewrite bind_run.
    cbn [for_each]. rewrite bind_run. unfold ipfs.bind_link_hashes.
    rewrite Hname. reflexivity.
Qed.

End RestoreRuns.

Lemma posts_at_most_for_each {X S} (xs : list X) (body : X -> S -> M S) (s : S) :
  (forall x s', posts_at_most 0 (body x s')) ->
  posts_at_most 0 (for_each xs body s).
Proof.
  intros Hbody. revert s. induction xs as [|x xs IH]; intros s;
    [apply posts_at_most_ret|].
  simpl. change 0%nat with (0 + 0)%nat. apply posts_at_most_bind; [apply Hbody|].
  intros s'. apply IH.
Qed.

Section RestoreBounds.
Context `{Libs}.

(** X19.  Whatever the daemon does, a restore posts at most three
    requests: the one for the root and requests for contents, all to the
    utilities' own endpoint; it never sleeps and writes no log record. *)
Theorem restore_posts_at_most_three_requests (self : ipfs.IPFSFAISSUtils)
    (cid : string) :
  posts_at_most 3 (ipfs.get_vectorstore_from_ipfs self cid)
  /\ emits (restore_event self cid) (ipfs.get_vectorstore_from_ipfs self cid).
Proof.
  unfold ipfs.get_vectorstore_from_ipfs. cbv zeta.
  fold (dag_root_request self cid). split.
  - change 3%nat with (1 + (0 + (0 + (0 + (0 + (0 + (0 + (1 + (1 + 0)))))))))%nat.
    apply posts_at_most_bind; [apply posts_at_most_requests_post | intros response].
    apply posts_at_most_bind.
    { unfold response_json. destruct (json_body response);
        [apply posts_at_most_ret | apply posts_at_most_raise]. }
    intros data. apply posts_at_most_bind; [apply posts_at_most_lift | intros links].
    apply posts_at_most_bind.
    { destruct (length links =? 2)%nat;
        [apply posts_at_most_ret | apply posts_at_most_raise]. }
    intros _. apply posts_at_most_bind.
    { apply posts_at_most_for_each. intros l vars. apply posts_at_most_lift. }
    intros vars. apply posts_at_most_bind.
    { destruct (ipfs.index_hash vars);
        [apply posts_at_most_ret | apply posts_at_most_raise]. }
    intros index_hash. apply posts_at_most_bind.
    { destruct (ipfs.docstore_hash vars);
        [apply posts_at_most_ret | apply posts_at_most_raise]. }
    intros docstore_hash.
    apply posts_at_most_bind; [apply posts_at_most_requests_post | intros r1].
    apply posts_at_most_bind; [apply posts_at_most_requests_post | intros r2].
    change 0%nat with (0 + (0 + (0 + (0 + (0 + 0)))))%nat.
    apply posts_at_most_bind; [apply posts_at_most_lift | intros emb].
    apply posts_at_most_bind; [apply posts_at_most_lift | intros idx].
    apply posts_at_most_bind; [apply posts_at_most_lift | intros stores].
    apply posts_at_most_bind; [apply posts_at_most_lift | intros ids].
    apply posts_at_most_bind; [apply posts_at_most_lift | intros store].
    apply posts_at_most_ret.
  - apply emits_bind; [apply emits_requests_post; now left | intros response].
    apply emits_bind.
    { unfold response_json. destruct (json_body response);
        [apply emits_ret | apply emits_raise]. }
    intros data. apply emits_bind; [apply emits_lift | intros links].
    apply emits_bind.
    { destruct (length links =? 2)%nat; [apply emits_ret | apply emits_raise]. }
    intros _. apply emits_bind.
    { apply emits_for_each. intros l vars _. apply emits_lift. }
    intros vars. apply emits_bind.
    { destruct (ipfs.index_hash vars); [apply emits_ret | apply emits_raise]. }
    intros index_hash. apply emits_bind.
    { destruct (ipfs.docstore_hash vars); [apply emits_ret | apply emits_raise]. }
    intros docstore_hash.
    apply emits_bind;
      [apply emits_requests_post; right; now exists index_hash | intros r1].
    apply emits_bind;
      [apply emits_requests_post; right; now exists docstore_hash | intros r2].
    apply emits_bind; [apply emits_lift | intros emb].
    apply emits_bind; [apply emits_lift | intros idx].
    apply emits_bind; [apply emits_lift | intros stores].
    apply emits_bind; [apply emits_lift | intros ids].
    apply emits_bind; [apply emits_lift | intros store].
    apply emits_ret.
Qed.

End RestoreBounds.

Lemma two_indexes_last (sub : string) :
  str_in sub "new.index.docstore" = true ->
  last_match sub two_indexes "QmNew".
Proof.
  intros Hsub. exists [named_link "QmOld" "old.index"],
    (named_link "QmNew" "new.index.docstore"), [], "new.index.docstore".
  repeat split; [now apply str_in_occurs|].
  intros (l & name & [] & _).
Qed.

Lemma restore_returns_vector_store_witness :
  let w := fresh (dag_daemon two_indexes) in
  @ipfs.get_vectorstore_from_ipfs example_libs local_utils "QmStore" w
  = (Val {| ipfs.embedding_function := tt : @embeddings example_libs;
            ipfs.index := [] : @faiss_index example_libs;
            ipfs.index_to_docstore_id := tt : @docstore example_libs;
            ipfs.docstore_of := tt : @docstore example_libs |},
     advance 3 [EPost (dag_root_request local_utils "QmStore");
                EPost (cat_hash_request local_utils "QmNew");
                EPost (cat_hash_request local_utils "QmNew")] w).
Proof.
  intros w.
  apply (@restore_returns_vector_store example_libs local_utils "QmStore" w
           two_indexes "QmNew" "QmNew"
           {| status_code := 200; content := [];
              json_body := Some {| Links := Some two_indexes |} |}
           {| status_code := 200; content := [];
              json_body := Some {| Links := Some two_indexes |} |}
           tt [] ({[ "index_to_docstore_id" := tt; "docstore" := tt ]}) tt tt).
  - apply dag_daemon_resolves.
  - reflexivity.
  - repeat constructor; eexists _, _; split; reflexivity.
  - apply two_indexes_last. reflexivity.
  - apply two_indexes_last. reflexivity.
  - reflexivity.
  - reflexivity.
  - reflexivity.
  - reflexivity.
  - reflexivity.
  - reflexivity.
  - reflexivity.
Defined.

Lemma restore_reports_what_the_root_lacks_witness :
  @ipfs.get_vectorstore_from_ipfs example_libs local_utils "QmStore" (fresh unreachable)
  = (Raise (ConnectionError "Connection refused"),
     advance 1 [EPost (dag_root_request local_utils "QmStore")] (fresh unreachable))
  /\ @ipfs.get_vectorstore_from_ipfs example_libs local_utils "QmStore"
       (fresh (dag_daemon [ {| Hash := Some (Some "QmA"); Name := None |};
                            named_link "QmB" "tmp.docstore" ]))
     = (Raise (KeyError "Name"),
        advance 1 [EPost (dag_root_request local_utils "QmStore")]
          (fresh (dag_daemon [ {| Hash := Some (Some "QmA"); Name := None |};
                               named_link "QmB" "tmp.docstore" ]))).
Proof.
  split.
  - destruct (@restore_reports_what_the_root_lacks example_libs local_utils "QmStore"
                (fresh unreachable)) as (Hfail & _).
    apply Hfail. reflexivity.
  - destruct (@restore_reports_what_the_root_lacks example_libs local_utils "QmStore"
                (fresh (dag_daemon [ {| Hash := Some (Some "QmA"); Name := None |};
                                     named_link "QmB" "tmp.docstore" ])))
      as (_ & _ & _ & Hname).
    apply (Hname {| Hash := Some (Some "QmA"); Name := None |}
             (named_link "QmB" "tmp.docstore"));
      [apply dag_daemon_resolves | reflexivity].
Defined.

(** ** More on construction *)

Lemma version_requests (use_infura : bool) (key secret : option string) (debug : bool) :
  directory_version_request (new_directory_loader use_infura key secret debug)
  = version_request use_infura key secret
  /\ file_version_request (new_file_loader use_infura key secret debug)
     = version_request use_infura key secret
  /\ utils_version_request (new_utils use_infura key secret debug)
     = version_request use_infura key secret.
Proof. destruct use_infura; repeat split. Qed.

Lemma constructors_check (use_infura : bool) (key secret : option string)
    (debug : bool) :
  (use_infura = true -> truthy key = true /\ truthy secret = true) ->
  ipfs_directory.__init__ use_infura key secret debug
  = (ipfs_directory.check_daemon_running
       (new_directory_loader use_infura key secret debug)
     ≫= fun _ => ret (new_directory_loader use_infura key secret debug))
  /\ ipfs_file.__init__ use_infura key secret debug
     = (ipfs_file.check_daemon_running (new_file_loader use_infura key secret debug)
        ≫= fun _ => ret (new_file_loader use_infura key secret debug))
  /\ ipfs.__init__ use_infura key secret debug
     = (ipfs.check_daemon_running (new_utils use_infura key secret debug)
        ≫= fun _ => ret (new_utils use_infura key secret debug)).
Proof.
  intros Hcred.
  assert (Hcheck : use_infura && (negb (truthy key) || negb (truthy secret)) = false).
  { destruct use_infura; [|reflexivity].
    destruct (Hcred eq_refl) as [-> ->]. reflexivity. }
  unfold ipfs_directory.__init__, ipfs_file.__init__, ipfs.__init__.
  rewrite Hcheck. repeat split.
Qed.

(** X20.  Construction checks the daemon: when every connection is
    refused, each of the three constructors, in either mode and with the
    credentials its mode needs, raises the daemon error after five posts of
    the version request and five sleeps of one second, and no instance is
    returned. *)
Theorem construction_fails_without_daemon (use_infura : bool)
    (key secret : option string) (debug : bool) (w : world) :
  (use_infura = true -> truthy key = true /\ truthy secret = true) ->
  (forall i rq, connection_failure (server w i rq)) ->
  let unreachable_error := Exception "IPFS daemon not running or not accessible" in
  let w' := advance 5 (failed_rounds (version_request use_infura key secret) 1 5) w in
  ipfs_directory.__init__ use_infura key secret debug w = (Raise unreachable_error, w')
  /\ ipfs_file.__init__ use_infura key secret debug w = (Raise unreachable_error, w')
  /\ ipfs.__init__ use_infura key secret debug w = (Raise unreachable_error, w').
Proof.
  intros Hcred Hdown err w'.
  destruct (constructors_check use_infura key secret debug Hcred) as (-> & -> & ->).
  destruct (version_requests use_infura key secret debug) as (Hdir & Hfile & Hutils).
  subst w'. rewrite <- Hdir at 1. rewrite <- Hfile at 1. rewrite <- Hutils.
  repeat split; rewrite bind_run.
  - unfold ipfs_directory.check_daemon_running. fold_attempt.
    rewrite retry_exhausted; [reflexivity | auto | simpl; lia].
  - unfold ipfs_file.check_daemon_running. fold_attempt.
    rewrite retry_exhausted; [reflexivity | auto | simpl; lia].
  - unfold ipfs.check_daemon_running. fold_attempt.
    rewrite retry_exhausted; [reflexivity | auto | simpl; lia].
Qed.

(** X21.  In hosted mode with both credentials given, each constructor
    sends its version request to the hosted gateway with the key and the
    secret as basic authentication, and returns the instance as soon as the
    gateway answers with status 200. *)
Theorem hosted_construction_uses_gateway_and_credentials
    (key secret : option string) (debug : bool) (w : world) (r : Response) :
  truthy key = true -> truthy secret = true ->
  server w (clock w) (hosted_version_request key secret) = Answers r ->
  status_code r = 200 ->
  let w' := advance 1 (check_events (hosted_version_request key secret) debug) w in
  ipfs_directory.__init__ true key secret debug w
  = (Val (new_directory_loader true key secret debug), w')
  /\ ipfs_file.__init__ true key secret debug w
     = (Val (new_file_loader true key secret debug), w')
  /\ ipfs.__init__ true key secret debug w
     = (Val (new_utils true key secret debug), w').
Proof.
  intros Hkey Hsecret Hans Hstatus w'.
  assert (Hok : ok r = true) by (unfold ok; rewrite Hstatus; reflexivity).
  destruct (constructors_check true key secret debug) as (-> & -> & ->); [auto|].
  subst w'. repeat split; rewrite bind_run.
  - unfold ipfs_directory.check_daemon_running. fold_attempt.
    rewrite (retry_answered _ _ _ _ 0 _ w r);
      [| intros i Hi; lia | rewrite Nat.add_0_r; exact Hans | simpl; lia | simpl; lia].
    rewrite Hstatus, Z.eqb_refl, bind_run.
    unfold answered_world, check_events.
    destruct debug; simpl; unfold logger_log, ret;
      rewrite ?advance_advance; reflexivity.
  - unfold ipfs_file.check_daemon_running. fold_attempt.
    rewrite (retry_answered _ _ _ _ 0 _ w r);
      [| intros i Hi; lia | rewrite Nat.add_0_r; exact Hans | simpl; lia | simpl; lia].
    rewrite Hok, bind_run.
    unfold answered_world, check_events.
    destruct debug; simpl; unfold logger_log, ret;
      rewrite ?advance_advance; reflexivity.
  - unfold ipfs.check_daemon_running. fold_attempt.
    rewrite (retry_answered _ _ _ _ 0 _ w r);
      [| intros i Hi; lia | rewrite Nat.add_0_r; exact Hans | simpl; lia | simpl; lia].
    rewrite Hok, bind_run.
    unfold answered_world, check_events.
    destruct debug; simpl; unfold logger_log, ret;
      rewrite ?advance_advance; reflexivity.
Qed.

(** X22.  The daemon checks do not agree on what a good answer is: an
    answer with a status other than 200 that is neither a client nor a
    server error (204, say, or a redirect) makes the check of the directory
    loader raise, while the checks of the file loader and of the FAISS
    utilities accept it. *)
Theorem daemon_checks_differ_on_other_statuses
    (dir : ipfs_directory.IPFSDirectoryDataLoader)
    (file : ipfs_file.IPFSFileDataLoader) (utils : ipfs.IPFSFAISSUtils)
    (w : world) (r : Response) :
  (forall rq, server w (clock w) rq = Answers r) ->
  status_code r <> 200 -> ~ (400 <= status_code r < 600) ->
  (0 < Z.to_nat (ipfs_directory.max_retries dir))%nat ->
  (0 < Z.to_nat (ipfs_file.max_retries file))%nat ->
  (0 < Z.to_nat (ipfs.max_retries utils))%nat ->
  ipfs_directory.check_daemon_running dir w
  = (Raise (Exception "IPFS daemon not running or not accessible"),
     advance 1 [EPost (directory_version_request dir)] w)
  /\ ipfs_file.check_daemon_running file w
     = (Val tt, advance 1 (check_events (file_version_request file)
                             (ipfs_file.debug file)) w)
  /\ ipfs.check_daemon_running utils w
     = (Val tt, advance 1 (check_events (utils_version_request utils)
                             (ipfs.debug utils)) w).
Proof.
  intros Hans Hstatus Hrange Hdir Hfile Hutils.
  assert (Hok : ok r = true).
  { unfold ok. destruct (Z.leb_spec 400 (status_code r));
      destruct (Z.ltb_spec (status_code r) 600); try reflexivity. lia. }
  repeat split.
  - unfold ipfs_directory.check_daemon_running. fold_attempt.
    destruct (Z.to_nat (ipfs_directory.max_retries dir)) as [|n]; [lia|].
    rewrite bind_run, for_range_S, (attempt_answer _ _ _ _ r) by apply Hans.
    destruct (Z.eqb_spec (status_code r) 200); [contradiction | reflexivity].
  - unfold ipfs_file.check_daemon_running. fold_attempt.
    destruct (Z.to_nat (ipfs_file.max_retries file)) as [|n]; [lia|].
    rewrite bind_run, for_range_S, (attempt_answer _ _ _ _ r) by apply Hans.
    rewrite Hok, bind_run. unfold check_events, file_version_request.
    destruct (ipfs_file.debug file); simpl; unfold logger_log, ret;
      rewrite ?advance_advance; reflexivity.
  - unfold ipfs.check_daemon_running. fold_attempt.
    destruct (Z.to_nat (ipfs.max_retries utils)) as [|n]; [lia|].
    rewrite bind_run, for_range_S, (attempt_answer _ _ _ _ r) by apply Hans.
    rewrite Hok, bind_run. unfold check_events, utils_version_request.
    destruct (ipfs.debug utils); simpl; unfold logger_log, ret;
      rewrite ?advance_advance; reflexivity.
Qed.


Lemma construction_fails_without_daemon_witness :
  let w := fresh unreachable in
  let rq := hosted_version_request (Some "key") (Some "secret") in
  let unreachable_error := Exception "IPFS daemon not running or not accessible" in
  ipfs_directory.__init__ true (Some "key") (Some "secret") false w
  = (Raise unreachable_error, advance 5 (failed_rounds rq 1 5) w)
  /\ ipfs_file.__init__ true (Some "key") (Some "secret") false w
     = (Raise unreachable_error, advance 5 (failed_rounds rq 1 5) w)
  /\ ipfs.__init__ true (Some "key") (Some "secret") false w
     = (Raise unreachable_error, advance 5 (failed_rounds rq 1 5) w).
Proof.
  intros w rq unreachable_error.
  apply (construction_fails_without_daemon true (Some "key") (Some "secret") false w).
  - intros _. split; reflexivity.
  - intros i rq'. exists (ConnectionError "Connection refused"). split; reflexivity.
Defined.

Lemma hosted_construction_uses_gateway_and_credentials_witness :
  let w := fresh healthy_daemon in
  let rq := {| url := "https://ipfs.infura.io:5001/api/v0/version";
               auth := Some (Some "key", Some "secret") |} in
  ipfs_directory.__init__ true (Some "key") (Some "secret") false w
  = (Val (new_directory_loader true (Some "key") (Some "secret") false),
     advance 1 [EPost rq] w)
  /\ ipfs_file.__init__ true (Some "key") (Some "secret") false w
     = (Val (new_file_loader true (Some "key") (Some "secret") false),
        advance 1 [EPost rq] w)
  /\ ipfs.__init__ true (Some "key") (Some "secret") false w
     = (Val (new_utils true (Some "key") (Some "secret") false),
        advance 1 [EPost rq] w).
Proof.
  intros w rq.
  apply (hosted_construction_uses_gateway_and_credentials (Some "key") (Some "secret")
           false w {| status_code := 200; content := []; json_body := None |});
    reflexivity.
Defined.

Lemma daemon_checks_differ_on_other_statuses_witness :
  let w := fresh no_content_daemon in
  ipfs_directory.check_daemon_running local_directory_loader w
  = (Raise (Exception "IPFS daemon not running or not accessible"),
     advance 1 [EPost local_version_request] w)
  /\ ipfs_file.check_daemon_running local_file_loader w
     = (Val tt, advance 1 [EPost local_version_request] w)
  /\ ipfs.check_daemon_running local_utils w
     = (Val tt, advance 1 [EPost local_version_request] w).
Proof.
  intros w.
  apply (daemon_checks_differ_on_other_statuses local_directory_loader
           local_file_loader local_utils w
           {| status_code := 204; content := []; json_body := None |}).
  - intros rq. reflexivity.
  - simpl. lia.
  - simpl. lia.
  - simpl. lia.
  - simpl. lia.
  - simpl. lia.
Defined.


(** ** Contents that cannot be read *)

Section UnreadableContents.
Context `{Libs}.

(** X23.  An exception raised while the answered content is sniffed or
    read (a missing library, a PDF, CSV, JSON or UTF-8 error), other than a
    connection error of [requests], is not retried: the file fetch raises
    it right after the post that was answered. *)
Theorem file_load_passes_on_reader_errors (self : ipfs_file.IPFSFileDataLoader)
    (ipfs_hash : string) (w : world) (k : nat) (r : Response) (e : exn) :
  fails_then_answers w (cat_request self ipfs_hash) k r ->
  (k < Z.to_nat (ipfs_file.max_retries self))%nat ->
  0 <= ipfs_file.retry_delay self ->
  ok r = true ->
  is_ConnectionError e = false ->
  ipfs_file.identify_file_type_from_bytes (content r) = inl e
  \/ (exists file_type reader,
        ipfs_file.identify_file_type_from_bytes (content r) = inr file_type
        /\ ipfs_file.select_reader file_type = inr reader
        /\ ipfs_file.call reader r = inl e) ->
  ipfs_file.load self ipfs_hash w
  = (Raise e,
     answered_world (cat_request self ipfs_hash) (ipfs_file.retry_delay self) k w).
Proof.
  intros Hrun Hk Hdelay Hok Hconn Hfail.
  destruct (file_load_answered self ipfs_hash w k r Hrun Hk Hdelay Hok) as [Hraise _].
  apply Hraise; [|exact Hconn].
  destruct Hfail as [-> | (file_type & reader & -> & Hreader & Hread)].
  - reflexivity.
  - simpl. rewrite Hreader. simpl. exact Hread.
Qed.

End UnreadableContents.

Lemma file_load_passes_on_reader_errors_witness :
  let w := fresh healthy_daemon in
  @ipfs_file.load broken_json_libs local_file_loader "QmData" w
  = (Raise (JSONDecodeError "Expecting value"),
     advance 1 [EPost (cat_request local_file_loader "QmData")] w).
Proof.
  intros w.
  apply (@file_load_passes_on_reader_errors broken_json_libs local_file_loader
           "QmData" w 0 {| status_code := 200; content := []; json_body := None |}
           (JSONDecodeError "Expecting value")).
  - apply answers_at_once. reflexivity.
  - simpl. lia.
  - simpl. lia.
  - reflexivity.
  - reflexivity.
  - right. exists "application/json", ipfs_file.the_json_reader.
    split; [reflexivity | split; reflexivity].
Defined.
